(** * RemoteProjectSnapshot: the cloud snapshot download session

    A shallow embedding of
    [libraries/lib-cloud-audiocom/sync/RemoteProjectSnapshot.cpp].

    The session is a small concurrent program: the constructor builds the
    request list, [RequestsThread] dispatches requests under a ceiling of six,
    the transport runs one finished-callback per response on threads of its
    own, and the owner may call [Cancel] at any time.  The embedding is a
    labelled transition function [step] over a record holding the members of
    the class, the program counter of every dispatched request, and the log
    of callback invocations.  One label is one atomic access to the shared
    members (an atomic load or store, or one critical section), so the runs
    of [run] are the interleavings of the threads.

    Four things are taken in one step each: the turn of the scheduler up to
    the end of its critical section, the two accesses of [DownloadBlob], a
    success handler up to the end of its write lock (its validation reads
    nothing shared), and a call of [Cancel] by the owner.  A store to a
    flag inside a turn, and a call of [Cancel] inside [DownloadBlob], leave
    the session of the step taken after and before it
    ([Cancel_inside_turn], [OnFailure_inside_turn],
    [Cancel_inside_DownloadBlob]).  Loads read the value stored last.
    What the transport, the codec and the local store answer comes in with
    the labels.  The destructor is not part of the model. *)

From stdpp Require Import gmap strings list.
From Stdlib Require Import ZArith Ascii.
From Stdlib.Strings Require Import Byte.

#[local] Set Warnings "-clear-no-such-hyp".

Local Open Scope string_scope.
Local Open Scope list_scope.

(** ** Data model *)

Record ProjectInfo := { ProjectInfo_Id : string }.

Record BlockDescriptor := { Hash : string; Url : string }.

Record SnapshotInfo := {
  SnapshotInfo_Id : string;
  FileUrl : string;
  Blocks : list BlockDescriptor
}.

(** Modelled from the spec: [DBProjectData] is declared in
    CloudProjectsDatabase.h, which is not part of the sources; the record
    follows the ProjectSyncRecord of the data model and the members that
    [MarkProjectInDB] assigns. *)
Inductive SyncStatusT := SyncStatusSynced | SyncStatusDownloading.

Record DBProjectData := {
  ProjectId : string;
  SnapshotId : string;
  SyncStatus : SyncStatusT;
  LastRead : Z;
  LocalPath : string
}.

#[global] Instance SyncStatusT_eq_dec : EqDecision SyncStatusT.
Proof. solve_decision. Defined.

(** Modelled from the spec: the result of [DecompressBlock]
    (WavPackCompressor.h is absent), with the members that
    [OnBlockDownloaded] binds. *)
Record DecodedBlock := {
  BlockId : Z;
  Format : Z;
  BlockMin : Z; BlockMax : Z; BlockRMS : Z;
  Summary256 : list byte;
  Summary64k : list byte;
  Data : list byte
}.

(** Modelled from the spec: [RemoteProjectSnapshotState] is declared in
    RemoteProjectSnapshot.h, which is absent.  The callback contract lists
    its members in this order, and the positional initialisers of the
    source ([{ 0, 0, {}, true, true, true }] and the seven-member ones) fill
    them in this order; a member left out is [false]. *)
Record RemoteProjectSnapshotState := {
  downloadedBlocks : Z;
  missingBlocks : Z;
  error : string;
  projectBlobDownloaded : bool;
  completed : bool;
  success : bool;
  cancelled : bool
}.

(** The two closures pushed into [mRequests]: the one calling
    [OnProjectBlobDownloaded], and the one calling [OnBlockDownloaded] with
    the captured upper-case hash. *)
Inductive SuccessHandler :=
| ProjectBlob
| Block (hash : string).

Definition Request : Type := string * SuccessHandler.

(** ** Strings *)

(** Modelled from the spec: [ToUpper] lives in StringUtils.h (absent);
    hashes are normalised to upper case, letter by letter. *)
Definition upper_ascii (c : ascii) : ascii :=
  let n := nat_of_ascii c in
  if (97 <=? n)%nat && (n <=? 122)%nat then ascii_of_nat (n - 32) else c.

Fixpoint ToUpper (s : string) : string :=
  match s with
  | EmptyString => EmptyString
  | String c r => String (upper_ascii c) (ToUpper r)
  end.

(** [XO(msg).Translation()] and [audacity::ToUTF8] are taken in the source
    language of the messages; [.Format(arg)] fills the single [%s], which
    ends each format string that has one. *)
Definition msg_download_failed_fmt (arg : string) : string :=
  "Failed to download the cloud project: " +:+ arg.
Definition msg_download_failed : string := "Failed to download the cloud project".
Definition msg_update_failed : string := "Failed to update the cloud project".
Definition msg_decompress_failed : string :=
  "Failed to decompress the cloud project block".
Definition msg_hashes_failed : string :=
  "Failed to update the cloud project block hashes".
Definition msg_block_failed : string := "Failed to update the cloud project block".
Definition msg_attach_failed : string :=
  "Failed to attach to the cloud project database".

(** ** The local stores *)

(** Modelled from the spec: the SQLite wrapper and [CloudProjectsDatabase]
    are absent.  The tables are the ones named by the SQL text of the
    source, each keyed by the columns of its [ON CONFLICT] clause. *)
Record CloudDb := {
  projects : gmap string DBProjectData;
  block_hashes : gmap (string * Z) string
}.

(** The attached project file, [s_<project id>]: the [project] row with
    id 1, the [autosave] row with id 1, and [sampleblocks] by block id.
    [has_sampleblocks] is false when the statement of
    [CalculateKnownBlocks] cannot be created. *)
Record SnapshotDb := {
  project : option (list byte * list byte);
  autosave : option (list byte);
  has_sampleblocks : bool;
  sampleblocks : gmap Z DecodedBlock
}.

Definition GetProjectData (db : CloudDb) (id : string) : option DBProjectData :=
  projects db !! id.

Definition UpdateProjectData (db : CloudDb) (d : DBProjectData) : CloudDb :=
  {| projects := <[ProjectId d := d]> (projects db);
     block_hashes := block_hashes db |}.

Definition emptyProjectData : DBProjectData :=
  {| ProjectId := ""; SnapshotId := ""; SyncStatus := SyncStatusSynced;
     LastRead := 0; LocalPath := "" |}.

(** [MarkProjectInDB]; [now] is [wxDateTime::Now().GetTicks()]. *)
Definition MarkProjectInDB (pinfo : ProjectInfo) (sinfo : SnapshotInfo)
    (path : string) (now : Z) (successfulDownload : bool) (db : CloudDb) : CloudDb :=
  let currentData := GetProjectData db (ProjectInfo_Id pinfo) in
  let data := default emptyProjectData currentData in
  UpdateProjectData db
    {| ProjectId := ProjectInfo_Id pinfo;
       SnapshotId := SnapshotInfo_Id sinfo;
       SyncStatus := if successfulDownload then SyncStatusSynced
                     else SyncStatusDownloading;
       LastRead := now;
       LocalPath := path |}.

(** ** CalculateKnownBlocks *)

Definition remoteBlocks (sinfo : SnapshotInfo) : gset string :=
  foldl (fun acc block => acc ∪ {[ ToUpper (Hash block) ]}) ∅ (Blocks sinfo).

(** The [WHERE] clause of the query, row by row. *)
Definition known_row (pid : string) (remote : gset string) (snap : SnapshotDb)
    (row : string * Z * string) : bool :=
  let '(project_id, block_id, hash) := row in
  bool_decide (project_id = pid) &&
  bool_decide (hash ∈ remote) &&
  bool_decide (block_id ∈ dom (sampleblocks snap)).

Definition CalculateKnownBlocks (cloud : CloudDb) (snap : SnapshotDb)
    (pinfo : ProjectInfo) (sinfo : SnapshotInfo) : gset string :=
  let remote := remoteBlocks sinfo in
  if has_sampleblocks snap then
    foldl (fun knownBlocks row => knownBlocks ∪ {[ row.2 ]}) ∅
      (filter (fun row => known_row (ProjectInfo_Id pinfo) remote snap row = true)
              (map_to_list (block_hashes cloud)))
  else ∅.

(** ** The session *)

(** Modelled from the spec: [NetworkError] is declared by the network
    manager (absent); the transport contract gives the kinds None,
    HTTPError, OperationCancelled and one for every other error. *)
Inductive NetworkError := NoError | HTTPError | OperationCancelled | OtherError.

#[global] Instance NetworkError_eq_dec : EqDecision NetworkError.
Proof. solve_decision. Defined.

(** What the finished callback reads from [IResponse]. *)
Record Response := {
  getError : NetworkError;
  getHTTPCode : Z;
  readAll : list byte;
  getErrorString : string
}.

(** Where the callback of one dispatched request stands.  Every constructor
    is the point before one access to the shared members. *)
Inductive PC :=
| Queued (retries : Z)              (* DownloadBlob (url, onSuccess, retries) is called *)
| Fetching (retries : Z)            (* the response is with the transport *)
| Handling (data : list byte)       (* NoError: onSuccess (response) is called *)
| Storing                           (* committed; the store or fetch_add is next *)
| RPCheck                           (* ReportProgress: load of mCancelled *)
| RPLoadProject                     (* load of mProjectDownloaded *)
| RPLoadBlocks (pd : bool)          (* load of mDownloadedBlocks *)
| RPMark (pd : bool) (bd : Z)       (* completed: MarkProjectInDB (true) *)
| RPCallback (pd : bool) (bd : Z)   (* mCallback *)
| Failing (err : string) (again : bool)   (* OnFailure: store to mFailed *)
| FailRemove (err : string) (again : bool)       (* RemoveRequest inside OnFailure *)
| FailLoadBlocks (err : string) (again : bool)
| FailLoadProject (err : string) (again : bool) (bd : Z)
| FailCallback (err : string) (again : bool) (bd : Z) (pd : bool)
| Removing                          (* RemoveRequest closing the callback *)
| Removing2                         (* the same, after OnFailure ran inside onSuccess *)
| Finished.

(** [again] records that [OnFailure] was called from inside the success
    handler: the lambda of [DownloadBlob] then still runs its own
    [RemoveRequest (response)] after [onSuccess] returns. *)

Record Chain := {
  chain_url : string;
  chain_handler : SuccessHandler;
  chain_response : option nat;
  chain_pc : PC
}.

Inductive ThreadState := NotStarted | Running | Exited.

(** Modelled from the spec: the class is declared in
    RemoteProjectSnapshot.h (absent).  The members are those the source
    file uses, under its names; the two counters of blocks and the signed
    count of requests in progress are integers, far from their limits.  The
    last seven fields are not members: the scheduler thread and the
    callbacks in progress, what the transport was asked, the calls of
    [notify_one] on [mRequestsCV], what was reported, and the two stores. *)
Record Session := {
  mProjectInfo : ProjectInfo;
  mSnapshotInfo : SnapshotInfo;
  mPath : string;
  mAttached : bool;
  mMissingBlocks : Z;
  mRequests : list Request;
  mCancelled : bool;
  mFailed : bool;
  mProjectDownloaded : bool;
  mDownloadedBlocks : Z;
  mNextRequestIndex : nat;
  mRequestsInProgress : Z;
  mResponses : list nat;
  mRequestsThread : ThreadState;
  chains : list Chain;                 (* one per dispatched request, by index *)
  aborted : gset nat;                  (* responses on which abort () was called *)
  issued : list (nat * string);        (* every doGet: request index and url *)
  notified : nat;                      (* the calls of mRequestsCV.notify_one () *)
  reports : list RemoteProjectSnapshotState;   (* every mCallback call, oldest first *)
  cloud : CloudDb;
  snapshot_db : SnapshotDb
}.

Definition set_mCancelled (v : bool) (s : Session) : Session :=
  {| mProjectInfo := mProjectInfo s; mSnapshotInfo := mSnapshotInfo s;
     mPath := mPath s; mAttached := mAttached s;
     mMissingBlocks := mMissingBlocks s; mRequests := mRequests s;
     mCancelled := v; mFailed := mFailed s;
     mProjectDownloaded := mProjectDownloaded s;
     mDownloadedBlocks := mDownloadedBlocks s;
     mNextRequestIndex := mNextRequestIndex s;
     mRequestsInProgress := mRequestsInProgress s;
     mResponses := mResponses s; mRequestsThread := mRequestsThread s;
     chains := chains s; aborted := aborted s; issued := issued s;
     notified := notified s; reports := reports s; cloud := cloud s;
     snapshot_db := snapshot_db s |}.

Definition set_mFailed (v : bool) (s : Session) : Session :=
  {| mProjectInfo := mProjectInfo s; mSnapshotInfo := mSnapshotInfo s;
     mPath := mPath s; mAttached := mAttached s;
     mMissingBlocks := mMissingBlocks s; mRequests := mRequests s;
     mCancelled := mCancelled s; mFailed := v;
     mProjectDownloaded := mProjectDownloaded s;
     mDownloadedBlocks := mDownloadedBlocks s;
     mNextRequestIndex := mNextRequestIndex s;
     mRequestsInProgress := mRequestsInProgress s;
     mResponses := mResponses s; mRequestsThread := mRequestsThread s;
     chains := chains s; aborted := aborted s; issued := issued s;
     notified := notified s; reports := reports s; cloud := cloud s;
     snapshot_db := snapshot_db s |}.

Definition set_mProjectDownloaded (v : bool) (s : Session) : Session :=
  {| mProjectInfo := mProjectInfo s; mSnapshotInfo := mSnapshotInfo s;
     mPath := mPath s; mAttached := mAttached s;
     mMissingBlocks := mMissingBlocks s; mRequests := mRequests s;
     mCancelled := mCancelled s; mFailed := mFailed s;
     mProjectDownloaded := v;
     mDownloadedBlocks := mDownloadedBlocks s;
     mNextRequestIndex := mNextRequestIndex s;
     mRequestsInProgress := mRequestsInProgress s;
     mResponses := mResponses s; mRequestsThread := mRequestsThread s;
     chains := chains s; aborted := aborted s; issued := issued s;
     notified := notified s; reports := reports s; cloud := cloud s;
     snapshot_db := snapshot_db s |}.

Definition set_mDownloadedBlocks (v : Z) (s : Session) : Session :=
  {| mProjectInfo := mProjectInfo s; mSnapshotInfo := mSnapshotInfo s;
     mPath := mPath s; mAttached := mAttached s;
     mMissingBlocks := mMissingBlocks s; mRequests := mRequests s;
     mCancelled := mCancelled s; mFailed := mFailed s;
     mProjectDownloaded := mProjectDownloaded s;
     mDownloadedBlocks := v;
     mNextRequestIndex := mNextRequestIndex s;
     mRequestsInProgress := mRequestsInProgress s;
     mResponses := mResponses s; mRequestsThread := mRequestsThread s;
     chains := chains s; aborted := aborted s; issued := issued s;
     notified := notified s; reports := reports s; cloud := cloud s;
     snapshot_db := snapshot_db s |}.

Definition set_mNextRequestIndex (v : nat) (s : Session) : Session :=
  {| mProjectInfo := mProjectInfo s; mSnapshotInfo := mSnapshotInfo s;
     mPath := mPath s; mAttached := mAttached s;
     mMissingBlocks := mMissingBlocks s; mRequests := mRequests s;
     mCancelled := mCancelled s; mFailed := mFailed s;
     mProjectDownloaded := mProjectDownloaded s;
     mDownloadedBlocks := mDownloadedBlocks s;
     mNextRequestIndex := v;
     mRequestsInProgress := mRequestsInProgress s;
     mResponses := mResponses s; mRequestsThread := mRequestsThread s;
     chains := chains s; aborted := aborted s; issued := issued s;
     notified := notified s; reports := reports s; cloud := cloud s;
     snapshot_db := snapshot_db s |}.

Definition set_mRequestsInProgress (v : Z) (s : Session) : Session :=
  {| mProjectInfo := mProjectInfo s; mSnapshotInfo := mSnapshotInfo s;
     mPath := mPath s; mAttached := mAttached s;
     mMissingBlocks := mMissingBlocks s; mRequests := mRequests s;
     mCancelled := mCancelled s; mFailed := mFailed s;
     mProjectDownloaded := mProjectDownloaded s;
     mDownloadedBlocks := mDownloadedBlocks s;
     mNextRequestIndex := mNextRequestIndex s;
     mRequestsInProgress := v;
     mResponses := mResponses s; mRequestsThread := mRequestsThread s;
     chains := chains s; aborted := aborted s; issued := issued s;
     notified := notified s; reports := reports s; cloud := cloud s;
     snapshot_db := snapshot_db s |}.

Definition set_mResponses (v : list nat) (s : Session) : Session :=
  {| mProjectInfo := mProjectInfo s; mSnapshotInfo := mSnapshotInfo s;
     mPath := mPath s; mAttached := mAttached s;
     mMissingBlocks := mMissingBlocks s; mRequests := mRequests s;
     mCancelled := mCancelled s; mFailed := mFailed s;
     mProjectDownloaded := mProjectDownloaded s;
     mDownloadedBlocks := mDownloadedBlocks s;
     mNextRequestIndex := mNextRequestIndex s;
     mRequestsInProgress := mRequestsInProgress s;
     mResponses := v; mRequestsThread := mRequestsThread s;
     chains := chains s; aborted := aborted s; issued := issued s;
     notified := notified s; reports := reports s; cloud := cloud s;
     snapshot_db := snapshot_db s |}.

Definition set_mRequestsThread (v : ThreadState) (s : Session) : Session :=
  {| mProjectInfo := mProjectInfo s; mSnapshotInfo := mSnapshotInfo s;
     mPath := mPath s; mAttached := mAttached s;
     mMissingBlocks := mMissingBlocks s; mRequests := mRequests s;
     mCancelled := mCancelled s; mFailed := mFailed s;
     mProjectDownloaded := mProjectDownloaded s;
     mDownloadedBlocks := mDownloadedBlocks s;
     mNextRequestIndex := mNextRequestIndex s;
     mRequestsInProgress := mRequestsInProgress s;
     mResponses := mResponses s; mRequestsThread := v;
     chains := chains s; aborted := aborted s; issued := issued s;
     notified := notified s; reports := reports s; cloud := cloud s;
     snapshot_db := snapshot_db s |}.

Definition set_chains (v : list Chain) (s : Session) : Session :=
  {| mProjectInfo := mProjectInfo s; mSnapshotInfo := mSnapshotInfo s;
     mPath := mPath s; mAttached := mAttached s;
     mMissingBlocks := mMissingBlocks s; mRequests := mRequests s;
     mCancelled := mCancelled s; mFailed := mFailed s;
     mProjectDownloaded := mProjectDownloaded s;
     mDownloadedBlocks := mDownloadedBlocks s;
     mNextRequestIndex := mNextRequestIndex s;
     mRequestsInProgress := mRequestsInProgress s;
     mResponses := mResponses s; mRequestsThread := mRequestsThread s;
     chains := v; aborted := aborted s; issued := issued s;
     notified := notified s; reports := reports s; cloud := cloud s;
     snapshot_db := snapshot_db s |}.

Definition set_aborted (v : gset nat) (s : Session) : Session :=
  {| mProjectInfo := mProjectInfo s; mSnapshotInfo := mSnapshotInfo s;
     mPath := mPath s; mAttached := mAttached s;
     mMissingBlocks := mMissingBlocks s; mRequests := mRequests s;
     mCancelled := mCancelled s; mFailed := mFailed s;
     mProjectDownloaded := mProjectDownloaded s;
     mDownloadedBlocks := mDownloadedBlocks s;
     mNextRequestIndex := mNextRequestIndex s;
     mRequestsInProgress := mRequestsInProgress s;
     mResponses := mResponses s; mRequestsThread := mRequestsThread s;
     chains := chains s; aborted := v; issued := issued s;
     notified := notified s; reports := reports s; cloud := cloud s;
     snapshot_db := snapshot_db s |}.

Definition set_issued (v : list (nat * string)) (s : Session) : Session :=
  {| mProjectInfo := mProjectInfo s; mSnapshotInfo := mSnapshotInfo s;
     mPath := mPath s; mAttached := mAttached s;
     mMissingBlocks := mMissingBlocks s; mRequests := mRequests s;
     mCancelled := mCancelled s; mFailed := mFailed s;
     mProjectDownloaded := mProjectDownloaded s;
     mDownloadedBlocks := mDownloadedBlocks s;
     mNextRequestIndex := mNextRequestIndex s;
     mRequestsInProgress := mRequestsInProgress s;
     mResponses := mResponses s; mRequestsThread := mRequestsThread s;
     chains := chains s; aborted := aborted s; issued := v;
     notified := notified s; reports := reports s; cloud := cloud s;
     snapshot_db := snapshot_db s |}.

Definition set_notified (v : nat) (s : Session) : Session :=
  {| mProjectInfo := mProjectInfo s; mSnapshotInfo := mSnapshotInfo s;
     mPath := mPath s; mAttached := mAttached s;
     mMissingBlocks := mMissingBlocks s; mRequests := mRequests s;
     mCancelled := mCancelled s; mFailed := mFailed s;
     mProjectDownloaded := mProjectDownloaded s;
     mDownloadedBlocks := mDownloadedBlocks s;
     mNextRequestIndex := mNextRequestIndex s;
     mRequestsInProgress := mRequestsInProgress s;
     mResponses := mResponses s; mRequestsThread := mRequestsThread s;
     chains := chains s; aborted := aborted s; issued := issued s;
     notified := v; reports := reports s; cloud := cloud s;
     snapshot_db := snapshot_db s |}.

Definition set_reports (v : list RemoteProjectSnapshotState) (s : Session) : Session :=
  {| mProjectInfo := mProjectInfo s; mSnapshotInfo := mSnapshotInfo s;
     mPath := mPath s; mAttached := mAttached s;
     mMissingBlocks := mMissingBlocks s; mRequests := mRequests s;
     mCancelled := mCancelled s; mFailed := mFailed s;
     mProjectDownloaded := mProjectDownloaded s;
     mDownloadedBlocks := mDownloadedBlocks s;
     mNextRequestIndex := mNextRequestIndex s;
     mRequestsInProgress := mRequestsInProgress s;
     mResponses := mResponses s; mRequestsThread := mRequestsThread s;
     chains := chains s; aborted := aborted s; issued := issued s;
     notified := notified s; reports := v; cloud := cloud s;
     snapshot_db := snapshot_db s |}.

Definition set_cloud (v : CloudDb) (s : Session) : Session :=
  {| mProjectInfo := mProjectInfo s; mSnapshotInfo := mSnapshotInfo s;
     mPath := mPath s; mAttached := mAttached s;
     mMissingBlocks := mMissingBlocks s; mRequests := mRequests s;
     mCancelled := mCancelled s; mFailed := mFailed s;
     mProjectDownloaded := mProjectDownloaded s;
     mDownloadedBlocks := mDownloadedBlocks s;
     mNextRequestIndex := mNextRequestIndex s;
     mRequestsInProgress := mRequestsInProgress s;
     mResponses := mResponses s; mRequestsThread := mRequestsThread s;
     chains := chains s; aborted := aborted s; issued := issued s;
     notified := notified s; reports := reports s; cloud := v;
     snapshot_db := snapshot_db s |}.

Definition set_snapshot_db (v : SnapshotDb) (s : Session) : Session :=
  {| mProjectInfo := mProjectInfo s; mSnapshotInfo := mSnapshotInfo s;
     mPath := mPath s; mAttached := mAttached s;
     mMissingBlocks := mMissingBlocks s; mRequests := mRequests s;
     mCancelled := mCancelled s; mFailed := mFailed s;
     mProjectDownloaded := mProjectDownloaded s;
     mDownloadedBlocks := mDownloadedBlocks s;
     mNextRequestIndex := mNextRequestIndex s;
     mRequestsInProgress := mRequestsInProgress s;
     mResponses := mResponses s; mRequestsThread := mRequestsThread s;
     chains := chains s; aborted := aborted s; issued := issued s;
     notified := notified s; reports := reports s; cloud := cloud s;
     snapshot_db := v |}.

(** [mCallback (state)]. *)
Definition mCallback (r : RemoteProjectSnapshotState) (s : Session) : Session :=
  set_reports (reports s ++ [r]) s.

(** ** Construction *)

Definition block_request (block : BlockDescriptor) : Request :=
  (Url block, Block (ToUpper (Hash block))).

(** The [push_back] of the project blob and the loop over
    [mSnapshotInfo.Blocks] with its [continue]. *)
Definition build_requests (knownBlocks : gset string) (sinfo : SnapshotInfo)
    : list Request :=
  foldl (fun reqs block =>
           if bool_decide (ToUpper (Hash block) ∈ knownBlocks) then reqs
           else reqs ++ [block_request block])
        [(FileUrl sinfo, ProjectBlob)] (Blocks sinfo).

(** [size_t] subtraction. *)
Definition size_sub (a b : nat) : Z := ((Z.of_nat a - Z.of_nat b) mod 2 ^ 64)%Z.

Definition already_synced (cloud0 : CloudDb) (pinfo : ProjectInfo)
    (sinfo : SnapshotInfo) : bool :=
  match GetProjectData cloud0 (ProjectInfo_Id pinfo) with
  | Some syncInfo =>
      bool_decide (SnapshotId syncInfo = SnapshotInfo_Id sinfo) &&
      bool_decide (SyncStatus syncInfo = SyncStatusSynced)
  | None => false
  end.

Definition emptySnapshotDb : SnapshotDb :=
  {| project := None; autosave := None; has_sampleblocks := false;
     sampleblocks := ∅ |}.

(** The members as their default initialisers leave them. *)
Definition fresh (cloud0 : CloudDb) (pinfo : ProjectInfo) (sinfo : SnapshotInfo)
    (path : string) : Session :=
  {| mProjectInfo := pinfo; mSnapshotInfo := sinfo; mPath := path;
     mAttached := false; mMissingBlocks := 0; mRequests := [];
     mCancelled := false; mFailed := false; mProjectDownloaded := false;
     mDownloadedBlocks := 0; mNextRequestIndex := 0%nat;
     mRequestsInProgress := 0; mResponses := [];
     mRequestsThread := NotStarted; chains := []; aborted := ∅;
     issued := []; notified := 0%nat; reports := []; cloud := cloud0;
     snapshot_db := emptySnapshotDb |}.

Definition set_construction (attached : bool) (missing : Z) (reqs : list Request)
    (s : Session) : Session :=
  {| mProjectInfo := mProjectInfo s; mSnapshotInfo := mSnapshotInfo s;
     mPath := mPath s; mAttached := attached;
     mMissingBlocks := missing; mRequests := reqs;
     mCancelled := mCancelled s; mFailed := mFailed s;
     mProjectDownloaded := mProjectDownloaded s;
     mDownloadedBlocks := mDownloadedBlocks s;
     mNextRequestIndex := mNextRequestIndex s;
     mRequestsInProgress := mRequestsInProgress s;
     mResponses := mResponses s; mRequestsThread := mRequestsThread s;
     chains := chains s; aborted := aborted s; issued := issued s;
     notified := notified s; reports := reports s; cloud := cloud s;
     snapshot_db := snapshot_db s |}.

(** The constructor.  [attach] is the outcome of [ATTACH DATABASE path]:
    the project file when the statement succeeds. *)
Definition construct (cloud0 : CloudDb) (attach : option SnapshotDb)
    (pinfo : ProjectInfo) (sinfo : SnapshotInfo) (path : string) (now : Z)
    : Session :=
  let s0 := fresh cloud0 pinfo sinfo path in
  match attach with
  | None => s0
  | Some snap =>
      let s1 := set_snapshot_db snap (set_construction true 0 [] s0) in
      let knownBlocks := CalculateKnownBlocks cloud0 snap pinfo sinfo in
      if bool_decide (size knownBlocks = length (Blocks sinfo)) &&
         already_synced cloud0 pinfo sinfo
      then
        mCallback {| downloadedBlocks := 0; missingBlocks := 0; error := "";
                     projectBlobDownloaded := true; completed := true;
                     success := true; cancelled := false |} s1
      else
        let s2 := set_cloud (MarkProjectInDB pinfo sinfo path now false cloud0) s1 in
        let missing := size_sub (length (Blocks sinfo)) (size knownBlocks) in
        set_mRequestsThread Running
          (set_construction true missing (build_requests knownBlocks sinfo) s2)
  end.

(** [Sync]: the session, if any, and the callback invocations so far. *)
Definition Sync (cloud0 : CloudDb) (attach : option SnapshotDb)
    (pinfo : ProjectInfo) (sinfo : SnapshotInfo) (path : string) (now : Z)
    : option Session * list RemoteProjectSnapshotState :=
  let snapshot := construct cloud0 attach pinfo sinfo path now in
  if mAttached snapshot then (Some snapshot, reports snapshot)
  else (None, [ {| downloadedBlocks := 0; missingBlocks := 0;
                   error := msg_attach_failed;
                   projectBlobDownloaded := false; completed := false;
                   success := false; cancelled := false |} ]).

(** ** Cancel *)

(** [mRequestsCV.notify_one ()]: the call is recorded.  The thread sleeps
    in [mRequestsCV.wait] exactly while [RequestsThread_step] below is
    [None], and tests the predicate of the wait again when it is woken. *)
Definition notify_one (s : Session) : Session :=
  set_notified (S (notified s)) s.

Definition DoCancel (s : Session) : Session :=
  let s1 := notify_one (set_mCancelled true s) in
  set_aborted (aborted s1 ∪ list_to_set (mResponses s1)) s1.

Definition Cancel (s : Session) : Session :=
  let s1 := DoCancel s in
  mCallback {| downloadedBlocks := mDownloadedBlocks s1;
               missingBlocks := mMissingBlocks s1;
               error := "";
               projectBlobDownloaded := mProjectDownloaded s1;
               completed := true; success := false; cancelled := true |} s1.

(** ** The download pipeline *)

Inductive Outcome :=
| OutCancelled
| OutFailure (msg : string)
| OutRetry
| OutSuccess.

(** The branches of the finished callback installed by [DownloadBlob]. *)
Definition classify (response : Response) (retries : Z) : Outcome :=
  if bool_decide (getError response = OperationCancelled) then OutCancelled
  else if bool_decide (getError response = HTTPError) &&
          ((getHTTPCode response <? 500)%Z || (retries <=? 0)%Z)
  then OutFailure (msg_download_failed_fmt (String.string_of_list_byte (readAll response)))
  else if bool_decide (getError response ≠ NoError) then
    if (retries <=? 0)%Z
    then OutFailure (msg_download_failed_fmt (getErrorString response))
    else OutRetry
  else OutSuccess.

Definition RemoveRequest (response : option nat) (s : Session) : Session :=
  notify_one
    (set_mRequestsInProgress (mRequestsInProgress s - 1)
       (set_mResponses (filter (fun r => Some r ≠ response) (mResponses s)) s)).

(** The first eight bytes as a little-endian [uint64_t]. *)
Definition le_u64 (data : list byte) : Z :=
  foldr (fun b acc => (Z.of_N (Byte.to_N b) + 256 * acc)%Z) 0%Z (take 8 data).

(** The two framing checks of [OnProjectBlobDownloaded]; the sum is a
    [uint64_t] sum.  When both pass and the sum did not wrap, the
    dictionary and the document that the two [Bind] calls take from the
    buffer.  When the sum wraps (a length field of 2^64 - 8 or more) the
    checks still pass, but the source then binds a wrapped pointer and
    size, bytes that this function does not give: what is said below about
    the bound bytes assumes [8 + dictSize < 2 ^ 64]. *)
Definition split_project_blob (data : list byte)
    : option (list byte * list byte) :=
  if (Z.of_nat (length data) <? 8)%Z then None
  else
    let dictSize := le_u64 data in
    if (Z.of_nat (length data) <? (8 + dictSize) mod 2 ^ 64)%Z then None
    else Some (take (Z.to_nat dictSize) (drop 8 data),
               drop (8 + Z.to_nat dictSize) data).

(** Modelled from the spec: the statements and the transaction belong to
    the SQLite wrapper (absent).  What the local store answers to the
    statements of one handler: all succeed, or the first failure is the
    statement on [block_hashes], another statement, or the commit. *)
Inductive DbResult := DbOk | DbHashesFailed | DbStatementFailed | DbCommitFailed.

Record HandlerEnv := {
  decoded : option DecodedBlock;      (* DecompressBlock (payload) *)
  db_result : DbResult
}.

Definition with_pc (c : Chain) (pc : PC) : Chain :=
  {| chain_url := chain_url c; chain_handler := chain_handler c;
     chain_response := chain_response c; chain_pc := pc |}.

Definition goto (i : nat) (c : Chain) (pc : PC) (s : Session) : Session :=
  set_chains (<[i := with_pc c pc]> (chains s)) s.

(** [OnProjectBlobDownloaded] up to the end of the write lock.  A failed
    statement leaves the transaction uncommitted. *)
Definition OnProjectBlobDownloaded_commit (i : nat) (c : Chain)
    (data : list byte) (env : HandlerEnv) (s : Session) : Session :=
  match split_project_blob data with
  | None => goto i c (Failing msg_download_failed true) s
  | Some (dict, doc) =>
      match db_result env with
      | DbOk =>
          let snap := snapshot_db s in
          goto i c Storing
            (set_snapshot_db
               {| project := Some (dict, doc); autosave := None;
                  has_sampleblocks := has_sampleblocks snap;
                  sampleblocks := sampleblocks snap |} s)
      | _ => goto i c (Failing msg_update_failed true) s
      end
  end.

(** [OnBlockDownloaded] up to the end of the write lock. *)
Definition OnBlockDownloaded_commit (i : nat) (c : Chain) (blockHash : string)
    (env : HandlerEnv) (s : Session) : Session :=
  match decoded env with
  | None => goto i c (Failing msg_decompress_failed true) s
  | Some blockData =>
      match db_result env with
      | DbHashesFailed => goto i c (Failing msg_hashes_failed true) s
      | DbStatementFailed => goto i c (Failing msg_block_failed true) s
      | DbCommitFailed => goto i c (Failing msg_update_failed true) s
      | DbOk =>
          let snap := snapshot_db s in
          goto i c Storing
            (set_snapshot_db
               {| project := project snap; autosave := autosave snap;
                  has_sampleblocks := has_sampleblocks snap;
                  sampleblocks := <[BlockId blockData := blockData]> (sampleblocks snap) |}
               (set_cloud
                  {| projects := projects (cloud s);
                     block_hashes :=
                       <[(ProjectInfo_Id (mProjectInfo s), BlockId blockData) := blockHash]>
                         (block_hashes (cloud s)) |} s))
      end
  end.

(** ** The threads, one step at a time *)

Definition WantsNextRequest (s : Session) : bool :=
  negb (mCancelled s) && negb (mFailed s).

Definition MAX_CONCURRENT_REQUESTS : Z := 6.

Definition new_chain (request : Request) : Chain :=
  {| chain_url := request.1; chain_handler := request.2;
     chain_response := None; chain_pc := Queued 3 |}.

(** One turn of the loop of [RequestsThread], up to the end of its
    critical section: [None] while the thread sleeps in [mRequestsCV.wait],
    whose predicate is checked again on every wake-up.  The test of
    [WantsNextRequest] and the dispatch that follows it are one step: a
    store to [mCancelled] or [mFailed] that falls between the two is taken
    as following the turn, and nothing below says that a turn which has
    passed its test does not dispatch. *)
Definition RequestsThread_step (s : Session) : option Session :=
  match mRequestsThread s with
  | Running =>
      if negb (WantsNextRequest s) then Some (set_mRequestsThread Exited s)
      else if (MAX_CONCURRENT_REQUESTS <=? mRequestsInProgress s)%Z then None
      else
        match mRequests s !! mNextRequestIndex s with
        | None => Some (set_mRequestsThread Exited s)
        | Some request =>
            Some (set_chains (chains s ++ [new_chain request])
                    (set_mRequestsInProgress (mRequestsInProgress s + 1)
                       (set_mNextRequestIndex (S (mNextRequestIndex s)) s)))
        end
  | _ => None
  end.

(** What a turn does past its test of [WantsNextRequest] when a request
    is left: the lines from 557 to 561.  It reads neither flag, so that a
    store to a flag between the test and these lines leaves the session
    that the store after the turn leaves ([Cancel_inside_turn],
    [OnFailure_inside_turn]). *)
Definition dispatch (request : Request) (s : Session) : Session :=
  set_chains (chains s ++ [new_chain request])
    (set_mRequestsInProgress (mRequestsInProgress s + 1)
       (set_mNextRequestIndex (S (mNextRequestIndex s)) s)).

(** The two accesses of [DownloadBlob], one by one.  [doGet] hands the
    request to the transport; [mResponses.push_back], which takes no lock,
    registers the response, and the finished callback is set after it. *)
Definition doGet (i : nat) (c : Chain) (s : Session) : Session :=
  set_issued (issued s ++ [(i, chain_url c)]) s.

Definition push_back (i : nat) (c : Chain) (response : nat) (retries : Z)
    (s : Session) : Session :=
  set_chains
    (<[i := {| chain_url := chain_url c; chain_handler := chain_handler c;
               chain_response := Some response;
               chain_pc := Fetching retries |}]> (chains s))
    (set_mResponses (mResponses s ++ [response]) s).

(** The body of [DownloadBlob]: [doGet] and [mResponses.push_back], taken
    as one step.  Of the accesses of the other threads, [RemoveRequest]
    erases a response of its own, and only the loop of [DoCancel] depends
    on whether the new response is registered; a call of [Cancel] that
    falls between the two leaves the session that a call before
    [DownloadBlob] leaves ([Cancel_inside_DownloadBlob]), so the steps
    below have it as [LCancel] followed by [LIssue]. *)
Definition DownloadBlob (i : nat) (c : Chain) (retries : Z) (s : Session) : Session :=
  let response := length (issued s) in
  set_chains
    (<[i := {| chain_url := chain_url c; chain_handler := chain_handler c;
               chain_response := Some response;
               chain_pc := Fetching retries |}]> (chains s))
    (set_mResponses (mResponses s ++ [response])
       (set_issued (issued s ++ [(i, chain_url c)]) s)).

(** The finished callback, up to its first access to the session. *)
Definition finished (i : nat) (c : Chain) (retries : Z) (response : Response)
    (s : Session) : Session :=
  match classify response retries with
  | OutCancelled => goto i c Removing s
  | OutFailure msg => goto i c (Failing msg false) s
  | OutRetry => goto i c (Queued (retries - 1)) s
  | OutSuccess => goto i c (Handling (readAll response)) s
  end.

Definition progress_report (pd : bool) (bd : Z) (s : Session)
    : RemoteProjectSnapshotState :=
  let completed := bool_decide (bd = mMissingBlocks s) && pd in
  {| downloadedBlocks := bd; missingBlocks := mMissingBlocks s; error := "";
     projectBlobDownloaded := pd; completed := completed;
     success := completed; cancelled := false |}.

Definition failure_report (err : string) (bd : Z) (pd : bool) (s : Session)
    : RemoteProjectSnapshotState :=
  {| downloadedBlocks := bd; missingBlocks := mMissingBlocks s; error := err;
     projectBlobDownloaded := pd; completed := true;
     success := false; cancelled := false |}.

(** The next access of the callback of request [i] that needs nothing
    from outside the session.  The accesses are interleaved one by one
    and a load reads the value stored last; nothing below rests on what a
    load of [ReportProgress] must have seen of the stores of another
    callback. *)
Definition run_chain (i : nat) (c : Chain) (s : Session) : option Session :=
  match chain_pc c with
  | Storing =>
      match chain_handler c with
      | ProjectBlob => Some (goto i c RPCheck (set_mProjectDownloaded true s))
      | Block _ =>
          Some (goto i c RPCheck (set_mDownloadedBlocks (mDownloadedBlocks s + 1) s))
      end
  | RPCheck =>
      if mCancelled s then Some (goto i c Removing s)
      else Some (goto i c RPLoadProject s)
  | RPLoadProject => Some (goto i c (RPLoadBlocks (mProjectDownloaded s)) s)
  | RPLoadBlocks pd =>
      let bd := mDownloadedBlocks s in
      if bool_decide (bd = mMissingBlocks s) && pd
      then Some (goto i c (RPMark pd bd) s)
      else Some (goto i c (RPCallback pd bd) s)
  | RPCallback pd bd =>
      Some (goto i c Removing (mCallback (progress_report pd bd s) s))
  | Failing err again =>
      Some (goto i c (FailRemove err again) (set_mFailed true s))
  | FailRemove err again =>
      Some (goto i c (FailLoadBlocks err again) (RemoveRequest (chain_response c) s))
  | FailLoadBlocks err again =>
      Some (goto i c (FailLoadProject err again (mDownloadedBlocks s)) s)
  | FailLoadProject err again bd =>
      Some (goto i c (FailCallback err again bd (mProjectDownloaded s)) s)
  | FailCallback err again bd pd =>
      Some (goto i c (if again then Removing2 else Finished)
              (mCallback (failure_report err bd pd s) s))
  | Removing | Removing2 =>
      Some (goto i c Finished (RemoveRequest (chain_response c) s))
  | Queued _ | Fetching _ | Handling _ | RPMark _ _ | Finished => None
  end.

Inductive Label :=
| LSched                                  (* RequestsThread *)
| LIssue (i : nat)                        (* DownloadBlob *)
| LFinished (i : nat) (response : Response)   (* the transport reports the outcome *)
| LHandle (i : nat) (env : HandlerEnv)    (* the success handler, to the end of its write lock *)
| LMark (i : nat) (now : Z)               (* MarkProjectInDB (true) in ReportProgress *)
| LRun (i : nat)                          (* any other access of the callback *)
| LCancel.                                (* the owner calls Cancel () *)

Definition step (l : Label) (s : Session) : option Session :=
  match l with
  | LSched => RequestsThread_step s
  | LIssue i =>
      c ← chains s !! i;
      match chain_pc c with
      | Queued retries => Some (DownloadBlob i c retries s)
      | _ => None
      end
  | LFinished i response =>
      c ← chains s !! i;
      match chain_pc c with
      | Fetching retries => Some (finished i c retries response s)
      | _ => None
      end
  | LHandle i env =>
      c ← chains s !! i;
      match chain_pc c with
      | Handling data =>
          match chain_handler c with
          | ProjectBlob => Some (OnProjectBlobDownloaded_commit i c data env s)
          | Block blockHash => Some (OnBlockDownloaded_commit i c blockHash env s)
          end
      | _ => None
      end
  | LMark i now =>
      c ← chains s !! i;
      match chain_pc c with
      | RPMark pd bd =>
          Some (goto i c (RPCallback pd bd)
                  (set_cloud (MarkProjectInDB (mProjectInfo s) (mSnapshotInfo s)
                                (mPath s) now true (cloud s)) s))
      | _ => None
      end
  | LRun i => c ← chains s !! i; run_chain i c s
  | LCancel => if mAttached s then Some (Cancel s) else None
  end.

Fixpoint run (ls : list Label) (s : Session) : option Session :=
  match ls with
  | [] => Some s
  | l :: ls' => s' ← step l s; run ls' s'
  end.

(** The sessions [Sync] can hand out, and the states they reach.  The
    size of the block vector is a [size_t]. *)
Definition initial (s : Session) : Prop :=
  ∃ cloud0 snap pinfo sinfo path now,
    (Z.of_nat (length (Blocks sinfo)) < 2 ^ 64)%Z ∧
    s = construct cloud0 (Some snap) pinfo sinfo path now.

Definition reachable (s : Session) : Prop :=
  ∃ s0 ls, initial s0 ∧ run ls s0 = Some s.

(** ** Concrete sessions *)

Module Demo.

Definition pinfo : ProjectInfo := {| ProjectInfo_Id := "proj" |}.

Definition block1 : DecodedBlock :=
  {| BlockId := 1; Format := 0; BlockMin := 0; BlockMax := 0; BlockRMS := 0;
     Summary256 := []; Summary64k := []; Data := [] |}.

(** Three blocks; the first is already in the project file. *)
Definition sinfo : SnapshotInfo :=
  {| SnapshotInfo_Id := "snap1"; FileUrl := "https://host/blob";
     Blocks := [ {| Hash := "aa"; Url := "https://host/aa" |};
                 {| Hash := "bb"; Url := "https://host/bb" |};
                 {| Hash := "cc"; Url := "https://host/cc" |} ] |}.

Definition cloud0 : CloudDb :=
  {| projects := ∅; block_hashes := {[ ("proj", 1%Z) := "AA" ]} |}.

Definition snap : SnapshotDb :=
  {| project := None; autosave := None; has_sampleblocks := true;
     sampleblocks := {[ 1%Z := block1 ]} |}.

Definition session : Session := construct cloud0 (Some snap) pinfo sinfo "p.aup3" 0.

(** The same block listed twice, once in lower case; it is known. *)
Definition sinfo_twice : SnapshotInfo :=
  {| SnapshotInfo_Id := "snap1"; FileUrl := "https://host/blob";
     Blocks := [ {| Hash := "aa"; Url := "https://host/aa" |};
                 {| Hash := "AA"; Url := "https://host/aa" |} ] |}.

Definition cloud_synced : CloudDb :=
  {| projects := {[ "proj" := {| ProjectId := "proj"; SnapshotId := "snap1";
                                 SyncStatus := SyncStatusSynced; LastRead := 0;
                                 LocalPath := "p.aup3" |} ]};
     block_hashes := {[ ("proj", 1%Z) := "AA" ]} |}.

Definition session_twice : Session :=
  construct cloud_synced (Some snap) pinfo sinfo_twice "p.aup3" 0.

(** One known block and nothing else to fetch but the project blob. *)
Definition sinfo_one : SnapshotInfo :=
  {| SnapshotInfo_Id := "snap1"; FileUrl := "https://host/blob";
     Blocks := [ {| Hash := "aa"; Url := "https://host/aa" |} ] |}.

Definition session_synced : Session :=
  construct cloud_synced (Some snap) pinfo sinfo_one "p.aup3" 0.

Definition http (code : Z) : Response :=
  {| getError := HTTPError; getHTTPCode := code; readAll := [];
     getErrorString := "" |}.

Definition ok (payload : list byte) : Response :=
  {| getError := NoError; getHTTPCode := 200; readAll := payload;
     getErrorString := "" |}.

Definition env_ok : HandlerEnv := {| decoded := Some block1; db_result := DbOk |}.

End Demo.

(** The test of the [continue] in the constructor's loop. *)
Definition is_known (knownBlocks : gset string) (block : BlockDescriptor) : Prop :=
  ToUpper (Hash block) ∈ knownBlocks.

#[global] Instance is_known_dec knownBlocks block : Decision (is_known knownBlocks block).
Proof. unfold is_known. apply _. Defined.

Local Open Scope Z_scope.

(** ** The transitions, case by case *)

Definition set_response (c : Chain) (response : nat) (pc : PC) : Chain :=
  {| chain_url := chain_url c; chain_handler := chain_handler c;
     chain_response := Some response; chain_pc := pc |}.

(** Every way [step] can succeed.  The invariants below are proved by
    cases on this relation. *)
Inductive Step : Label → Session → Session → Prop :=
| Step_sched_exit s :
    mRequestsThread s = Running →
    WantsNextRequest s = false ∨
      (mRequestsInProgress s < MAX_CONCURRENT_REQUESTS ∧
       (length (mRequests s) ≤ mNextRequestIndex s)%nat) →
    Step LSched s (set_mRequestsThread Exited s)
| Step_sched_dispatch s request :
    mRequestsThread s = Running →
    WantsNextRequest s = true →
    mRequestsInProgress s < MAX_CONCURRENT_REQUESTS →
    mRequests s !! mNextRequestIndex s = Some request →
    Step LSched s
      (set_chains (chains s ++ [new_chain request])
         (set_mRequestsInProgress (mRequestsInProgress s + 1)
            (set_mNextRequestIndex (S (mNextRequestIndex s)) s)))
| Step_issue s i c retries :
    chains s !! i = Some c → chain_pc c = Queued retries →
    Step (LIssue i) s
      (set_chains (<[i := set_response c (length (issued s)) (Fetching retries)]> (chains s))
         (set_mResponses (mResponses s ++ [length (issued s)])
            (set_issued (issued s ++ [(i, chain_url c)]) s)))
| Step_finished_cancelled s i c retries response :
    chains s !! i = Some c → chain_pc c = Fetching retries →
    classify response retries = OutCancelled →
    Step (LFinished i response) s (goto i c Removing s)
| Step_finished_failure s i c retries response msg :
    chains s !! i = Some c → chain_pc c = Fetching retries →
    classify response retries = OutFailure msg →
    Step (LFinished i response) s (goto i c (Failing msg false) s)
| Step_finished_retry s i c retries response :
    chains s !! i = Some c → chain_pc c = Fetching retries →
    classify response retries = OutRetry →
    Step (LFinished i response) s (goto i c (Queued (retries - 1)) s)
| Step_finished_success s i c retries response :
    chains s !! i = Some c → chain_pc c = Fetching retries →
    classify response retries = OutSuccess →
    Step (LFinished i response) s (goto i c (Handling (readAll response)) s)
| Step_handle_failure s i c data env msg :
    chains s !! i = Some c → chain_pc c = Handling data →
    Step (LHandle i env) s (goto i c (Failing msg true) s)
| Step_handle_commit s i c data env cloud' snap' :
    chains s !! i = Some c → chain_pc c = Handling data →
    Step (LHandle i env) s
      (goto i c Storing (set_snapshot_db snap' (set_cloud cloud' s)))
| Step_mark s i c pd bd now :
    chains s !! i = Some c → chain_pc c = RPMark pd bd →
    Step (LMark i now) s
      (goto i c (RPCallback pd bd)
         (set_cloud (MarkProjectInDB (mProjectInfo s) (mSnapshotInfo s)
                       (mPath s) now true (cloud s)) s))
| Step_store_project s i c :
    chains s !! i = Some c → chain_pc c = Storing →
    chain_handler c = ProjectBlob →
    Step (LRun i) s (goto i c RPCheck (set_mProjectDownloaded true s))
| Step_store_block s i c hash :
    chains s !! i = Some c → chain_pc c = Storing →
    chain_handler c = Block hash →
    Step (LRun i) s
      (goto i c RPCheck (set_mDownloadedBlocks (mDownloadedBlocks s + 1) s))
| Step_report_cancelled s i c :
    chains s !! i = Some c → chain_pc c = RPCheck → mCancelled s = true →
    Step (LRun i) s (goto i c Removing s)
| Step_report_check s i c :
    chains s !! i = Some c → chain_pc c = RPCheck → mCancelled s = false →
    Step (LRun i) s (goto i c RPLoadProject s)
| Step_report_load_project s i c :
    chains s !! i = Some c → chain_pc c = RPLoadProject →
    Step (LRun i) s (goto i c (RPLoadBlocks (mProjectDownloaded s)) s)
| Step_report_load_blocks s i c pd :
    chains s !! i = Some c → chain_pc c = RPLoadBlocks pd →
    Step (LRun i) s
      (goto i c (if bool_decide (mDownloadedBlocks s = mMissingBlocks s) && pd
                 then RPMark pd (mDownloadedBlocks s)
                 else RPCallback pd (mDownloadedBlocks s)) s)
| Step_report_callback s i c pd bd :
    chains s !! i = Some c → chain_pc c = RPCallback pd bd →
    Step (LRun i) s (goto i c Removing (mCallback (progress_report pd bd s) s))
| Step_fail_store s i c err again :
    chains s !! i = Some c → chain_pc c = Failing err again →
    Step (LRun i) s (goto i c (FailRemove err again) (set_mFailed true s))
| Step_fail_remove s i c err again :
    chains s !! i = Some c → chain_pc c = FailRemove err again →
    Step (LRun i) s
      (goto i c (FailLoadBlocks err again) (RemoveRequest (chain_response c) s))
| Step_fail_load_blocks s i c err again :
    chains s !! i = Some c → chain_pc c = FailLoadBlocks err again →
    Step (LRun i) s (goto i c (FailLoadProject err again (mDownloadedBlocks s)) s)
| Step_fail_load_project s i c err again bd :
    chains s !! i = Some c → chain_pc c = FailLoadProject err again bd →
    Step (LRun i) s (goto i c (FailCallback err again bd (mProjectDownloaded s)) s)
| Step_fail_callback s i c err again bd pd :
    chains s !! i = Some c → chain_pc c = FailCallback err again bd pd →
    Step (LRun i) s
      (goto i c (if again then Removing2 else Finished)
         (mCallback (failure_report err bd pd s) s))
| Step_remove s i c :
    chains s !! i = Some c → chain_pc c = Removing →
    Step (LRun i) s (goto i c Finished (RemoveRequest (chain_response c) s))
| Step_remove_again s i c :
    chains s !! i = Some c → chain_pc c = Removing2 →
    Step (LRun i) s (goto i c Finished (RemoveRequest (chain_response c) s))
| Step_cancel s :
    mAttached s = true →
    Step LCancel s (Cancel s).

(** ** Sums over the requests *)

Definition total {A} (f : A → Z) (l : list A) : Z :=
  foldr (fun x acc => f x + acc) 0 l.

(** What a request can still contribute: a block request one increment of
    [mDownloadedBlocks], the blob request the store to [mProjectDownloaded],
    as long as its callback has not passed that point or left the path to
    it. *)
Definition pre_store (pc : PC) : bool :=
  match pc with
  | Queued _ | Fetching _ | Handling _ | Storing => true
  | _ => false
  end.

Definition wants_block (h : SuccessHandler) : Z :=
  match h with Block _ => 1 | ProjectBlob => 0 end.

Definition wants_blob (h : SuccessHandler) : Z :=
  match h with ProjectBlob => 1 | Block _ => 0 end.

Definition chain_blocks (c : Chain) : Z :=
  if pre_store (chain_pc c) then wants_block (chain_handler c) else 0.

Definition chain_blob (c : Chain) : Z :=
  if pre_store (chain_pc c) then wants_blob (chain_handler c) else 0.

Definition request_blocks (r : Request) : Z := wants_block r.2.
Definition request_blob (r : Request) : Z := wants_blob r.2.

Definition undispatched (s : Session) : list Request :=
  drop (mNextRequestIndex s) (mRequests s).

(** Upper bounds on the final values of the two progress members. *)
Definition blocks_reachable (s : Session) : Z :=
  mDownloadedBlocks s + total chain_blocks (chains s) +
  total request_blocks (undispatched s).

Definition blob_reachable (s : Session) : Z :=
  Z.b2z (mProjectDownloaded s) + total chain_blob (chains s) +
  total request_blob (undispatched s).

Definition failing (c : Chain) : Z :=
  match chain_pc c with Failing _ _ => 1 | _ => 0 end.

(** The locals of [ReportProgress] never run ahead of the members. *)
Definition locals_ok (s : Session) (c : Chain) : Prop :=
  match chain_pc c with
  | RPLoadBlocks pd => pd = true → mProjectDownloaded s = true
  | RPMark pd bd | RPCallback pd bd =>
      (pd = true → mProjectDownloaded s = true) ∧ bd ≤ mDownloadedBlocks s
  | _ => True
  end.

Record progress_inv (s : Session) : Prop := {
  pi_blocks : blocks_reachable s ≤ total request_blocks (mRequests s);
  pi_blob : blob_reachable s ≤ total request_blob (mRequests s);
  pi_failed :
    0 < Z.b2z (mFailed s) + total failing (chains s) →
    blocks_reachable s + blob_reachable s <
      total request_blocks (mRequests s) + total request_blob (mRequests s);
  pi_locals : Forall (locals_ok s) (chains s);
  pi_downloaded : 0 ≤ mDownloadedBlocks s
}.

(** What the constructor fixes is never written again. *)
Record same_config (s s' : Session) : Prop := {
  sc_requests : mRequests s' = mRequests s;
  sc_missing : mMissingBlocks s' = mMissingBlocks s;
  sc_attached : mAttached s' = mAttached s;
  sc_project : mProjectInfo s' = mProjectInfo s;
  sc_snapshot : mSnapshotInfo s' = mSnapshotInfo s;
  sc_path : mPath s' = mPath s
}.

Record config_inv (s : Session) : Prop := {
  ci_blocks : total request_blocks (mRequests s) ≤ mMissingBlocks s;
  ci_blob : total request_blob (mRequests s) ≤ 1;
  ci_attached : mAttached s = true
}.

(** ** The ceiling on requests in progress *)

(** A dispatched request occupies its slot until its first
    [RemoveRequest]. *)
Definition in_flight (c : Chain) : Z :=
  match chain_pc c with
  | FailLoadBlocks _ _ | FailLoadProject _ _ _ | FailCallback _ _ _ _
  | Removing2 | Finished => 0
  | _ => 1
  end.

(** The response is with the transport. *)
Definition live (c : Chain) : Z :=
  match chain_pc c with Fetching _ => 1 | _ => 0 end.

Definition after_failure (c : Chain) : Z :=
  match chain_pc c with
  | FailRemove _ _ | FailLoadBlocks _ _ | FailLoadProject _ _ _
  | FailCallback _ _ _ _ | Removing2 => 1
  | _ => 0
  end.

Record slots_inv (s : Session) : Prop := {
  si_exact :
    Z.b2z (mFailed s) = 0 →
    mRequestsInProgress s = total in_flight (chains s) ∧
    total after_failure (chains s) = 0;
  si_le : mRequestsInProgress s ≤ total in_flight (chains s);
  si_ceiling : total in_flight (chains s) ≤ MAX_CONCURRENT_REQUESTS
}.

(** ** The retry budget *)

(** The [doGet] calls made for request [i]. *)
Definition fetches (i : nat) (l : list (nat * string)) : Z :=
  total (fun e => if decide (e.1 = i) then 1 else 0) l.

(** The [doGet] calls request [i] can still make. *)
Definition budget (pc : PC) : Z :=
  match pc with
  | Queued retries => retries + 1
  | Fetching retries => retries
  | _ => 0
  end.

Definition retries_ok (pc : PC) : Prop :=
  match pc with
  | Queued retries | Fetching retries => 0 ≤ retries
  | _ => True
  end.

Definition fetch_inv (s : Session) : Prop :=
  ∀ i, match chains s !! i with
       | Some c => retries_ok (chain_pc c) ∧
                   fetches i (issued s) + budget (chain_pc c) ≤ 4
       | None => fetches i (issued s) = 0
       end.

(** ** The request cursor and the tracked responses *)

Record cursor_inv (s : Session) : Prop := {
  cu_chains : length (chains s) = mNextRequestIndex s;
  cu_requests : (mNextRequestIndex s ≤ length (mRequests s))%nat
}.

(** The response a callback works on was obtained for its own request, and
    while the transport has it, it is in [mResponses]. *)
Definition tracked (s : Session) (i : nat) (c : Chain) : Prop :=
  match chain_response c with
  | Some response =>
      (∃ url, issued s !! response = Some (i, url)) ∧
      (live c = 1 → response ∈ mResponses s)
  | None => live c = 0
  end.

Definition responses_inv (s : Session) : Prop :=
  ∀ i c, chains s !! i = Some c → tracked s i c.

(** ** The reports *)

Definition cancel_report (s : Session) : RemoteProjectSnapshotState :=
  {| downloadedBlocks := mDownloadedBlocks s; missingBlocks := mMissingBlocks s;
     error := ""; projectBlobDownloaded := mProjectDownloaded s;
     completed := true; success := false; cancelled := true |}.

(** What one step passes to [mCallback]. *)
Definition emitted (l : Label) (s : Session) : list RemoteProjectSnapshotState :=
  match l with
  | LRun i =>
      match chains s !! i with
      | Some c =>
          match chain_pc c with
          | RPCallback pd bd => [progress_report pd bd s]
          | FailCallback err again bd pd => [failure_report err bd pd s]
          | _ => []
          end
      | None => []
      end
  | LCancel => [cancel_report s]
  | _ => []
  end.

Fixpoint emitted_run (ls : list Label) (s : Session)
    : list RemoteProjectSnapshotState :=
  match ls with
  | [] => []
  | l :: ls' =>
      match step l s with
      | Some s' => emitted l s ++ emitted_run ls' s'
      | None => []
      end
  end.

(** A report with [success] comes from [ReportProgress] (or from the
    short cut of the constructor); the other two kinds are marked
    [completed] without [success]. *)
Definition report_ok (r : RemoteProjectSnapshotState) : Prop :=
  (success r = true →
     completed r = true ∧ error r = "" ∧ cancelled r = false ∧
     projectBlobDownloaded r = true ∧ downloadedBlocks r = missingBlocks r) ∧
  (cancelled r = true → completed r = true ∧ success r = false ∧ error r = "") ∧
  (error r ≠ "" → completed r = true ∧ success r = false ∧ cancelled r = false).

(** ** Reports after a failure or a cancellation *)

(** Inside [ReportProgress], past the load of [mCancelled]. *)
Definition reporting (c : Chain) : Z :=
  match chain_pc c with
  | RPLoadProject | RPLoadBlocks _ | RPMark _ _ | RPCallback _ _ => 1
  | _ => 0
  end.

(** No report with [success] can follow: a request has failed, or the
    session is cancelled and no call of [ReportProgress] is past its
    check. *)
Definition settled (s : Session) : Prop :=
  mFailed s = true ∨ (mCancelled s = true ∧ total reporting (chains s) = 0).

(** ** Predicates of the statements *)

Definition short_cut_report : RemoteProjectSnapshotState :=
  {| downloadedBlocks := 0; missingBlocks := 0; error := "";
     projectBlobDownloaded := true; completed := true; success := true;
     cancelled := false |}.

(** The known-block set holds the hash of every block of the snapshot. *)
Definition covers (knownBlocks : gset string) (sinfo : SnapshotInfo) : Prop :=
  Forall (is_known knownBlocks) (Blocks sinfo).

(** The callback of request [i] is past its last [doGet]. *)
Definition past_fetching (s : Session) (i : nat) : Prop :=
  ∃ c, chains s !! i = Some c ∧
       match chain_pc c with Queued _ | Fetching _ => False | _ => True end.

(** The project blob has been requested once and is with the transport. *)
Definition Demo_fetching : Session :=
  default Demo.session (run [LSched; LIssue 0] Demo.session).

(** The thread has dispatched the project blob and [DownloadBlob] has
    called [doGet] for it, but not yet [mResponses.push_back]. *)
Definition Demo_untracked : Session :=
  doGet 0 (new_chain ("https://host/blob", ProjectBlob))
    (default Demo.session (run [LSched] Demo.session)).

Definition Demo_blob_chain (pc : PC) : Chain :=
  {| chain_url := "https://host/blob"; chain_handler := ProjectBlob;
     chain_response := Some 0%nat; chain_pc := pc |}.

(** The project blob is answered with 404 and [OnFailure] has stored
    [mFailed]. *)
Definition Demo_failed : Session :=
  default Demo.session
    (run [LSched; LIssue 0; LFinished 0 (Demo.http 404); LRun 0] Demo.session).

Definition Demo_cancelled_twice : Session :=
  default Demo.session (run [LSched; LIssue 0; LCancel; LCancel] Demo.session).

Definition has_error (r : RemoteProjectSnapshotState) : Z :=
  if decide (error r = "") then 0 else 1.

Definition is_cancelled (r : RemoteProjectSnapshotState) : Z :=
  Z.b2z (cancelled r).

(** The callback of the request has returned from [OnFailure], or has
    ended. *)
Definition reported (c : Chain) : Z :=
  match chain_pc c with Removing2 | Finished => 1 | _ => 0 end.

Definition cancels (ls : list Label) : Z :=
  total (fun l => match l with LCancel => 1 | _ => 0 end) ls.

(** The framing is rejected: the payload cannot hold the length field, or
    the declared length, which fits the 64-bit sum, exceeds what follows. *)
Definition malformed (data : list byte) : Prop :=
  Z.of_nat (length data) < 8 ∨
  (8 + le_u64 data < 2 ^ 64 ∧ Z.of_nat (length data) - 8 < le_u64 data).

(** A payload announcing 16 bytes of dictionary and carrying 2. *)
Definition Demo_short_dict : list byte :=
  [x10; x00; x00; x00; x00; x00; x00; x00; x01; x02].

Definition Demo_handling : Session :=
  default Demo.session
    (run [LSched; LIssue 0; LFinished 0 (Demo.ok Demo_short_dict)] Demo.session).

(** The step is the [fetch_add] of [OnBlockDownloaded], which follows the
    commit of the block. *)
Definition counts_block (l : Label) (s : Session) : Prop :=
  ∃ i c hash, l = LRun i ∧ chains s !! i = Some c ∧
              chain_pc c = Storing ∧ chain_handler c = Block hash.

(** The first missing block has been committed and counted. *)
Definition Demo_one_block : Session :=
  default Demo.session
    (run [LSched; LIssue 0; LSched; LIssue 1; LFinished 1 (Demo.ok []);
          LHandle 1 Demo.env_ok; LRun 1] Demo.session).

(** Six requests are with the transport and more are pending. *)
Definition Demo_many_blocks : SnapshotInfo :=
  {| SnapshotInfo_Id := "snap2"; FileUrl := "https://host/blob";
     Blocks := [ {| Hash := "b1"; Url := "https://host/b1" |};
                 {| Hash := "b2"; Url := "https://host/b2" |};
                 {| Hash := "b3"; Url := "https://host/b3" |};
                 {| Hash := "b4"; Url := "https://host/b4" |};
                 {| Hash := "b5"; Url := "https://host/b5" |};
                 {| Hash := "b6"; Url := "https://host/b6" |};
                 {| Hash := "b7"; Url := "https://host/b7" |} ] |}.

Definition Demo_many : Session :=
  construct Demo.cloud0 (Some Demo.snap) Demo.pinfo Demo_many_blocks "p.aup3" 0.

Definition Demo_six_labels : list Label :=
  [LSched; LIssue 0; LSched; LIssue 1; LSched; LIssue 2;
   LSched; LIssue 3; LSched; LIssue 4; LSched; LIssue 5].

Definition Demo_full : Session := default Demo_many (run Demo_six_labels Demo_many).

(** Eight bytes announcing 2^64 - 1 bytes of dictionary. *)
Definition Demo_huge_prefix : list byte :=
  [xff; xff; xff; xff; xff; xff; xff; xff].

(** An empty dictionary and an empty document. *)
Definition Demo_empty_blob : list byte :=
  [x00; x00; x00; x00; x00; x00; x00; x00].

Definition Demo_block (id : Z) : HandlerEnv :=
  {| decoded := Some {| BlockId := id; Format := 0; BlockMin := 0;
                        BlockMax := 0; BlockRMS := 0; Summary256 := [];
                        Summary64k := []; Data := [] |};
     db_result := DbOk |}.

(** ** Further predicates *)

(** The record of the project names this snapshot. *)
Definition record_of (cloud0 : CloudDb) (pinfo : ProjectInfo) (sinfo : SnapshotInfo)
    (status : SyncStatusT) : Prop :=
  ∃ d, GetProjectData cloud0 (ProjectInfo_Id pinfo) = Some d ∧
       SnapshotId d = SnapshotInfo_Id sinfo ∧ SyncStatus d = status.

(** ** The record of the project *)

(** Every flag and counter says that the download is complete. *)
Definition complete (s : Session) : Prop :=
  mProjectDownloaded s = true ∧ mDownloadedBlocks s = mMissingBlocks s.

(** The locals of a [ReportProgress] call that has decided to mark the
    project, and the record once it has. *)
Definition marked (s : Session) (c : Chain) : Prop :=
  match chain_pc c with
  | RPMark pd bd => pd = true ∧ bd = mMissingBlocks s
  | RPCallback pd bd =>
      bool_decide (bd = mMissingBlocks s) && pd = true →
      record_of (cloud s) (mProjectInfo s) (mSnapshotInfo s) SyncStatusSynced
  | _ => True
  end.

(** The project blob is committed before [mProjectDownloaded] is stored. *)
Definition blob_stored (s : Session) (c : Chain) : Prop :=
  match chain_handler c, chain_pc c with
  | ProjectBlob, Storing => is_Some (project (snapshot_db s))
  | _, _ => True
  end.

Record record_inv (s : Session) : Prop := {
  ri_marked : Forall (marked s) (chains s);
  ri_stored : Forall (blob_stored s) (chains s);
  ri_project : mProjectDownloaded s = true → is_Some (project (snapshot_db s));
  ri_reports :
    ∀ r, r ∈ reports s → success r = true →
         record_of (cloud s) (mProjectInfo s) (mSnapshotInfo s) SyncStatusSynced;
  ri_record :
    mRequestsThread s ≠ NotStarted →
    ∃ d, GetProjectData (cloud s) (ProjectInfo_Id (mProjectInfo s)) = Some d ∧
         SnapshotId d = SnapshotInfo_Id (mSnapshotInfo s) ∧
         LocalPath d = mPath s ∧
         (SyncStatus d = SyncStatusSynced → complete s)
}.

(** Both blocks and the project blob are stored, one request after the
    other, and the thread has ended. *)
Definition Demo_complete_labels : list Label :=
  [LSched; LIssue 0; LFinished 0 (Demo.ok Demo_empty_blob);
   LHandle 0 Demo.env_ok; LRun 0; LRun 0; LRun 0; LRun 0; LRun 0; LRun 0;
   LSched; LIssue 1; LFinished 1 (Demo.ok []);
   LHandle 1 (Demo_block 2); LRun 1; LRun 1; LRun 1; LRun 1; LRun 1; LRun 1;
   LSched; LIssue 2; LFinished 2 (Demo.ok []);
   LHandle 2 (Demo_block 3); LRun 2; LRun 2; LRun 2; LRun 2;
   LMark 2 7; LRun 2; LRun 2; LSched].

Definition Demo_complete : Session :=
  default Demo.session (run Demo_complete_labels Demo.session).

(** ** Success and failure exclude each other *)

Record outcome_inv (s : Session) : Prop := {
  oi_success :
    ∀ r, r ∈ reports s → success r = true →
         mRequestsThread s = NotStarted ∨ complete s;
  oi_error : ∀ r, r ∈ reports s → error r ≠ "" → mFailed s = true;
  oi_idle : mRequestsThread s = NotStarted → mFailed s = false ∧ chains s = []
}.

(** ** The order of dispatch *)

(** The callbacks are those of the first requests of the list, in its
    order, and every [doGet] was made for the URL of its request. *)
Record dispatch_inv (s : Session) : Prop := {
  di_chains :
    ∀ i c, chains s !! i = Some c →
           mRequests s !! i = Some (chain_url c, chain_handler c);
  di_issued :
    ∀ i url, (i, url) ∈ issued s →
             ∃ c, chains s !! i = Some c ∧ chain_url c = url
}.

(** The project blob is with the transport and the first missing block
    is in its second attempt. *)
Definition Demo_retrying : Session :=
  default Demo.session
    (run [LSched; LIssue 0; LSched; LIssue 1; LFinished 1 (Demo.http 503);
          LIssue 1] Demo.session).

(** ** The outcome of one callback *)

(** The message [OnBlockDownloaded] passes to [OnFailure], by the first
    thing that fails. *)
Definition block_failure_message (env : HandlerEnv) : option string :=
  match decoded env, db_result env with
  | None, _ => Some msg_decompress_failed
  | Some _, DbHashesFailed => Some msg_hashes_failed
  | Some _, DbStatementFailed => Some msg_block_failed
  | Some _, DbCommitFailed => Some msg_update_failed
  | Some _, DbOk => None
  end.

(** The message [OnProjectBlobDownloaded] passes to [OnFailure]: the
    framing is rejected, or a statement or the commit fails. *)
Definition blob_failure_message (data : list byte) (env : HandlerEnv)
    : option string :=
  match split_project_blob data, db_result env with
  | None, _ => Some msg_download_failed
  | Some _, DbOk => None
  | Some _, _ => Some msg_update_failed
  end.

(** A block request whose payload has arrived. *)
Definition Demo_block_arrived : Session :=
  default Demo.session
    (run [LSched; LIssue 0; LSched; LIssue 1; LFinished 1 (Demo.ok [])]
       Demo.session).

(** The same, after [Cancel]. *)
Definition Demo_cancelled_block : Session :=
  default Demo.session
    (run [LSched; LIssue 0; LSched; LIssue 1; LFinished 1 (Demo.ok []); LCancel]
       Demo.session).

(** The project blob is stored and the last missing block has arrived. *)
Definition Demo_last_block : Session :=
  default Demo.session
    (run [LSched; LIssue 0; LFinished 0 (Demo.ok Demo_empty_blob);
          LHandle 0 Demo.env_ok; LRun 0; LRun 0; LRun 0; LRun 0; LRun 0; LRun 0;
          LSched; LIssue 1; LFinished 1 (Demo.ok []);
          LHandle 1 (Demo_block 2); LRun 1; LRun 1; LRun 1; LRun 1; LRun 1; LRun 1;
          LSched; LIssue 2; LFinished 2 (Demo.ok [])] Demo.session).

(** The project blob has arrived, framed as no dictionary and no
    document. *)
Definition Demo_blob_arrived : Session :=
  default Demo.session
    (run [LSched; LIssue 0; LFinished 0 (Demo.ok Demo_empty_blob)] Demo.session).

(** ** A session left alone *)

(** Nobody calls [Cancel], so that the transport reports no response as
    cancelled. *)
Definition undisturbed (l : Label) : Prop :=
  match l with
  | LCancel => False
  | LFinished _ response => getError response ≠ OperationCancelled
  | _ => True
  end.

(** Nothing is left to run: the thread and every callback have ended. *)
Definition quiescent (s : Session) : Prop :=
  ∀ l, l ≠ LCancel → step l s = None.

(** Inside [OnFailure], between the store to [mFailed] and the callback. *)
Definition pending_error (c : Chain) : Z :=
  match chain_pc c with
  | FailRemove _ _ | FailLoadBlocks _ _ | FailLoadProject _ _ _
  | FailCallback _ _ _ _ => 1
  | _ => 0
  end.

Definition err_ok (c : Chain) : Prop :=
  match chain_pc c with
  | Failing err _ | FailRemove err _ | FailLoadBlocks err _
  | FailLoadProject err _ _ | FailCallback err _ _ _ => err ≠ ""
  | _ => True
  end.

(** Every failure is reported. *)
Record failure_inv (s : Session) : Prop := {
  fi_errors : Forall err_ok (chains s);
  fi_reported :
    mFailed s = true →
    (∃ r, r ∈ reports s ∧ error r ≠ "") ∨ 0 < total pending_error (chains s)
}.

(** Without failure, cancellation or cancelled responses nothing is
    lost: every request still contributes its store. *)
Record alone_inv (s : Session) : Prop := {
  ai_cancelled : mCancelled s = false;
  ai_blocks :
    Z.b2z (mFailed s) + total failing (chains s) = 0 →
    blocks_reachable s = total request_blocks (mRequests s);
  ai_blob :
    Z.b2z (mFailed s) + total failing (chains s) = 0 →
    blob_reachable s = total request_blob (mRequests s)
}.

(** The thread has ended for a reason, and a session without thread has
    reported. *)
Record thread_inv (s : Session) : Prop := {
  ti_exited :
    mRequestsThread s = Exited →
    WantsNextRequest s = false ∨ (length (mRequests s) ≤ mNextRequestIndex s)%nat;
  ti_idle :
    mRequestsThread s = NotStarted → ∃ r, r ∈ reports s ∧ success r = true;
  ti_blob :
    mRequestsThread s ≠ NotStarted → total request_blob (mRequests s) = 1
}.

(** ** Termination *)

(** The accesses the callback of a request can still make: one [doGet]
    and one answer per attempt, the handler, the store, the six of
    [ReportProgress] and [RemoveRequest]; [OnFailure] is shorter. *)
Definition steps_left (c : Chain) : Z :=
  match chain_pc c with
  | Queued retries => 2 * Z.max 0 retries + 10
  | Fetching retries => 2 * Z.max 0 retries + 9
  | Handling _ => 8
  | Storing => 7
  | RPCheck => 6
  | RPLoadProject => 5
  | RPLoadBlocks _ => 4
  | RPMark _ _ => 3
  | RPCallback _ _ => 2
  | Failing _ _ => 6
  | FailRemove _ _ => 5
  | FailLoadBlocks _ _ => 4
  | FailLoadProject _ _ _ => 3
  | FailCallback _ _ _ _ => 2
  | Removing | Removing2 => 1
  | Finished => 0
  end.

(** A bound on the steps a session can still take, calls of [Cancel]
    apart: 17 for every request not yet dispatched, and one for the
    thread to end. *)
Definition work_left (s : Session) : Z :=
  total steps_left (chains s) +
  17 * (Z.of_nat (length (mRequests s)) - Z.of_nat (mNextRequestIndex s)) +
  match mRequestsThread s with Running => 1 | _ => 0 end.

(** ** Responses that a retry has replaced *)

(** The response is the one some callback works on. *)
Definition current (s : Session) (response : nat) : Prop :=
  ∃ i c, chains s !! i = Some c ∧ chain_response c = Some response.

(** [RemoveRequest] is only ever called with the response of the last
    attempt: the responses of the attempts before stay in [mResponses]. *)
Record kept_inv (s : Session) : Prop := {
  ki_kept :
    ∀ response, (response < length (issued s))%nat →
                ¬ current s response → response ∈ mResponses s;
  ki_queued :
    ∀ i c retries response,
      chains s !! i = Some c → chain_pc c = Queued retries →
      chain_response c = Some response → response ∈ mResponses s
}.

(** The project blob was answered with 503, fetched again, answered
    with 404, and [OnFailure] has run: the callback has ended. *)
Definition Demo_retried : Session :=
  default Demo.session
    (run [LSched; LIssue 0; LFinished 0 (Demo.http 503); LIssue 0;
          LFinished 0 (Demo.http 404); LRun 0; LRun 0; LRun 0; LRun 0; LRun 0]
       Demo.session).

(** * Proofs *)

(** ** Known blocks and the request list *)

Section KnownBlocks.

Lemma foldl_union_singleton {A} (f : A → string) (l : list A) (X : gset string) :
  foldl (fun acc x => acc ∪ {[ f x ]}) X l = X ∪ list_to_set (f <$> l).
Proof.
  revert X. induction l as [|a l IH]; intros X; simpl.
  - set_solver.
  - rewrite IH. set_solver.
Qed.

Lemma remoteBlocks_spec sinfo :
  remoteBlocks sinfo = list_to_set ((fun b => ToUpper (Hash b)) <$> Blocks sinfo).
Proof.
  unfold remoteBlocks. rewrite foldl_union_singleton. set_solver.
Qed.

(** The query only returns hashes that the scalar function accepts. *)
Lemma CalculateKnownBlocks_remote cloud0 snap pinfo sinfo h :
  h ∈ CalculateKnownBlocks cloud0 snap pinfo sinfo → h ∈ remoteBlocks sinfo.
Proof.
  unfold CalculateKnownBlocks. destruct (has_sampleblocks snap); [|set_solver].
  rewrite (foldl_union_singleton snd). rewrite elem_of_union.
  intros [Hin|Hin]; [set_solver|].
  apply elem_of_list_to_set, list_elem_of_fmap in Hin as (row & -> & Hrow).
  apply list_elem_of_filter in Hrow as [Hk _].
  destruct row as [[pid bid] hash]. simpl in *.
  apply andb_prop in Hk as [Hk _]. apply andb_prop in Hk as [_ Hk].
  by apply bool_decide_eq_true in Hk.
Qed.

Lemma build_requests_acc knownBlocks (blocks : list BlockDescriptor) (acc : list Request) :
  foldl (fun reqs block =>
           if bool_decide (ToUpper (Hash block) ∈ knownBlocks) then reqs
           else reqs ++ [block_request block]) acc blocks
  = acc ++ (block_request <$> filter (fun b => ¬ is_known knownBlocks b) blocks).
Proof.
  revert acc. induction blocks as [|b blocks IH]; intros acc; simpl.
  - by rewrite app_nil_r.
  - rewrite IH, filter_cons. unfold is_known at 2.
    destruct (decide (ToUpper (Hash b) ∈ knownBlocks)) as [Hin|Hin].
    + rewrite bool_decide_eq_true_2 by done.
      rewrite decide_False by (intros Hn; by apply Hn). done.
    + rewrite bool_decide_eq_false_2 by done.
      rewrite decide_True by done. by rewrite <- app_assoc.
Qed.

Lemma build_requests_spec knownBlocks sinfo :
  build_requests knownBlocks sinfo =
  (FileUrl sinfo, ProjectBlob) ::
    (block_request <$> filter (fun b => ¬ is_known knownBlocks b) (Blocks sinfo)).
Proof. unfold build_requests. by rewrite build_requests_acc. Qed.

Lemma filter_split_length {A} (P : A → Prop) `{∀ x, Decision (P x)} (l : list A) :
  (length (filter P l) + length (filter (fun x => ¬ P x) l))%nat = length l.
Proof.
  induction l as [|a l IH]; [done|].
  rewrite !filter_cons. destruct (decide (P a)).
  - rewrite decide_False by tauto. simpl. lia.
  - rewrite decide_True by tauto. simpl. lia.
Qed.

(** Every known hash is the hash of some entry of the list, so there are
    at least as many known entries as known hashes. *)
Lemma known_entries_ge (knownBlocks : gset string) (blocks : list BlockDescriptor) :
  knownBlocks ⊆ list_to_set ((fun b => ToUpper (Hash b)) <$> blocks) →
  elements knownBlocks ⊆+
    ((fun b => ToUpper (Hash b)) <$> filter (is_known knownBlocks) blocks).
Proof.
  intros Hsub. apply NoDup_submseteq; [apply NoDup_elements|].
  intros h Hh. apply elem_of_elements in Hh.
  pose proof (Hsub h Hh) as Hr.
  apply elem_of_list_to_set, list_elem_of_fmap in Hr as (b & -> & Hb).
  apply list_elem_of_fmap. exists b. split; [done|].
  apply list_elem_of_filter. by split.
Qed.

Lemma known_entries_length (knownBlocks : gset string) (blocks : list BlockDescriptor) :
  knownBlocks ⊆ list_to_set ((fun b => ToUpper (Hash b)) <$> blocks) →
  (size knownBlocks ≤ length (filter (is_known knownBlocks) blocks))%nat.
Proof.
  intros Hsub. apply known_entries_ge, submseteq_length in Hsub.
  by rewrite length_fmap in Hsub.
Qed.

(** Two entries with one known hash make the inequality strict. *)
Lemma known_entries_length_twice (knownBlocks : gset string)
    (blocks : list BlockDescriptor) (i j : nat) (a b : BlockDescriptor) :
  knownBlocks ⊆ list_to_set ((fun b => ToUpper (Hash b)) <$> blocks) →
  (i < j)%nat → blocks !! i = Some a → blocks !! j = Some b →
  ToUpper (Hash a) = ToUpper (Hash b) → ToUpper (Hash a) ∈ knownBlocks →
  (size knownBlocks < length (filter (is_known knownBlocks) blocks))%nat.
Proof.
  intros Hsub Hij Hi Hj Hab Hin.
  pose proof (known_entries_ge _ _ Hsub) as Hle.
  destruct (decide (size knownBlocks < length (filter (is_known knownBlocks) blocks))%nat)
    as [|Hge]; [done|exfalso].
  assert (Hperm : elements knownBlocks ≡ₚ
            (fun b => ToUpper (Hash b)) <$> filter (is_known knownBlocks) blocks).
  { apply submseteq_length_Permutation; [done|].
    rewrite length_fmap. unfold size, set_size in Hge. simpl in Hge. lia. }
  assert (Hnd : NoDup ((fun b => ToUpper (Hash b)) <$> filter (is_known knownBlocks) blocks)).
  { rewrite <- Hperm. apply NoDup_elements. }
  apply take_drop_middle in Hj as Hsplit.
  assert (Hi' : take j blocks !! i = Some a) by (by rewrite lookup_take_lt).
  apply take_drop_middle in Hi' as Hsplit'.
  rewrite <- Hsplit, <- Hsplit' in Hnd.
  rewrite !filter_app, !filter_cons in Hnd.
  rewrite (decide_True (P := is_known knownBlocks a)) in Hnd by done.
  rewrite (decide_True (P := is_known knownBlocks b)) in Hnd
    by (unfold is_known; by rewrite <- Hab).
  rewrite !fmap_app, !fmap_cons in Hnd.
  apply NoDup_app in Hnd as (_ & Hdisj & _).
  eapply (Hdisj (ToUpper (Hash a))).
  - apply elem_of_app. right. left.
  - rewrite Hab. left.
Qed.

End KnownBlocks.

(** ** [step] makes the transitions of [Step] *)

Lemma set_cloud_id s : set_cloud (cloud s) s = s.
Proof. by destruct s. Qed.

Lemma step_Step l s s' : step l s = Some s' → Step l s s'.
Proof.
  destruct l as [|i|i response|i env|i now|i|]; simpl; intros Hstep.
  - unfold RequestsThread_step in Hstep.
    destruct (mRequestsThread s) eqn:Hthread; try done.
    destruct (WantsNextRequest s) eqn:Hwants; simpl in Hstep.
    + destruct (Z.leb_spec MAX_CONCURRENT_REQUESTS (mRequestsInProgress s)); [done|].
      destruct (mRequests s !! mNextRequestIndex s) as [request|] eqn:Hreq;
        simplify_eq.
      * by apply Step_sched_dispatch.
      * apply Step_sched_exit; [done|]. right. split; [done|].
        by apply lookup_ge_None.
    + simplify_eq. apply Step_sched_exit; auto.
  - destruct (chains s !! i) as [c|] eqn:Hc; simpl in Hstep; [|done].
    destruct (chain_pc c) eqn:Hpc; simplify_eq.
    by eapply Step_issue.
  - destruct (chains s !! i) as [c|] eqn:Hc; simpl in Hstep; [|done].
    destruct (chain_pc c) eqn:Hpc; simplify_eq.
    unfold finished. destruct (classify response retries) eqn:Hcl.
    + by eapply Step_finished_cancelled.
    + by eapply Step_finished_failure.
    + by eapply Step_finished_retry.
    + by eapply Step_finished_success.
  - destruct (chains s !! i) as [c|] eqn:Hc; simpl in Hstep; [|done].
    destruct (chain_pc c) eqn:Hpc; try done.
    destruct (chain_handler c) eqn:Hh; simplify_eq.
    + unfold OnProjectBlobDownloaded_commit.
      destruct (split_project_blob data) as [[dict doc]|];
        [|by eapply Step_handle_failure].
      destruct (db_result env); try (by eapply Step_handle_failure).
      rewrite <- (set_cloud_id s) at 2. by eapply Step_handle_commit.
    + unfold OnBlockDownloaded_commit.
      destruct (decoded env); [|by eapply Step_handle_failure].
      destruct (db_result env); try (by eapply Step_handle_failure).
      by eapply Step_handle_commit.
  - destruct (chains s !! i) as [c|] eqn:Hc; simpl in Hstep; [|done].
    destruct (chain_pc c) eqn:Hpc; simplify_eq.
    by eapply Step_mark.
  - destruct (chains s !! i) as [c|] eqn:Hc; simpl in Hstep; [|done].
    unfold run_chain in Hstep.
    destruct (chain_pc c) eqn:Hpc; try done.
    + destruct (chain_handler c) eqn:Hh; simplify_eq.
      * by eapply Step_store_project.
      * by eapply Step_store_block.
    + destruct (mCancelled s) eqn:Hcan; simplify_eq.
      * by eapply Step_report_cancelled.
      * by eapply Step_report_check.
    + simplify_eq. by eapply Step_report_load_project.
    + pose proof (Step_report_load_blocks s i c pd Hc Hpc) as HS.
      destruct (bool_decide (mDownloadedBlocks s = mMissingBlocks s) && pd);
        by simplify_eq.
    + simplify_eq. by eapply Step_report_callback.
    + simplify_eq. by eapply Step_fail_store.
    + simplify_eq. by eapply Step_fail_remove.
    + simplify_eq. by eapply Step_fail_load_blocks.
    + simplify_eq. by eapply Step_fail_load_project.
    + simplify_eq. by eapply Step_fail_callback.
    + simplify_eq. by eapply Step_remove.
    + simplify_eq. by eapply Step_remove_again.
  - destruct (mAttached s) eqn:Hatt; simplify_eq. by apply Step_cancel.
Qed.

(** ** Runs *)

Lemma run_app ls1 ls2 s :
  run (ls1 ++ ls2) s = s' ← run ls1 s; run ls2 s'.
Proof.
  revert s. induction ls1 as [|l ls1 IH]; intros s; simpl; [done|].
  destruct (step l s); simpl; [apply IH|done].
Qed.

Lemma run_invariant (P : Session → Prop) :
  (∀ l s s', P s → Step l s s' → P s') →
  ∀ ls s s', P s → run ls s = Some s' → P s'.
Proof.
  intros Hstep ls. induction ls as [|l ls IH]; intros s s' HP Hrun; simpl in Hrun.
  - by simplify_eq.
  - destruct (step l s) as [s1|] eqn:Hs; simpl in Hrun; [|done].
    eapply IH; [|done]. eapply Hstep; [done|]. by apply step_Step.
Qed.

Lemma reachable_invariant (P : Session → Prop) :
  (∀ s, initial s → P s) →
  (∀ l s s', P s → Step l s s' → P s') →
  ∀ s, reachable s → P s.
Proof.
  intros Hinit Hstep s (s0 & ls & H0 & Hrun).
  eapply run_invariant; [done| |done]. by apply Hinit.
Qed.

Lemma reachable_run ls s s' : reachable s → run ls s = Some s' → reachable s'.
Proof.
  intros (s0 & ls0 & H0 & Hrun0) Hrun. exists s0, (ls0 ++ ls). split; [done|].
  rewrite run_app, Hrun0. done.
Qed.

(** ** Sums *)

Lemma total_app {A} (f : A → Z) l1 l2 :
  total f (l1 ++ l2) = total f l1 + total f l2.
Proof. induction l1 as [|x l1 IH]; simpl; [done|]. rewrite IH. lia. Qed.

Lemma total_insert {A} (f : A → Z) (l : list A) i x y :
  l !! i = Some x → total f (<[i := y]> l) = total f l - f x + f y.
Proof.
  revert i. induction l as [|a l IH]; intros [|i] Hi; simplify_eq/=; [lia|].
  rewrite (IH i) by done. lia.
Qed.

Lemma total_drop_lookup {A} (f : A → Z) (l : list A) i x :
  l !! i = Some x → total f (drop i l) = f x + total f (drop (S i) l).
Proof.
  revert i. induction l as [|a l IH]; intros [|i] Hi; simplify_eq/=; [done|].
  by apply IH.
Qed.

Lemma total_bounds {A} (f : A → Z) (l : list A) :
  (∀ x, 0 ≤ f x ≤ 1) → 0 ≤ total f l ≤ Z.of_nat (length l).
Proof.
  intros Hf. induction l as [|a l IH]; simpl; [lia|]. specialize (Hf a). lia.
Qed.

Lemma total_lookup_le {A} (f : A → Z) (l : list A) i x :
  (∀ y, 0 ≤ f y) → l !! i = Some x → 0 ≤ f x ≤ total f l.
Proof.
  intros Hf. revert i. induction l as [|a l IH]; intros [|i] Hi; simplify_eq/=.
  - assert (0 ≤ total f l); [|specialize (Hf x); lia].
    clear IH. induction l as [|b l IH]; simpl; [lia|]. specialize (Hf b). lia.
  - specialize (IH i Hi). specialize (Hf a). lia.
Qed.

Lemma total_fmap {A B} (g : A → B) (f : B → Z) (l : list A) :
  total f (g <$> l) = total (f ∘ g) l.
Proof. induction l as [|a l IH]; [done|]. unfold total in *. simpl. by f_equal. Qed.

Lemma total_const_1 {A} (f : A → Z) (l : list A) :
  (∀ x, f x = 1) → total f l = Z.of_nat (length l).
Proof. intros Hf. induction l as [|a l IH]; simpl; [done|]. rewrite Hf, IH. lia. Qed.

(** ** The progress invariant is kept by every transition *)

Lemma locals_ok_mono s s' c :
  (mProjectDownloaded s = true → mProjectDownloaded s' = true) →
  mDownloadedBlocks s ≤ mDownloadedBlocks s' →
  locals_ok s c → locals_ok s' c.
Proof.
  unfold locals_ok. intros Hpd Hbd. destruct (chain_pc c); try done.
  - auto.
  - intros [? ?]. split; [auto|lia].
  - intros [? ?]. split; [auto|lia].
Qed.

Lemma Forall_locals_mono s s' l :
  (mProjectDownloaded s = true → mProjectDownloaded s' = true) →
  mDownloadedBlocks s ≤ mDownloadedBlocks s' →
  Forall (locals_ok s) l → Forall (locals_ok s') l.
Proof. intros ?? HF. eapply Forall_impl; [exact HF|]. intros c. by apply locals_ok_mono. Qed.

Lemma failing_nonneg c : 0 ≤ failing c.
Proof. unfold failing. destruct (chain_pc c); lia. Qed.

Ltac hide_totals s :=
  set (TB := total chain_blocks (chains s)) in *;
  set (TP := total chain_blob (chains s)) in *;
  set (TF := total failing (chains s)) in *.

Ltac chain_arith s :=
  match goal with
  | Hc : chains s !! ?i = Some ?c, Hpc : chain_pc ?c = _ |- _ =>
      pose proof (total_lookup_le failing _ _ _ failing_nonneg Hc);
      rewrite ?(total_insert _ _ _ _ _ Hc);
      hide_totals s;
      unfold chain_blocks, chain_blob, failing, with_pc, set_response in *;
      simpl in *; rewrite ?Hpc in *; simpl in *;
      destruct (chain_handler c); simpl in *;
      destruct (mFailed s); destruct (mProjectDownloaded s); simpl in *;
      try lia
  end.

Ltac split_ifs :=
  try match goal with
      | |- context [bool_decide ?P && ?pd] => destruct (bool_decide P && pd) eqn:?
      end;
  try match goal with
      | |- context [if ?a then Removing2 else Finished] => destruct a
      end.

Ltac locals s :=
  match goal with
  | Hc : chains s !! ?i = Some ?c, Hpc : chain_pc ?c = _,
    Hl : Forall (locals_ok s) (chains s) |- Forall _ (<[_ := _]> _) =>
      let Hlc := fresh "Hlc" in
      pose proof (Forall_lookup_1 _ _ _ _ Hl Hc) as Hlc;
      unfold locals_ok in Hlc; rewrite Hpc in Hlc;
      apply Forall_insert;
      [ eapply Forall_locals_mono; [| |exact Hl]; simpl; [auto|lia]
      | unfold locals_ok; simpl; try done; try (split; [tauto|lia]); try tauto ]
  end.

Lemma progress_inv_step l s s' : progress_inv s → Step l s s' → progress_inv s'.
Proof.
  intros [Hb Hp Hf Hl Hd] HS.
  destruct HS; constructor;
    unfold blocks_reachable, blob_reachable, undispatched in *; simpl.
  all: try done.
  all: split_ifs.
  all: try (by chain_arith s).
  all: try (by locals s).
  all: try (rewrite !total_app; simpl;
            rewrite !(total_drop_lookup _ _ _ _ H2) in *;
            unfold chain_blocks, chain_blob, failing, request_blocks, request_blob,
              new_chain in *; simpl;
            destruct request as [u [|h]]; simpl in *; lia).
  apply Forall_app. split.
  - eapply Forall_locals_mono; [| |exact Hl]; simpl; [auto|lia].
  - by repeat constructor.
Qed.

Lemma Step_same_config l s s' : Step l s s' → same_config s s'.
Proof. destruct 1; by constructor. Qed.

Lemma run_same_config ls s s' : run ls s = Some s' → same_config s s'.
Proof.
  revert s. induction ls as [|l ls IH]; intros s Hrun; simpl in Hrun.
  - simplify_eq. by constructor.
  - destruct (step l s) as [s1|] eqn:Hs; simpl in Hrun; [|done].
    apply step_Step, Step_same_config in Hs as [].
    destruct (IH _ Hrun). constructor; congruence.
Qed.

(** ** What the constructor establishes *)

Lemma size_sub_exact (a b : nat) :
  (b ≤ a)%nat → Z.of_nat a < 2 ^ 64 → size_sub a b = Z.of_nat a - Z.of_nat b.
Proof. intros Hle Ha. unfold size_sub. apply Z.mod_small. lia. Qed.

Lemma CalculateKnownBlocks_subseteq cloud0 snap pinfo sinfo :
  CalculateKnownBlocks cloud0 snap pinfo sinfo ⊆
  list_to_set ((fun b => ToUpper (Hash b)) <$> Blocks sinfo).
Proof.
  intros h Hh. rewrite <- remoteBlocks_spec.
  by eapply CalculateKnownBlocks_remote.
Qed.

Lemma total_block_requests knownBlocks sinfo :
  total request_blocks (build_requests knownBlocks sinfo) =
  Z.of_nat (length (filter (fun b => ¬ is_known knownBlocks b) (Blocks sinfo))).
Proof.
  rewrite build_requests_spec. simpl. unfold request_blocks at 1. simpl.
  rewrite total_fmap, (total_const_1 _ _ (fun _ => eq_refl)). done.
Qed.

Lemma total_blob_requests knownBlocks sinfo :
  total request_blob (build_requests knownBlocks sinfo) = 1.
Proof.
  rewrite build_requests_spec. simpl. unfold request_blob at 1. simpl.
  rewrite total_fmap.
  generalize (filter (fun b => ¬ is_known knownBlocks b) (Blocks sinfo)).
  intros l. assert (total (request_blob ∘ block_request) l = 0) as ->; [|done].
  induction l as [|a l IH]; [done|].
  change (total (request_blob ∘ block_request) (a :: l))
    with (0 + total (request_blob ∘ block_request) l).
  by rewrite IH.
Qed.

(** The three outcomes of the constructor once the file is attached. *)
Lemma construct_cases cloud0 snap pinfo sinfo path now :
  let knownBlocks := CalculateKnownBlocks cloud0 snap pinfo sinfo in
  let s := construct cloud0 (Some snap) pinfo sinfo path now in
  (size knownBlocks = length (Blocks sinfo) ∧
   already_synced cloud0 pinfo sinfo = true ∧
   mRequests s = [] ∧ mMissingBlocks s = 0 ∧ mRequestsThread s = NotStarted ∧
   length (reports s) = 1%nat)
  ∨
  (¬ (size knownBlocks = length (Blocks sinfo) ∧
      already_synced cloud0 pinfo sinfo = true) ∧
   mRequests s = build_requests knownBlocks sinfo ∧
   mMissingBlocks s = size_sub (length (Blocks sinfo)) (size knownBlocks) ∧
   mRequestsThread s = Running ∧ reports s = []).
Proof.
  intros knownBlocks s. unfold s, construct. fold knownBlocks.
  destruct (bool_decide (size knownBlocks = length (Blocks sinfo))) eqn:Hsize;
    [destruct (already_synced cloud0 pinfo sinfo) eqn:Hsync|]; simpl.
  - left. apply bool_decide_eq_true in Hsize. done.
  - right. split; [|done]. intros [_ ?]. done.
  - right. apply bool_decide_eq_false in Hsize. split; [|done]. by intros [? _].
Qed.

Lemma construct_fresh cloud0 snap pinfo sinfo path now :
  let s := construct cloud0 (Some snap) pinfo sinfo path now in
  mCancelled s = false ∧ mFailed s = false ∧ mProjectDownloaded s = false ∧
  mDownloadedBlocks s = 0 ∧ mNextRequestIndex s = 0%nat ∧
  mRequestsInProgress s = 0 ∧ mResponses s = [] ∧ chains s = [] ∧
  issued s = [] ∧ mAttached s = true.
Proof.
  simpl. unfold construct.
  destruct (bool_decide _ && already_synced cloud0 pinfo sinfo); simpl; done.
Qed.

Lemma missing_blocks_exact cloud0 snap pinfo sinfo :
  Z.of_nat (length (Blocks sinfo)) < 2 ^ 64 →
  let knownBlocks := CalculateKnownBlocks cloud0 snap pinfo sinfo in
  size_sub (length (Blocks sinfo)) (size knownBlocks) =
  Z.of_nat (length (Blocks sinfo)) - Z.of_nat (size knownBlocks) ∧
  (size knownBlocks ≤ length (filter (is_known knownBlocks) (Blocks sinfo)))%nat.
Proof.
  intros Hlen knownBlocks.
  pose proof (known_entries_length knownBlocks (Blocks sinfo)
                (CalculateKnownBlocks_subseteq _ _ _ _)) as Hk.
  pose proof (filter_split_length (is_known knownBlocks) (Blocks sinfo)) as Hsplit.
  split; [|done]. apply size_sub_exact; [lia|done].
Qed.

Lemma config_inv_initial s : initial s → config_inv s.
Proof.
  intros (cloud0 & snap & pinfo & sinfo & path & now & Hlen & ->).
  destruct (construct_cases cloud0 snap pinfo sinfo path now)
    as [(_ & _ & Hreq & Hmiss & _)|(_ & Hreq & Hmiss & _)];
    destruct (construct_fresh cloud0 snap pinfo sinfo path now)
      as (_ & _ & _ & _ & _ & _ & _ & _ & _ & Hatt).
  - constructor; rewrite ?Hreq, ?Hmiss; simpl; [lia|lia|done].
  - destruct (missing_blocks_exact cloud0 snap pinfo sinfo Hlen) as [Hex Hk].
    pose proof (filter_split_length
      (is_known (CalculateKnownBlocks cloud0 snap pinfo sinfo)) (Blocks sinfo)).
    constructor; rewrite ?Hreq, ?Hmiss; [|by rewrite total_blob_requests|done].
    rewrite total_block_requests, Hex. lia.
Qed.

Lemma config_inv_step l s s' : config_inv s → Step l s s' → config_inv s'.
Proof.
  intros [Hb Hp Ha] HS. apply Step_same_config in HS as [].
  constructor; congruence.
Qed.

Lemma progress_inv_initial s : initial s → progress_inv s.
Proof.
  intros (cloud0 & snap & pinfo & sinfo & path & now & Hlen & ->).
  destruct (construct_fresh cloud0 snap pinfo sinfo path now)
    as (Hc & Hf & Hpd & Hbd & Hidx & Hip & Hresp & Hch & Hiss & Hatt).
  remember (construct cloud0 (Some snap) pinfo sinfo path now) as s eqn:Hs.
  clear Hs.
  constructor; unfold blocks_reachable, blob_reachable, undispatched;
    rewrite ?Hch, ?Hf, ?Hpd, ?Hbd, ?Hidx, ?drop_0; simpl; try lia.
  constructor.
Qed.

Lemma reachable_progress s : reachable s → progress_inv s ∧ config_inv s.
Proof.
  apply (reachable_invariant (fun s => progress_inv s ∧ config_inv s)).
  - intros s0 H0. split; [by apply progress_inv_initial|by apply config_inv_initial].
  - intros l s1 s2 [H1 H2] HS. split;
      [by eapply progress_inv_step|by eapply config_inv_step].
Qed.

(** ** The ceiling on requests in progress *)

Lemma after_failure_nonneg c : 0 ≤ after_failure c.
Proof. unfold after_failure. destruct (chain_pc c); lia. Qed.

Ltac slots_arith s :=
  match goal with
  | Hc : chains s !! ?i = Some ?c, Hpc : chain_pc ?c = _ |- _ =>
      pose proof (total_lookup_le after_failure _ _ _ after_failure_nonneg Hc);
      rewrite ?(total_insert _ _ _ _ _ Hc);
      set (TI := total in_flight (chains s)) in *;
      set (TA := total after_failure (chains s)) in *;
      unfold in_flight, after_failure, with_pc, set_response in *;
      simpl in *; rewrite ?Hpc in *; simpl in *;
      destruct (mFailed s); simpl in *;
      try lia
  end.

Lemma slots_inv_step l s s' : slots_inv s → Step l s s' → slots_inv s'.
Proof.
  intros [He Hl Hc] HS.
  destruct HS; constructor; simpl; try done.
  all: split_ifs.
  all: try (by slots_arith s).
  all: rewrite ?total_app; unfold WantsNextRequest, MAX_CONCURRENT_REQUESTS in *;
    simpl; destruct (mFailed s), (mCancelled s); simpl in *; try done; try lia.
  all: change (in_flight (new_chain request)) with 1;
    change (after_failure (new_chain request)) with 0; lia.
Qed.

Lemma slots_inv_initial s : initial s → slots_inv s.
Proof.
  intros (cloud0 & snap & pinfo & sinfo & path & now & Hlen & ->).
  destruct (construct_fresh cloud0 snap pinfo sinfo path now)
    as (Hc & Hf & Hpd & Hbd & Hidx & Hip & Hresp & Hch & Hiss & Hatt).
  remember (construct cloud0 (Some snap) pinfo sinfo path now) as s eqn:Hs.
  clear Hs.
  constructor; rewrite ?Hch, ?Hip; unfold MAX_CONCURRENT_REQUESTS; simpl; lia.
Qed.

Lemma reachable_slots s : reachable s → slots_inv s.
Proof.
  apply reachable_invariant; [apply slots_inv_initial|].
  intros l s1 s2. apply slots_inv_step.
Qed.

Lemma total_le {A} (f g : A → Z) (l : list A) :
  (∀ x, f x ≤ g x) → total f l ≤ total g l.
Proof. intros Hfg. induction l as [|a l IH]; simpl; [lia|]. specialize (Hfg a). lia. Qed.

Lemma live_in_flight c : live c ≤ in_flight c.
Proof. unfold live, in_flight. destruct (chain_pc c); lia. Qed.

(** ** The retry budget *)

Lemma classify_retry response retries :
  classify response retries = OutRetry → 0 < retries.
Proof.
  unfold classify. repeat case_match; try done. lia.
Qed.

Lemma fetch_inv_goto s f i c pc :
  fetch_inv s → chains s !! i = Some c →
  issued (f s) = issued s →
  (retries_ok (chain_pc c) → retries_ok pc) →
  (retries_ok (chain_pc c) → budget pc ≤ budget (chain_pc c)) →
  chains (f s) = chains s →
  fetch_inv (goto i c pc (f s)).
Proof.
  intros Hinv Hc Hiss Hok Hb Hch j. simpl. rewrite Hiss, Hch.
  destruct (decide (j = i)) as [->|Hne].
  - rewrite list_lookup_insert_eq by (by eapply lookup_lt_Some).
    specialize (Hinv i). rewrite Hc in Hinv. destruct Hinv as [H1 H2].
    simpl. split; [auto|]. specialize (Hb H1). lia.
  - rewrite list_lookup_insert_ne by done. apply Hinv.
Qed.

Lemma fetch_inv_step l s s' : fetch_inv s → Step l s s' → fetch_inv s'.
Proof.
  intros Hinv HS.
  destruct HS;
    try (apply (fetch_inv_goto s (fun s => s)); [done|done|done|..|done];
         rewrite H0; simpl; try done; try lia);
    try (match goal with
         | |- fetch_inv (goto ?i ?c ?pc ?t) =>
             apply (fetch_inv_goto s (fun _ => t)); [done|done|done|..|done];
             rewrite H0; simpl; try done; try (destruct again; done); try lia
         end).
  - done.
  - intros j. simpl. destruct (decide (j = length (chains s))) as [->|Hne].
    + rewrite lookup_app_r, Nat.sub_diag by lia. simpl.
      specialize (Hinv (length (chains s))).
      rewrite (lookup_ge_None_2 (chains s)) in Hinv by lia.
      split; [lia|]. rewrite Hinv. lia.
    + specialize (Hinv j). destruct (decide (j < length (chains s))%nat).
      * by rewrite lookup_app_l by lia.
      * rewrite lookup_ge_None_2 by (rewrite length_app; simpl; lia).
        by rewrite lookup_ge_None_2 in Hinv by lia.
  - intros j. simpl. unfold fetches. rewrite total_app. simpl.
    specialize (Hinv j). destruct (decide (j = i)) as [->|Hne].
    + rewrite list_lookup_insert_eq by (by eapply lookup_lt_Some).
      rewrite H, H0 in Hinv. simpl in *. rewrite decide_True by done.
      unfold fetches in Hinv. lia.
    + rewrite list_lookup_insert_ne by done.
      rewrite decide_False by done. unfold fetches in Hinv.
      destruct (chains s !! j); [destruct Hinv; split; [done|lia]|lia].
  - apply classify_retry in H1. lia.
  - by destruct (bool_decide _ && pd).
  - by destruct (bool_decide _ && pd).
  - by destruct again.
  - by destruct again.
  - done.
Qed.

Lemma fetch_inv_initial s : initial s → fetch_inv s.
Proof.
  intros (cloud0 & snap & pinfo & sinfo & path & now & Hlen & ->).
  destruct (construct_fresh cloud0 snap pinfo sinfo path now)
    as (Hc & Hf & Hpd & Hbd & Hidx & Hip & Hresp & Hch & Hiss & Hatt).
  intros i. by rewrite Hch, Hiss.
Qed.

Lemma reachable_fetches s i : reachable s → 0 ≤ fetches i (issued s) ≤ 4.
Proof.
  intros Hr. split.
  { unfold fetches. generalize (issued s). intros l.
    induction l as [|e l IH]; simpl; [lia|]. destruct (decide (e.1 = i)); lia. }
  assert (Hinv : fetch_inv s).
  { revert s Hr. apply reachable_invariant; [apply fetch_inv_initial|].
    intros l s1 s2. apply fetch_inv_step. }
  specialize (Hinv i). destruct (chains s !! i) as [c|]; [|lia].
  destruct Hinv as [Hok Hb]. destruct (chain_pc c); simpl in *; lia.
Qed.

(** ** The request cursor and the tracked responses *)

Lemma cursor_inv_step l s s' : cursor_inv s → Step l s s' → cursor_inv s'.
Proof.
  intros [Hc Hr] HS.
  destruct HS; constructor; simpl; rewrite ?length_insert, ?length_app; simpl;
    try done; try lia.
  apply lookup_lt_Some in H2. lia.
Qed.

Lemma cursor_inv_initial s : initial s → cursor_inv s.
Proof.
  intros (cloud0 & snap & pinfo & sinfo & path & now & Hlen & ->).
  destruct (construct_fresh cloud0 snap pinfo sinfo path now)
    as (Hc & Hf & Hpd & Hbd & Hidx & Hip & Hresp & Hch & Hiss & Hatt).
  constructor; rewrite ?Hch, ?Hidx; simpl; [done|lia].
Qed.

Lemma tracked_other s i j ci cj ri rj :
  responses_inv s → i ≠ j →
  chains s !! i = Some ci → chains s !! j = Some cj →
  chain_response ci = Some ri → chain_response cj = Some rj → ri ≠ rj.
Proof.
  intros Hinv Hne Hi Hj Hri Hrj ->.
  pose proof (Hinv i ci Hi) as Hti. pose proof (Hinv j cj Hj) as Htj.
  unfold tracked in *. rewrite Hri in Hti. rewrite Hrj in Htj.
  destruct Hti as [[ui Hui] _]. destruct Htj as [[uj Huj] _]. congruence.
Qed.

Lemma responses_inv_goto s t i c pc :
  responses_inv s → chains s !! i = Some c →
  chains t = chains s → issued t = issued s →
  live (with_pc c pc) = 0 →
  (∀ r, r ∈ mResponses s → Some r ≠ chain_response c → r ∈ mResponses t) →
  responses_inv (goto i c pc t).
Proof.
  intros Hinv Hc Hch Hiss Hlive Hresp j cj. simpl. rewrite Hch.
  destruct (decide (j = i)) as [->|Hne].
  - rewrite list_lookup_insert_eq by (by eapply lookup_lt_Some).
    intros [= <-]. specialize (Hinv i c Hc). unfold tracked in *. simpl.
    rewrite Hiss. destruct (chain_response c); [|done].
    destruct Hinv as [Hu _]. split; [done|]. rewrite Hlive. done.
  - rewrite list_lookup_insert_ne by done. intros Hj.
    pose proof (Hinv j cj Hj) as Htj. unfold tracked in *. simpl. rewrite Hiss.
    destruct (chain_response cj) as [rj|] eqn:Hrj; [|done].
    destruct Htj as [Hu Hin]. split; [done|]. intros Hl.
    apply Hresp; [auto|]. intros Heq.
    eapply (tracked_other s i j c cj rj rj); eauto.
Qed.

Lemma elem_of_RemoveRequest s response r :
  r ∈ mResponses s → Some r ≠ response → r ∈ mResponses (RemoveRequest response s).
Proof. intros Hin Hne. simpl. apply list_elem_of_filter. done. Qed.

Lemma responses_inv_step l s s' : responses_inv s → Step l s s' → responses_inv s'.
Proof.
  intros Hinv HS.
  destruct HS;
    try (apply (responses_inv_goto s);
         [ done | done | done | done
         | unfold live; simpl; repeat case_match; done
         | first [ intros r; apply elem_of_RemoveRequest
                 | intros r Hr _; exact Hr ] ]).
  - exact Hinv.
  - intros j cj. simpl. intros Hj.
    apply lookup_app_Some in Hj as [Hj|[_ Hj]].
    + by apply Hinv.
    + apply list_lookup_singleton_Some in Hj as [_ <-]. done.
  - intros j cj. simpl. destruct (decide (j = i)) as [->|Hne].
    + rewrite list_lookup_insert_eq by (by eapply lookup_lt_Some).
      intros [= <-]. unfold tracked. simpl. split.
      * exists (chain_url c). by rewrite lookup_app_r, Nat.sub_diag by lia.
      * intros _. apply elem_of_app. right. by apply list_elem_of_singleton.
    + rewrite list_lookup_insert_ne by done. intros Hj.
      pose proof (Hinv j cj Hj) as Htj. unfold tracked in *. simpl.
      destruct (chain_response cj) as [rj|]; [|done].
      destruct Htj as [[u Hu] Hin]. split.
      * exists u. by apply lookup_app_l_Some.
      * intros Hl. apply elem_of_app. left. auto.
  - exact Hinv.
Qed.

Lemma responses_inv_initial s : initial s → responses_inv s.
Proof.
  intros (cloud0 & snap & pinfo & sinfo & path & now & Hlen & ->).
  destruct (construct_fresh cloud0 snap pinfo sinfo path now)
    as (Hc & Hf & Hpd & Hbd & Hidx & Hip & Hresp & Hch & Hiss & Hatt).
  intros i c. by rewrite Hch.
Qed.

(** ** The reports *)

Lemma Step_reports l s s' : Step l s s' → reports s' = reports s ++ emitted l s.
Proof.
  destruct 1; simpl; rewrite ?H, ?H0; simpl; by rewrite ?app_nil_r.
Qed.

Lemma run_reports ls s s' :
  run ls s = Some s' → reports s' = reports s ++ emitted_run ls s.
Proof.
  revert s. induction ls as [|l ls IH]; intros s Hrun; simpl in *.
  - simplify_eq. by rewrite app_nil_r.
  - destruct (step l s) as [s1|] eqn:Hs; simpl in Hrun; [|done].
    rewrite (IH _ Hrun), (Step_reports _ _ _ (step_Step _ _ _ Hs)).
    by rewrite app_assoc.
Qed.

Lemma emitted_ok l s : Forall report_ok (emitted l s).
Proof.
  destruct l; simpl; try by constructor.
  destruct (chains s !! i) as [c|]; [|by constructor].
  destruct (chain_pc c); repeat constructor; simpl; try done.
  all: simpl in H; apply andb_prop in H as [Hbd Hpd];
    by apply bool_decide_eq_true in Hbd.
Qed.

Lemma reports_ok s : reachable s → Forall report_ok (reports s).
Proof.
  revert s. apply (reachable_invariant (fun s => Forall report_ok (reports s))).
  - intros s0 (cloud0 & snap & pinfo & sinfo & path & now & Hlen & ->).
    unfold construct.
    destruct (bool_decide _ && already_synced cloud0 pinfo sinfo); simpl;
      repeat constructor; simpl; done.
  - intros l s1 s2 Hok HS. rewrite (Step_reports _ _ _ HS).
    apply Forall_app. split; [done|apply emitted_ok].
Qed.

(** *** No success after a failure *)

Lemma chain_blocks_nonneg c : 0 ≤ chain_blocks c.
Proof. unfold chain_blocks, wants_block. repeat case_match; lia. Qed.

Lemma chain_blob_nonneg c : 0 ≤ chain_blob c.
Proof. unfold chain_blob, wants_blob. repeat case_match; lia. Qed.

Lemma total_nonneg {A} (f : A → Z) (l : list A) :
  (∀ x, 0 ≤ f x) → 0 ≤ total f l.
Proof. intros Hf. induction l as [|a l IH]; simpl; [lia|]. specialize (Hf a). lia. Qed.

Lemma request_blocks_nonneg r : 0 ≤ request_blocks r.
Proof. unfold request_blocks, wants_block. case_match; lia. Qed.

Lemma request_blob_nonneg r : 0 ≤ request_blob r.
Proof. unfold request_blob, wants_blob. case_match; lia. Qed.

Lemma reachable_bounds s :
  progress_inv s →
  mDownloadedBlocks s ≤ blocks_reachable s ∧
  Z.b2z (mProjectDownloaded s) ≤ blob_reachable s.
Proof.
  intros _. unfold blocks_reachable, blob_reachable.
  pose proof (total_nonneg chain_blocks (chains s) chain_blocks_nonneg).
  pose proof (total_nonneg chain_blob (chains s) chain_blob_nonneg).
  pose proof (total_nonneg request_blocks (undispatched s) request_blocks_nonneg).
  pose proof (total_nonneg request_blob (undispatched s) request_blob_nonneg).
  lia.
Qed.

(** The report [ReportProgress] is about to make cannot claim success once
    some request has failed, or when fewer block requests were made than
    blocks are missing. *)
Lemma progress_report_no_success s i c pd bd :
  progress_inv s → config_inv s →
  chains s !! i = Some c → chain_pc c = RPCallback pd bd →
  mFailed s = true ∨ total request_blocks (mRequests s) < mMissingBlocks s →
  success (progress_report pd bd s) = false.
Proof.
  intros Hp Hc Hi Hpc Hcase. simpl.
  destruct (reachable_bounds s Hp) as [Hb1 Hb2].
  destruct Hp as [Hb Hbl Hf Hl Hd]. destruct Hc as [Hcb Hcp _].
  pose proof (Forall_lookup_1 _ _ _ _ Hl Hi) as Hloc.
  unfold locals_ok in Hloc. rewrite Hpc in Hloc. destruct Hloc as [Hpd Hbd].
  apply andb_false_iff. destruct pd; [left|by right].
  apply bool_decide_eq_false. intros ->.
  rewrite Hpd in * by done. simpl in *.
  pose proof (total_nonneg failing (chains s) failing_nonneg).
  destruct Hcase as [Hfail|Hstrict]; [|lia].
  rewrite Hfail in Hf. simpl in Hf. lia.
Qed.

Lemma reporting_nonneg c : 0 ≤ reporting c.
Proof. unfold reporting. destruct (chain_pc c); lia. Qed.

Lemma settled_step l s s' :
  progress_inv s → config_inv s → settled s → Step l s s' →
  settled s' ∧ Forall (fun r => success r = false) (emitted l s).
Proof.
  intros Hp Hc Hq HS. split.
  - destruct Hq as [Hf|[Hcan Hrep]].
    + left. destruct HS; simpl; done.
    + destruct HS; simpl; try (by left); right; (split; [done|]);
        rewrite ?total_app; simpl; try done;
        try (pose proof (total_lookup_le reporting _ _ _ reporting_nonneg H);
             rewrite (total_insert _ _ _ _ _ H);
             unfold reporting in *; simpl; rewrite H0 in *;
             try (destruct again); simpl; try lia; try congruence);
        try change (reporting (new_chain request)) with 0; try lia.
      rewrite total_app. simpl. change (reporting (new_chain request)) with 0. lia.
  - destruct HS; simpl; rewrite ?H, ?H0; simpl; try (by constructor).
    + constructor; [|constructor].
      destruct Hq as [Hf|[Hcan Hrep]].
      * eapply progress_report_no_success; eauto.
      * pose proof (total_lookup_le reporting _ _ _ reporting_nonneg H) as Hle.
        unfold reporting in Hle at 1 2. rewrite H0 in Hle. lia.
Qed.

(** ** The claims *)

(** *** C1: the short cut of the constructor *)

Lemma short_cut_stays ls s s' :
  mRequestsThread s = NotStarted → chains s = [] → issued s = [] →
  run ls s = Some s' →
  mRequestsThread s' = NotStarted ∧ chains s' = [] ∧ issued s' = [].
Proof.
  intros Ht Hc Hi Hrun.
  apply (run_invariant
           (fun s => mRequestsThread s = NotStarted ∧ chains s = [] ∧ issued s = []))
    with (ls := ls) (s := s); [|done|done].
  clear. intros l s s' (Ht & Hc & Hi) HS.
  destruct HS; simpl; try done; try congruence; by rewrite Hc in *.
Qed.

Lemma covers_size cloud0 snap pinfo sinfo :
  covers (CalculateKnownBlocks cloud0 snap pinfo sinfo) sinfo →
  NoDup ((fun block => ToUpper (Hash block)) <$> Blocks sinfo) →
  size (CalculateKnownBlocks cloud0 snap pinfo sinfo) = length (Blocks sinfo).
Proof.
  intros Hcov Hnd.
  assert (Heq : CalculateKnownBlocks cloud0 snap pinfo sinfo =
                list_to_set ((fun block => ToUpper (Hash block)) <$> Blocks sinfo)).
  { apply set_eq. intros h. split.
    - apply CalculateKnownBlocks_subseteq.
    - intros Hh. apply elem_of_list_to_set, list_elem_of_fmap in Hh as (b & -> & Hb).
      unfold covers in Hcov. rewrite Forall_forall in Hcov. by apply Hcov. }
  rewrite Heq, size_list_to_set by done. by rewrite length_fmap.
Qed.

(** C1, on the snapshots that list no hash twice: when no two descriptors
    of the snapshot share an upper-case hash, the known-block set covers
    every block, and the stored record names this snapshot with status
    Synced, the constructor calls the callback once, with {0, 0, no error,
    true, true, true, not cancelled}, builds no request and starts no
    thread, and nothing is ever fetched for the session.  (The test of the
    constructor compares two sizes; with a repeated hash it misses the
    short cut, see [C1_counterexample].) *)
Theorem C1_short_cut cloud0 snap pinfo sinfo path now :
  let s0 := construct cloud0 (Some snap) pinfo sinfo path now in
  NoDup ((fun block => ToUpper (Hash block)) <$> Blocks sinfo) →
  covers (CalculateKnownBlocks cloud0 snap pinfo sinfo) sinfo →
  (∃ syncInfo, GetProjectData cloud0 (ProjectInfo_Id pinfo) = Some syncInfo ∧
               SnapshotId syncInfo = SnapshotInfo_Id sinfo ∧
               SyncStatus syncInfo = SyncStatusSynced) →
  reports s0 = [short_cut_report] ∧
  mRequests s0 = [] ∧
  mRequestsThread s0 = NotStarted ∧
  issued s0 = [] ∧
  ∀ ls s, run ls s0 = Some s →
    issued s = [] ∧ mRequestsThread s = NotStarted ∧ chains s = [].
Proof.
  intros s0 Hnd Hcov (syncInfo & Hget & Hid & Hst).
  pose proof (covers_size _ _ _ _ Hcov Hnd) as Hsize.
  assert (Hsync : already_synced cloud0 pinfo sinfo = true).
  { unfold already_synced. rewrite Hget.
    by rewrite !bool_decide_eq_true_2. }
  assert (Hs0 : s0 = mCallback short_cut_report
                  (set_snapshot_db snap
                     (set_construction true 0 [] (fresh cloud0 pinfo sinfo path)))).
  { unfold s0, construct. rewrite Hsync.
    by rewrite bool_decide_eq_true_2. }
  rewrite Hs0. simpl. repeat split; try done.
  all: edestruct (short_cut_stays ls) as (? & ? & ?); [| | |exact H|]; done.
Qed.

Lemma C1_witness :
  reports Demo.session_synced = [short_cut_report] ∧
  mRequests Demo.session_synced = [] ∧
  mRequestsThread Demo.session_synced = NotStarted ∧
  issued Demo.session_synced = [] ∧
  ∀ ls s, run ls Demo.session_synced = Some s →
    issued s = [] ∧ mRequestsThread s = NotStarted ∧ chains s = [].
Proof.
  apply (C1_short_cut Demo.cloud_synced Demo.snap Demo.pinfo Demo.sinfo_one
           "p.aup3" 0).
  - repeat constructor. apply not_elem_of_nil.
  - assert (Hk : CalculateKnownBlocks Demo.cloud_synced Demo.snap Demo.pinfo
                   Demo.sinfo_one = {[ "AA" ]}) by (vm_compute; reflexivity).
    rewrite Hk. unfold covers, is_known.
    repeat constructor; apply elem_of_singleton; reflexivity.
  - eexists. split; [vm_compute; reflexivity|]. split; reflexivity.
Defined.

(** The claim fails when two descriptors share a hash.  The set covers
    the snapshot and the record says Synced; the loop over the blocks skips
    both descriptors, so that the project blob is the only request.  But
    the constructor compares the size of the set, 1, with the length of the
    list, 2: it marks the record as Downloading, counts one missing block,
    reports nothing and starts the thread, and the project blob is
    fetched. *)
Lemma C1_counterexample :
  covers (CalculateKnownBlocks Demo.cloud_synced Demo.snap Demo.pinfo Demo.sinfo_twice)
         Demo.sinfo_twice ∧
  already_synced Demo.cloud_synced Demo.pinfo Demo.sinfo_twice = true ∧
  reports Demo.session_twice = [] ∧
  mRequestsThread Demo.session_twice = Running ∧
  (issued <$> run [LSched; LIssue 0] Demo.session_twice)
    = Some [(0%nat, "https://host/blob")] ∧
  size (CalculateKnownBlocks Demo.cloud_synced Demo.snap Demo.pinfo Demo.sinfo_twice)
    = 1%nat ∧
  length (Blocks Demo.sinfo_twice) = 2%nat ∧
  mRequests Demo.session_twice = [("https://host/blob", ProjectBlob)] ∧
  mMissingBlocks Demo.session_twice = 1 ∧
  (SyncStatus <$> GetProjectData (cloud Demo.session_twice) "proj")
    = Some SyncStatusDownloading.
Proof.
  split; [|vm_compute; repeat split].
  assert (Hk : CalculateKnownBlocks Demo.cloud_synced Demo.snap Demo.pinfo
                 Demo.sinfo_twice = {[ "AA" ]}) by (vm_compute; reflexivity).
  rewrite Hk. unfold covers, is_known.
  repeat constructor; apply elem_of_singleton; reflexivity.
Qed.

(** *** C2: the retry budget *)

Lemma past_fetching_step l s s' i :
  past_fetching s i → Step l s s' →
  past_fetching s' i ∧ fetches i (issued s') = fetches i (issued s).
Proof.
  intros (ci & Hi & Hpc) HS.
  assert (Hgoto : ∀ j cj pc t,
            chains s !! j = Some cj → chains t = chains s →
            (j = i → match pc with Queued _ | Fetching _ => False | _ => True end) →
            past_fetching (goto j cj pc t) i).
  { intros j cj pc t Hj Ht Hnew. unfold past_fetching.
    change (chains (goto j cj pc t)) with (<[j := with_pc cj pc]> (chains t)).
    rewrite Ht.
    destruct (decide (j = i)) as [->|Hne].
    - exists (with_pc cj pc). split; [|by apply Hnew].
      apply list_lookup_insert_eq. by eapply lookup_lt_Some.
    - exists ci. by rewrite list_lookup_insert_ne. }
  destruct HS;
    try (split; [|done]; apply Hgoto; [done|done|];
         intros ->; rewrite Hi in *; simplify_eq;
         try (rewrite H0 in Hpc; done); try done;
         try (by destruct again); try (by case_match)).
  - split; [|done]. by exists ci.
  - split; [|done]. unfold past_fetching. exists ci. split; [|done].
    cbn [chains set_chains]. by apply lookup_app_l_Some.
  - assert (Hne : i0 ≠ i).
    { intros ->. rewrite Hi in *. simplify_eq. by rewrite H0 in Hpc. }
    split.
    + unfold past_fetching. exists ci. split; [|done].
      cbn [chains set_chains]. by rewrite list_lookup_insert_ne.
    + cbn [issued set_chains set_mResponses set_issued].
      unfold fetches. rewrite total_app. simpl. rewrite decide_False by done. lia.
  - by destruct (bool_decide _ && pd).
  - split; [|done]. by exists ci.
Qed.

Lemma past_fetching_run ls s s' i :
  past_fetching s i → run ls s = Some s' →
  fetches i (issued s') = fetches i (issued s).
Proof.
  revert s. induction ls as [|l ls IH]; intros s Hp Hrun; simpl in Hrun.
  - by simplify_eq.
  - destruct (step l s) as [s1|] eqn:Hs; simpl in Hrun; [|done].
    apply step_Step in Hs. destruct (past_fetching_step _ _ _ _ Hp Hs) as [Hp1 He].
    rewrite <- He. by apply IH.
Qed.

(** C2, as amended: a request is fetched at most four times, the first
    attempt and three retries.  A 5xx answer with retries left re-issues the
    fetch of the same url with one retry less and leaves the count of
    requests in progress alone; an answer below 500, or any error with no
    retries left, enters [OnFailure] at once, and the request is never
    fetched again. *)
Theorem C2_retry_budget s :
  reachable s →
  (∀ i, fetches i (issued s) ≤ 4) ∧
  (∀ s' i c, step LSched s = Some s' → chains s !! i = None →
             chains s' !! i = Some c → chain_pc c = Queued 3) ∧
  ∀ i c retries response,
    chains s !! i = Some c → chain_pc c = Fetching retries →
    (getError response = HTTPError → 500 ≤ getHTTPCode response → 0 < retries →
     ∃ s1 s2,
       step (LFinished i response) s = Some s1 ∧
       chains s1 !! i = Some (with_pc c (Queued (retries - 1))) ∧
       mRequestsInProgress s1 = mRequestsInProgress s ∧
       mFailed s1 = mFailed s ∧ issued s1 = issued s ∧
       step (LIssue i) s1 = Some s2 ∧
       issued s2 = issued s ++ [(i, chain_url c)] ∧
       mRequestsInProgress s2 = mRequestsInProgress s ∧
       (chain_pc <$> chains s2 !! i) = Some (Fetching (retries - 1))) ∧
    ((getError response = HTTPError ∧ getHTTPCode response < 500) ∨
     ((getError response = HTTPError ∨ getError response = OtherError) ∧
      retries ≤ 0) →
     ∃ s1 msg,
       step (LFinished i response) s = Some s1 ∧
       chains s1 !! i = Some (with_pc c (Failing msg false)) ∧
       issued s1 = issued s ∧
       ∀ ls s2, run ls s1 = Some s2 →
                fetches i (issued s2) = fetches i (issued s)).
Proof.
  intros Hr. split; [intros i; by apply reachable_fetches|]. split.
  { intros s' i c Hs Hnone Hsome. apply step_Step in Hs.
    inversion Hs; subst; simpl in *; [congruence|].
    apply lookup_app_Some in Hsome as [Hsome|[_ Hsome]]; [congruence|].
    apply list_lookup_singleton_Some in Hsome as [_ <-]. done. }
  intros i c retries response Hc Hpc. split.
  - intros He Hcode Hret.
    assert (Hcl : classify response retries = OutRetry).
    { unfold classify. rewrite He. simpl.
      destruct (Z.ltb_spec (getHTTPCode response) 500); [lia|].
      destruct (Z.leb_spec retries 0); [lia|]. done. }
    eexists _, _. simpl. rewrite Hc. simpl. rewrite Hpc.
    unfold finished. rewrite Hcl.
    assert (Hlook : chains (goto i c (Queued (retries - 1)) s) !! i
                    = Some (with_pc c (Queued (retries - 1)))).
    { simpl. apply list_lookup_insert_eq. by eapply lookup_lt_Some. }
    split; [done|]. split; [done|]. split; [done|]. split; [done|].
    split; [done|]. rewrite Hlook. simpl. split; [done|]. split; [done|].
    split; [done|]. simpl. rewrite list_lookup_insert_eq; [done|].
    rewrite length_insert. by eapply lookup_lt_Some.
  - intros Hcase.
    assert (Hcl : ∃ msg, classify response retries = OutFailure msg).
    { unfold classify. destruct Hcase as [[He Hcode]|[He Hret]].
      - rewrite He. simpl.
        destruct (Z.ltb_spec (getHTTPCode response) 500); [|lia]. simpl. eauto.
      - destruct (Z.leb_spec retries 0); [|lia].
        destruct He as [He|He]; rewrite He; simpl; rewrite ?orb_true_r; eauto. }
    destruct Hcl as [msg Hcl]. eexists _, msg. simpl. rewrite Hc. simpl.
    rewrite Hpc. unfold finished. rewrite Hcl.
    split; [done|]. split.
    { simpl. apply list_lookup_insert_eq. by eapply lookup_lt_Some. }
    split; [done|]. intros ls s2 Hrun.
    apply (past_fetching_run ls _ s2 i) in Hrun; [done|].
    exists (with_pc c (Failing msg false)). split; [|done].
    simpl. apply list_lookup_insert_eq. by eapply lookup_lt_Some.
Qed.

Lemma Demo_session_initial : initial Demo.session.
Proof.
  exists Demo.cloud0, Demo.snap, Demo.pinfo, Demo.sinfo, "p.aup3", 0.
  split; [vm_compute; reflexivity|reflexivity].
Qed.

Lemma Demo_reachable ls s : run ls Demo.session = Some s → reachable s.
Proof. intros Hrun. exists Demo.session, ls. split; [apply Demo_session_initial|done]. Qed.

Lemma C2_witness :
  fetches 0 (issued Demo_fetching) ≤ 4 ∧
  ∃ s1, step (LFinished 0 (Demo.http 500)) Demo_fetching = Some s1 ∧
        chains s1 !! 0%nat = Some (Demo_blob_chain (Queued 2)).
Proof.
  destruct (C2_retry_budget Demo_fetching) as (Hle & _ & Hstep).
  - apply (Demo_reachable [LSched; LIssue 0]). vm_compute. reflexivity.
  - split; [exact (Hle 0%nat)|].
    destruct (Hstep 0%nat (Demo_blob_chain (Fetching 3)) 3 (Demo.http 500))
      as [Hretry _]; [vm_compute; reflexivity|reflexivity|].
    destruct Hretry as (s1 & s2 & Hs1 & Hc1 & _);
      [reflexivity|vm_compute; discriminate|reflexivity|].
    exists s1. split; [exact Hs1|exact Hc1].
Defined.

(** Four answers of 500 in a row: the project blob is fetched four times,
    not three. *)
Lemma C2_counterexample :
  ∃ s, run [LSched; LIssue 0; LFinished 0 (Demo.http 500);
            LIssue 0; LFinished 0 (Demo.http 500);
            LIssue 0; LFinished 0 (Demo.http 500);
            LIssue 0] Demo.session = Some s ∧
       issued s = [(0%nat, "https://host/blob"); (0%nat, "https://host/blob");
                   (0%nat, "https://host/blob"); (0%nat, "https://host/blob")] ∧
       ¬ fetches 0 (issued s) ≤ 3.
Proof.
  eexists. split; [vm_compute; reflexivity|]. split; [reflexivity|].
  vm_compute. intros H. apply H. reflexivity.
Qed.

(** *** C3: Cancel *)

Lemma DownloadBlob_accesses i c retries s :
  DownloadBlob i c retries s =
  push_back i c (length (issued s)) retries (doGet i c s).
Proof. reflexivity. Qed.

(** [Cancel] between the two accesses of [DownloadBlob] and [Cancel] before
    the call leave the same session: the response is registered, and it is
    not aborted. *)
Lemma Cancel_inside_DownloadBlob i c retries s :
  push_back i c (length (issued s)) retries (Cancel (doGet i c s)) =
  DownloadBlob i c retries (Cancel s).
Proof. reflexivity. Qed.

(** C3, as amended: [Cancel] sets the cancellation flag and wakes the
    scheduler: it calls [notify_one], and a thread that is running finds
    the predicate of its wait true and returns at its next test.  It calls
    [abort] on every response that is in [mResponses], and on no other,
    and then calls the callback once with the counts so far, no error,
    [completed] true, [success] false and [cancelled] true.  A second call
    changes no member of the session: it notifies and makes the same
    report again. *)
Theorem C3_cancel s :
  mCancelled (Cancel s) = true ∧
  notified (Cancel s) = S (notified s) ∧
  WantsNextRequest (Cancel s) = false ∧
  (mRequestsThread s = Running →
   step LSched (Cancel s) = Some (set_mRequestsThread Exited (Cancel s))) ∧
  (∀ r, r ∈ mResponses s → r ∈ aborted (Cancel s)) ∧
  aborted (Cancel s) = aborted s ∪ list_to_set (mResponses s) ∧
  reports (Cancel s) =
    reports s ++ [ {| downloadedBlocks := mDownloadedBlocks s;
                      missingBlocks := mMissingBlocks s;
                      error := "";
                      projectBlobDownloaded := mProjectDownloaded s;
                      completed := true; success := false;
                      cancelled := true |} ] ∧
  Cancel (Cancel s) = mCallback (cancel_report s) (notify_one (Cancel s)).
Proof.
  assert (Hidem : aborted s ∪ list_to_set (mResponses s) ∪ list_to_set (mResponses s)
                  = aborted s ∪ list_to_set (mResponses s)) by set_solver.
  split; [done|]. split; [done|]. split; [done|]. split.
  { intros Hrun. simpl. unfold RequestsThread_step. simpl. by rewrite Hrun. }
  split.
  { intros r Hin. simpl. set_solver. }
  split; [done|]. split; [done|].
  cbv beta iota zeta delta
    [Cancel DoCancel notify_one mCallback cancel_report
     set_reports set_aborted set_notified set_mCancelled
     mProjectInfo mSnapshotInfo mPath mAttached mMissingBlocks mRequests
     mCancelled mFailed mProjectDownloaded mDownloadedBlocks mNextRequestIndex
     mRequestsInProgress mResponses mRequestsThread chains aborted issued
     notified reports cloud snapshot_db].
  fold (aborted s) (mResponses s). by rewrite Hidem.
Qed.

Lemma C3_witness :
  mCancelled (Cancel Demo_fetching) = true ∧
  (0%nat ∈ aborted (Cancel Demo_fetching)) ∧
  Cancel (Cancel Demo_fetching) =
    mCallback (cancel_report Demo_fetching) (notify_one (Cancel Demo_fetching)).
Proof.
  destruct (C3_cancel Demo_fetching) as (H1 & _ & _ & _ & H4 & _ & _ & H8).
  split; [exact H1|]. split; [|exact H8].
  apply H4. apply list_elem_of_singleton. reflexivity.
Defined.

(** The report of [Cancel] is marked completed.  A response that
    [DownloadBlob] has obtained from [doGet] and not yet registered is not
    aborted, and stays so when it is registered.  A second call of
    [Cancel] calls the callback a second time. *)
Lemma C3_counterexample :
  (∃ r, last (reports (Cancel Demo.session)) = Some r ∧
        cancelled r = true ∧ completed r = true ∧ completed r ≠ false) ∧
  (issued Demo_untracked = [(0%nat, "https://host/blob")] ∧
   mResponses Demo_untracked = [] ∧
   aborted (Cancel Demo_untracked) = ∅ ∧
   ∃ s, run [LSched; LCancel; LIssue 0] Demo.session = Some s ∧
        s = push_back 0 (new_chain ("https://host/blob", ProjectBlob)) 0 3
              (Cancel Demo_untracked) ∧
        mResponses s = [0%nat] ∧ aborted s = ∅) ∧
  length (reports (Cancel (Cancel Demo.session))) = 2%nat.
Proof.
  split; [|split].
  - eexists. split; [vm_compute; reflexivity|]. by repeat split.
  - split; [vm_compute; reflexivity|]. split; [vm_compute; reflexivity|].
    split; [vm_compute; reflexivity|].
    eexists. split; [vm_compute; reflexivity|].
    split; [vm_compute; reflexivity|]. split; vm_compute; reflexivity.
  - vm_compute. reflexivity.
Qed.

(** *** C4: reports after a terminal flag *)

Lemma settled_run ls s s' :
  reachable s → settled s → run ls s = Some s' →
  settled s' ∧ Forall (fun r => success r = false) (emitted_run ls s).
Proof.
  revert s. induction ls as [|l ls IH]; intros s Hr Hq Hrun; simpl in *.
  - simplify_eq. split; [done|constructor].
  - destruct (step l s) as [s1|] eqn:Hs; simpl in Hrun; [|done].
    destruct (reachable_progress s Hr) as [Hp Hc].
    destruct (settled_step l s s1 Hp Hc Hq (step_Step _ _ _ Hs)) as [Hq1 Hem].
    assert (Hr1 : reachable s1).
    { apply (reachable_run [l] s); [done|]. simpl. by rewrite Hs. }
    destruct (IH s1 Hr1 Hq1 Hrun) as [Hq' Hrest].
    split; [done|]. by apply Forall_app.
Qed.

(** C4, as amended: once [mFailed] is true, no later report has [success]
    true.  Once [mCancelled] is true, a call of [ReportProgress] that loads
    the flag returns without a report, so if no call is already past that
    load, no later report has [success] true either.  (The reports of
    [OnFailure] and [Cancel] themselves are marked [completed].) *)
Theorem C4_no_success_after_terminal_flag s ls s' :
  reachable s →
  mFailed s = true ∨ (mCancelled s = true ∧ total reporting (chains s) = 0) →
  run ls s = Some s' →
  reports s' = reports s ++ emitted_run ls s ∧
  Forall (fun r => success r = false) (emitted_run ls s) ∧
  (∀ i c, mCancelled s = true → chains s !! i = Some c → chain_pc c = RPCheck →
          ∃ s1, step (LRun i) s = Some s1 ∧ reports s1 = reports s).
Proof.
  intros Hr Hq Hrun. split; [by apply run_reports|]. split.
  - by destruct (settled_run ls s s' Hr Hq Hrun).
  - intros i c Hcan Hc Hpc. eexists. simpl. rewrite Hc. simpl.
    unfold run_chain. rewrite Hpc, Hcan. done.
Qed.

Lemma C4_witness :
  mFailed Demo_failed = true ∧
  ∃ s', run [LRun 0; LRun 0; LRun 0; LRun 0] Demo_failed = Some s' ∧
        Forall (fun r => success r = false)
               (emitted_run [LRun 0; LRun 0; LRun 0; LRun 0] Demo_failed).
Proof.
  split; [reflexivity|]. eexists. split; [vm_compute; reflexivity|].
  eapply (C4_no_success_after_terminal_flag Demo_failed
            [LRun 0; LRun 0; LRun 0; LRun 0]).
  - apply (Demo_reachable [LSched; LIssue 0; LFinished 0 (Demo.http 404); LRun 0]).
    vm_compute. reflexivity.
  - left. reflexivity.
  - vm_compute. reflexivity.
Defined.

(** After [mFailed] is set, [OnFailure] goes on to report, and its report
    is marked completed. *)
Lemma C4_counterexample :
  ∃ s1 s2 r,
    run [LSched; LIssue 0; LFinished 0 (Demo.http 404); LRun 0] Demo.session
      = Some s1 ∧
    mFailed s1 = true ∧ reports s1 = [] ∧
    run [LRun 0; LRun 0; LRun 0; LRun 0] s1 = Some s2 ∧
    reports s2 = [r] ∧ completed r = true.
Proof.
  eexists _, _, _. split; [vm_compute; reflexivity|].
  split; [reflexivity|]. split; [reflexivity|].
  split; [vm_compute; reflexivity|]. split; reflexivity.
Qed.

(** *** C5: how many terminal reports *)

Lemma error_reports_step l s s' :
  total has_error (reports s) ≤ total reported (chains s) →
  Step l s s' →
  total has_error (reports s') ≤ total reported (chains s').
Proof.
  intros Hinv HS. rewrite (Step_reports _ _ _ HS), total_app.
  set (E := total has_error (reports s)) in *.
  destruct HS; simpl; rewrite ?H, ?H0; simpl;
    rewrite ?total_app, ?(total_insert _ _ _ _ _ H);
    unfold reported, has_error in *; simpl; rewrite ?H0; simpl;
    try (destruct again); try (destruct (bool_decide _ && pd)); simpl;
    try case_decide; try lia.
Qed.

Lemma initial_reports s :
  initial s → total has_error (reports s) = 0 ∧ total is_cancelled (reports s) = 0.
Proof.
  intros (cloud0 & snap & pinfo & sinfo & path & now & Hlen & ->).
  unfold construct.
  destruct (bool_decide _ && already_synced cloud0 pinfo sinfo); simpl; done.
Qed.

Lemma cancelled_reports_step l s s' :
  Step l s s' →
  total is_cancelled (reports s') =
  total is_cancelled (reports s) + cancels [l].
Proof.
  intros HS. rewrite (Step_reports _ _ _ HS), total_app.
  set (E := total is_cancelled (reports s)) in *.
  destruct HS; simpl; rewrite ?H, ?H0; simpl; unfold cancels, is_cancelled; simpl; lia.
Qed.

Lemma cancelled_reports_run ls s s' :
  run ls s = Some s' →
  total is_cancelled (reports s') = total is_cancelled (reports s) + cancels ls.
Proof.
  revert s. induction ls as [|l ls IH]; intros s Hrun; simpl in Hrun.
  - simplify_eq. unfold cancels. simpl. lia.
  - destruct (step l s) as [s1|] eqn:Hs; simpl in Hrun; [|done].
    rewrite (IH _ Hrun), (cancelled_reports_step _ _ _ (step_Step _ _ _ Hs)).
    unfold cancels. simpl. lia.
Qed.

Lemma reported_le_1 c : 0 ≤ reported c ≤ 1.
Proof. unfold reported. destruct (chain_pc c); lia. Qed.

Lemma reachable_error_reports s :
  reachable s → total has_error (reports s) ≤ total reported (chains s).
Proof.
  revert s.
  apply (reachable_invariant
           (fun s => total has_error (reports s) ≤ total reported (chains s))).
  - intros s H0. destruct (initial_reports s H0) as [-> _].
    apply total_nonneg. intros c. apply reported_le_1.
  - intros l s1 s2. apply error_reports_step.
Qed.

Lemma reachable_cursor s : reachable s → cursor_inv s.
Proof.
  revert s. apply reachable_invariant; [apply cursor_inv_initial|].
  intros l s1 s2. apply cursor_inv_step.
Qed.

(** C5, as amended: every dispatched request makes at most one report with
    an error (so there are at most as many as requests were dispatched),
    every call of [Cancel] makes exactly one report with [cancelled] true,
    and these reports are marked [completed] without [success]; a report
    with [success] has no error and is not cancelled. *)
Theorem C5_terminal_reports s0 ls s :
  initial s0 → run ls s0 = Some s →
  total has_error (reports s) ≤ Z.of_nat (mNextRequestIndex s) ∧
  (mNextRequestIndex s ≤ length (mRequests s))%nat ∧
  total is_cancelled (reports s) = cancels ls ∧
  Forall report_ok (reports s).
Proof.
  intros H0 Hrun.
  assert (Hr : reachable s) by (by exists s0, ls).
  destruct (reachable_cursor s Hr) as [Hlen Hidx].
  pose proof (reachable_error_reports s Hr) as Herr.
  pose proof (total_bounds reported (chains s) reported_le_1) as Hb.
  split; [lia|]. split; [done|]. split; [|by apply reports_ok].
  rewrite (cancelled_reports_run _ _ _ Hrun).
  destruct (initial_reports s0 H0) as [_ ->]. lia.
Qed.

Lemma C5_witness :
  ∃ s, run [LSched; LIssue 0; LCancel; LCancel] Demo.session = Some s ∧
       total is_cancelled (reports s) = 2 ∧
       total has_error (reports s) ≤ 1.
Proof.
  eexists. split; [vm_compute; reflexivity|].
  destruct (C5_terminal_reports Demo.session [LSched; LIssue 0; LCancel; LCancel]
              Demo_cancelled_twice) as (He & _ & Hc & _).
  - apply Demo_session_initial.
  - vm_compute. reflexivity.
  - split; [exact Hc|exact He].
Defined.

(** The project blob and a block are both answered with 404: there are two
    reports with an error, both marked completed. *)
Lemma C5_counterexample :
  ∃ s r1 r2,
    run [LSched; LIssue 0; LSched; LIssue 1;
         LFinished 0 (Demo.http 404); LFinished 1 (Demo.http 404);
         LRun 0; LRun 0; LRun 0; LRun 0; LRun 0;
         LRun 1; LRun 1; LRun 1; LRun 1; LRun 1] Demo.session = Some s ∧
    reports s = [r1; r2] ∧
    error r1 ≠ "" ∧ error r2 ≠ "" ∧
    completed r1 = true ∧ completed r2 = true.
Proof.
  eexists _, _, _. split; [vm_compute; reflexivity|].
  split; [reflexivity|]. by repeat split.
Qed.

(** *** C6: a malformed project blob *)

Lemma blob_reachable_step l s s' :
  Step l s s' → blob_reachable s' ≤ blob_reachable s.
Proof.
  intros HS.
  destruct HS; unfold blob_reachable, undispatched; simpl; try lia.
  all: split_ifs.
  all: try (rewrite (total_insert _ _ _ _ _ H);
            unfold chain_blob, with_pc, set_response; simpl; rewrite ?H0; simpl;
            destruct (chain_handler c); simpl;
            destruct (mProjectDownloaded s); simpl; try lia; congruence).
  rewrite total_app. simpl. rewrite (total_drop_lookup _ _ _ _ H2).
  unfold chain_blob, request_blob, new_chain. simpl. lia.
Qed.

Lemma blob_reachable_run ls s s' :
  run ls s = Some s' → blob_reachable s' ≤ blob_reachable s.
Proof.
  revert s. induction ls as [|l ls IH]; intros s Hrun; simpl in Hrun.
  - simplify_eq. lia.
  - destruct (step l s) as [s1|] eqn:Hs; simpl in Hrun; [|done].
    pose proof (blob_reachable_step _ _ _ (step_Step _ _ _ Hs)).
    pose proof (IH _ Hrun). lia.
Qed.

Lemma malformed_split data : malformed data → split_project_blob data = None.
Proof.
  unfold malformed, split_project_blob. intros [Hshort|[Hfit Hlong]].
  - destruct (Z.ltb_spec (Z.of_nat (length data)) 8); [done|lia].
  - destruct (Z.ltb_spec (Z.of_nat (length data)) 8); [done|].
    assert (0 ≤ le_u64 data).
    { unfold le_u64. generalize (take 8 data). intros l.
      induction l as [|b l IH]; simpl; lia. }
    rewrite Z.mod_small by lia.
    destruct (Z.ltb_spec (Z.of_nat (length data)) (8 + le_u64 data)); [done|lia].
Qed.

Lemma lookup_goto i c pc t c0 :
  chains t !! i = Some c0 → chains (goto i c pc t) !! i = Some (with_pc c pc).
Proof.
  intros Hc. simpl. apply list_lookup_insert_eq. by eapply lookup_lt_Some.
Qed.

Lemma run_cons l ls s s1 : step l s = Some s1 → run (l :: ls) s = run ls s1.
Proof. intros Hs. simpl. by rewrite Hs. Qed.

Lemma step_LRun i c s : chains s !! i = Some c → step (LRun i) s = run_chain i c s.
Proof. intros Hc. simpl. by rewrite Hc. Qed.

(** [OnFailure] from its first statement to its callback, run without
    interruption. *)
Lemma OnFailure_run s i c err again :
  chains s !! i = Some c → chain_pc c = Failing err again →
  ∃ s2, run [LRun i; LRun i; LRun i; LRun i; LRun i] s = Some s2 ∧
        mFailed s2 = true ∧
        reports s2 =
          reports s ++ [failure_report err (mDownloadedBlocks s)
                          (mProjectDownloaded s) s] ∧
        snapshot_db s2 = snapshot_db s ∧ cloud s2 = cloud s.
Proof.
  intros Hc Hpc.
  pose (sa := goto i c (FailRemove err again) (set_mFailed true s)).
  pose (sb := goto i (with_pc c (FailRemove err again)) (FailLoadBlocks err again)
                (RemoveRequest (chain_response c) sa)).
  pose (sc := goto i (with_pc (with_pc c (FailRemove err again)) (FailLoadBlocks err again))
                (FailLoadProject err again (mDownloadedBlocks s)) sb).
  pose (sd := goto i (with_pc (with_pc (with_pc c (FailRemove err again))
                                 (FailLoadBlocks err again))
                        (FailLoadProject err again (mDownloadedBlocks s)))
                (FailCallback err again (mDownloadedBlocks s) (mProjectDownloaded s)) sc).
  assert (Ha : chains sa !! i = Some (with_pc c (FailRemove err again)))
    by (by eapply lookup_goto).
  assert (Hb : chains sb !! i = Some (with_pc (with_pc c (FailRemove err again))
                                        (FailLoadBlocks err again)))
    by (by eapply (lookup_goto _ _ _ (RemoveRequest _ sa))).
  assert (Hcc : chains sc !! i =
                Some (with_pc (with_pc (with_pc c (FailRemove err again))
                                 (FailLoadBlocks err again))
                        (FailLoadProject err again (mDownloadedBlocks s))))
    by (by eapply lookup_goto).
  assert (Hd : chains sd !! i =
               Some (with_pc (with_pc (with_pc (with_pc c (FailRemove err again))
                                         (FailLoadBlocks err again))
                                (FailLoadProject err again (mDownloadedBlocks s)))
                       (FailCallback err again (mDownloadedBlocks s)
                          (mProjectDownloaded s))))
    by (by eapply lookup_goto).
  pose (se := goto i (with_pc (with_pc (with_pc (with_pc c (FailRemove err again))
                                         (FailLoadBlocks err again))
                                (FailLoadProject err again (mDownloadedBlocks s)))
                        (FailCallback err again (mDownloadedBlocks s)
                           (mProjectDownloaded s)))
                (if again then Removing2 else Finished)
                (mCallback (failure_report err (mDownloadedBlocks s)
                              (mProjectDownloaded s) sd) sd)).
  exists se. split; [|repeat split; reflexivity].
  rewrite (run_cons _ _ _ sa)
    by (rewrite (step_LRun _ _ _ Hc); unfold run_chain; by rewrite Hpc).
  rewrite (run_cons _ _ _ sb) by (by rewrite (step_LRun _ _ _ Ha)).
  rewrite (run_cons _ _ _ sc) by (by rewrite (step_LRun _ _ _ Hb)).
  rewrite (run_cons _ _ _ sd) by (by rewrite (step_LRun _ _ _ Hcc)).
  rewrite (run_cons _ _ _ se) by (by rewrite (step_LRun _ _ _ Hd)).
  done.
Qed.

(** C6, as amended: a project blob shorter than 8 bytes, or whose length
    prefix (not so large that adding 8 overflows 64 bits) exceeds the rest
    of the payload, is rejected: nothing is written, [OnFailure] reports a
    non-empty error with [projectBlobDownloaded] false, [completed] true and
    [success] false, the blob is not fetched again, and
    [mProjectDownloaded] stays false. *)
Theorem C6_malformed_project_blob s i c data env :
  reachable s →
  chains s !! i = Some c → chain_handler c = ProjectBlob →
  chain_pc c = Handling data → malformed data →
  ∃ s1 s2,
    step (LHandle i env) s = Some s1 ∧
    chains s1 !! i = Some (with_pc c (Failing msg_download_failed true)) ∧
    snapshot_db s1 = snapshot_db s ∧ cloud s1 = cloud s ∧
    reports s1 = reports s ∧
    run [LRun i; LRun i; LRun i; LRun i; LRun i] s1 = Some s2 ∧
    mFailed s2 = true ∧
    reports s2 =
      reports s ++ [ {| downloadedBlocks := mDownloadedBlocks s;
                        missingBlocks := mMissingBlocks s;
                        error := msg_download_failed;
                        projectBlobDownloaded := false;
                        completed := true; success := false;
                        cancelled := false |} ] ∧
    msg_download_failed ≠ "" ∧
    snapshot_db s2 = snapshot_db s ∧
    ∀ ls s3, run ls s1 = Some s3 →
      mProjectDownloaded s3 = false ∧
      fetches i (issued s3) = fetches i (issued s).
Proof.
  intros Hr Hc Hh Hpc Hmal.
  destruct (reachable_progress s Hr) as [[_ Hblob _ _ _] [_ Hone _]].
  assert (Hlt : (i < length (chains s))%nat) by (by eapply lookup_lt_Some).
  set (s1 := goto i c (Failing msg_download_failed true) s).
  assert (Hs1 : step (LHandle i env) s = Some s1).
  { simpl. rewrite Hc. simpl. rewrite Hpc, Hh.
    unfold OnProjectBlobDownloaded_commit. by rewrite malformed_split. }
  assert (Hc1 : chains s1 !! i = Some (with_pc c (Failing msg_download_failed true))).
  { simpl. by apply list_lookup_insert_eq. }
  assert (Hb1 : blob_reachable s1 ≤ 0).
  { unfold blob_reachable, undispatched in *. simpl.
    rewrite (total_insert _ _ _ _ _ Hc).
    unfold chain_blob at 2 3. simpl. rewrite Hpc, Hh. simpl. lia. }
  assert (Hpd : mProjectDownloaded s = false).
  { pose proof (total_lookup_le chain_blob _ _ _ chain_blob_nonneg Hc) as Hle.
    unfold chain_blob in Hle at 1 2. rewrite Hpc, Hh in Hle. simpl in Hle.
    pose proof (total_nonneg request_blob (undispatched s) request_blob_nonneg).
    unfold blob_reachable in Hblob.
    destruct (mProjectDownloaded s); [simpl in *; lia|done]. }
  destruct (OnFailure_run s1 i _ _ _ Hc1 eq_refl) as (s2 & Hrun2 & Hf2 & Hrep2 & Hdb2 & _).
  exists s1, s2. split; [done|]. split; [done|].
  split; [done|]. split; [done|]. split; [done|]. split; [done|].
  split; [done|]. split.
  { rewrite Hrep2. unfold failure_report. simpl. by rewrite Hpd. }
  split; [done|]. split; [done|].
  intros ls s3 Hrun. split.
  - pose proof (blob_reachable_run _ _ _ Hrun) as Hle.
    assert (Hr3 : reachable s3).
    { apply (reachable_run (LHandle i env :: ls) s); [done|].
      simpl. rewrite Hc. simpl. rewrite Hpc, Hh.
      unfold OnProjectBlobDownloaded_commit. rewrite malformed_split by done.
      exact Hrun. }
    destruct (reachable_progress s3 Hr3) as [Hp3 _].
    destruct (reachable_bounds s3 Hp3) as [_ Hb3].
    destruct (mProjectDownloaded s3); [simpl in *; lia|done].
  - apply (past_fetching_run ls s1 s3 i); [|done].
    exists (with_pc c (Failing msg_download_failed true)). by split.
Qed.

Lemma C6_witness :
  malformed Demo_short_dict ∧
  ∃ s1 s2,
    step (LHandle 0 Demo.env_ok) Demo_handling = Some s1 ∧
    run [LRun 0; LRun 0; LRun 0; LRun 0; LRun 0] s1 = Some s2 ∧
    mFailed s2 = true ∧ snapshot_db s2 = snapshot_db Demo_handling.
Proof.
  assert (Hmal : malformed Demo_short_dict).
  { right. vm_compute. split; reflexivity. }
  split; [exact Hmal|].
  destruct (C6_malformed_project_blob Demo_handling 0
              (Demo_blob_chain (Handling Demo_short_dict)) Demo_short_dict
              Demo.env_ok)
    as (s1 & s2 & H1 & _ & _ & _ & _ & H2 & H3 & _ & _ & H4 & _).
  - apply (Demo_reachable
             [LSched; LIssue 0; LFinished 0 (Demo.ok Demo_short_dict)]).
    vm_compute. reflexivity.
  - vm_compute. reflexivity.
  - reflexivity.
  - reflexivity.
  - exact Hmal.
  - exists s1, s2. repeat split; assumption.
Defined.

(** An empty payload: the failure report is marked completed. *)
Lemma C6_counterexample :
  ∃ s r,
    run [LSched; LIssue 0; LFinished 0 (Demo.ok []); LHandle 0 Demo.env_ok;
         LRun 0; LRun 0; LRun 0; LRun 0; LRun 0] Demo.session = Some s ∧
    reports s = [r] ∧ error r = msg_download_failed ∧
    projectBlobDownloaded r = false ∧ completed r = true ∧ completed r ≠ false.
Proof.
  eexists _, _. split; [vm_compute; reflexivity|].
  split; [reflexivity|]. by repeat split.
Qed.

(** *** C7: the request list *)

(** C7: when the constructor does not take its short cut, [mRequests] is
    the project blob followed by one request per block whose upper-case hash
    is not known, in the order of the snapshot, and neither it nor
    [mMissingBlocks] changes afterwards; with three blocks of which one is
    known there are three requests and two missing blocks. *)
Theorem C7_request_list cloud0 snap pinfo sinfo path now :
  let knownBlocks := CalculateKnownBlocks cloud0 snap pinfo sinfo in
  let s0 := construct cloud0 (Some snap) pinfo sinfo path now in
  Z.of_nat (length (Blocks sinfo)) < 2 ^ 64 →
  ¬ (size knownBlocks = length (Blocks sinfo) ∧
     already_synced cloud0 pinfo sinfo = true) →
  mRequests s0 =
    (FileUrl sinfo, ProjectBlob) ::
    ((fun block => (Url block, Block (ToUpper (Hash block)))) <$>
       filter (fun block => ToUpper (Hash block) ∉ knownBlocks) (Blocks sinfo)) ∧
  mRequestsThread s0 = Running ∧
  (∀ ls s, run ls s0 = Some s →
           mRequests s = mRequests s0 ∧ mMissingBlocks s = mMissingBlocks s0) ∧
  (length (Blocks sinfo) = 3%nat →
   length (filter (fun block => ToUpper (Hash block) ∈ knownBlocks) (Blocks sinfo))
     = 1%nat →
   length (mRequests s0) = 3%nat ∧ mMissingBlocks s0 = 2).
Proof.
  intros knownBlocks s0 Hlen Hnot.
  destruct (construct_cases cloud0 snap pinfo sinfo path now)
    as [(Hsize & Hsync & _)|(_ & Hreq & Hmiss & Hthread & _)];
    [by destruct Hnot|].
  fold s0 in Hreq, Hmiss, Hthread. fold knownBlocks in Hreq, Hmiss.
  split; [by rewrite Hreq, build_requests_spec|].
  split; [done|]. split.
  { intros ls s Hrun. by destruct (run_same_config _ _ _ Hrun). }
  intros H3 H1.
  destruct (missing_blocks_exact cloud0 snap pinfo sinfo Hlen) as [Hex Hle].
  fold knownBlocks in Hex, Hle.
  pose proof (filter_split_length (is_known knownBlocks) (Blocks sinfo)) as Hsplit.
  change (filter (fun block => ToUpper (Hash block) ∈ knownBlocks) (Blocks sinfo))
    with (filter (is_known knownBlocks) (Blocks sinfo)) in H1.
  assert (Hpos : (0 < size knownBlocks)%nat).
  { destruct (filter (is_known knownBlocks) (Blocks sinfo)) as [|b l] eqn:Hf; [done|].
    assert (Hb : b ∈ filter (is_known knownBlocks) (Blocks sinfo))
      by (rewrite Hf; left).
    apply list_elem_of_filter in Hb as [Hb _]. unfold is_known in Hb.
    destruct (decide (size knownBlocks = 0%nat)) as [Hz|]; [|lia].
    apply size_empty_inv in Hz. set_solver. }
  split.
  - rewrite Hreq, build_requests_spec. simpl. rewrite length_fmap. lia.
  - rewrite Hmiss, Hex. lia.
Qed.

Lemma C7_witness :
  mRequests Demo.session =
    [("https://host/blob", ProjectBlob); ("https://host/bb", Block "BB");
     ("https://host/cc", Block "CC")] ∧
  length (mRequests Demo.session) = 3%nat ∧ mMissingBlocks Demo.session = 2.
Proof.
  destruct (C7_request_list Demo.cloud0 Demo.snap Demo.pinfo Demo.sinfo "p.aup3" 0)
    as (_ & _ & _ & H).
  - vm_compute. reflexivity.
  - intros [Hsize _]. vm_compute in Hsize. discriminate.
  - split; [vm_compute; reflexivity|]. apply H; vm_compute; reflexivity.
Defined.

(** *** C8: the counter of downloaded blocks *)

Lemma downloaded_step l s s' :
  Step l s s' →
  (mDownloadedBlocks s' = mDownloadedBlocks s ∧ ¬ counts_block l s) ∨
  (mDownloadedBlocks s' = mDownloadedBlocks s + 1 ∧ counts_block l s).
Proof.
  destruct 1; try (left; split; [done|];
                   intros (j & cj & hash & Hl & Hj & Hpc & Hh); simplify_eq;
                   congruence).
  right. split; [done|]. by exists i, c, hash.
Qed.

(** C8: [mDownloadedBlocks] never decreases, grows by exactly one at the
    [fetch_add] that follows the commit of a block and at no other step,
    and never exceeds [mMissingBlocks], which no step changes. *)
Theorem C8_downloaded_blocks s :
  reachable s →
  0 ≤ mDownloadedBlocks s ≤ mMissingBlocks s ∧
  ∀ l s', step l s = Some s' →
    mMissingBlocks s' = mMissingBlocks s ∧
    mDownloadedBlocks s ≤ mDownloadedBlocks s' ∧
    (counts_block l s → mDownloadedBlocks s' = mDownloadedBlocks s + 1) ∧
    (¬ counts_block l s → mDownloadedBlocks s' = mDownloadedBlocks s).
Proof.
  intros Hr. destruct (reachable_progress s Hr) as [Hp Hc].
  destruct (reachable_bounds s Hp) as [Hb _].
  destruct Hp as [Hblocks _ _ _ Hd]. destruct Hc as [Hcb _ _].
  split; [lia|]. intros l s' Hs. apply step_Step in Hs.
  split; [by destruct (Step_same_config _ _ _ Hs)|].
  destruct (downloaded_step _ _ _ Hs) as [[He Hn]|[He Hy]].
  - split; [lia|]. split; [done|]. intros _. done.
  - split; [lia|]. split; [done|]. intros Hn. done.
Qed.

Lemma C8_witness :
  mDownloadedBlocks Demo_one_block = 1 ∧
  0 ≤ mDownloadedBlocks Demo_one_block ≤ mMissingBlocks Demo_one_block.
Proof.
  split; [reflexivity|].
  apply (C8_downloaded_blocks Demo_one_block).
  apply (Demo_reachable
           [LSched; LIssue 0; LSched; LIssue 1; LFinished 1 (Demo.ok []);
            LHandle 1 Demo.env_ok; LRun 1]).
  vm_compute. reflexivity.
Defined.

(** *** C9: the ceiling of six *)

(** C9: [mRequestsInProgress] never exceeds 6, and neither does the number
    of responses that are with the transport.  At the ceiling the scheduler
    makes no step while it still wants a request, it dispatches only from
    below the ceiling, and once a flag is set its next step leaves the
    loop. *)
Theorem C9_concurrency_ceiling s :
  reachable s →
  mRequestsInProgress s ≤ MAX_CONCURRENT_REQUESTS ∧
  total live (chains s) ≤ MAX_CONCURRENT_REQUESTS ∧
  MAX_CONCURRENT_REQUESTS = 6 ∧
  (mRequestsThread s = Running → WantsNextRequest s = true →
   mRequestsInProgress s = MAX_CONCURRENT_REQUESTS → step LSched s = None) ∧
  (∀ s', step LSched s = Some s' →
         mNextRequestIndex s' ≠ mNextRequestIndex s →
         WantsNextRequest s = true ∧
         mRequestsInProgress s < MAX_CONCURRENT_REQUESTS ∧
         mRequestsInProgress s' = mRequestsInProgress s + 1) ∧
  (mRequestsThread s = Running → WantsNextRequest s = false →
   step LSched s = Some (set_mRequestsThread Exited s)).
Proof.
  intros Hr. destruct (reachable_slots s Hr) as [_ Hle Hceil].
  split; [lia|]. split.
  { pose proof (total_le live in_flight (chains s) live_in_flight). lia. }
  split; [done|]. split.
  { intros Ht Hw Hfull. simpl. unfold RequestsThread_step.
    rewrite Ht, Hw. simpl.
    destruct (Z.leb_spec MAX_CONCURRENT_REQUESTS (mRequestsInProgress s)); [done|lia]. }
  split.
  { intros s' Hs Hidx. apply step_Step in Hs.
    inversion Hs; subst; simpl in *; [done|]. done. }
  intros Ht Hw. simpl. unfold RequestsThread_step. by rewrite Ht, Hw.
Qed.

Lemma C9_witness :
  mRequestsInProgress Demo_full = 6 ∧
  total live (chains Demo_full) = 6 ∧
  (mNextRequestIndex Demo_full < length (mRequests Demo_full))%nat ∧
  step LSched Demo_full = None.
Proof.
  split; [reflexivity|]. split; [reflexivity|].
  split; [vm_compute; lia|].
  destruct (C9_concurrency_ceiling Demo_full) as (_ & _ & _ & Hblocked & _).
  - exists Demo_many, Demo_six_labels. split.
    + exists Demo.cloud0, Demo.snap, Demo.pinfo, Demo_many_blocks, "p.aup3", 0.
      split; [vm_compute; reflexivity|reflexivity].
    + vm_compute. reflexivity.
  - apply Hblocked; reflexivity.
Defined.

(** *** C10: a known hash listed twice *)

Lemma no_success_step l s s' :
  progress_inv s → config_inv s →
  total request_blocks (mRequests s) < mMissingBlocks s →
  Step l s s' →
  Forall (fun r => success r = false) (emitted l s).
Proof.
  intros Hp Hc Hlt HS.
  destruct HS; simpl; rewrite ?H, ?H0; simpl; try (by constructor).
  constructor; [|constructor].
  eapply progress_report_no_success; eauto.
Qed.

(** C10, as amended: [mMissingBlocks] is the length of the block list minus
    the size of the known-block set, and the loop skips list entries; when
    two entries share an upper-case hash that is known, [mMissingBlocks]
    exceeds the number of block requests, [mDownloadedBlocks] stays below
    [mMissingBlocks], and no report ever has [success] true.  (Reports of
    [OnFailure] and [Cancel] are still marked [completed].) *)
Theorem C10_repeated_known_hash cloud0 snap pinfo sinfo path now i j a b :
  let knownBlocks := CalculateKnownBlocks cloud0 snap pinfo sinfo in
  let s0 := construct cloud0 (Some snap) pinfo sinfo path now in
  Z.of_nat (length (Blocks sinfo)) < 2 ^ 64 →
  i ≠ j → Blocks sinfo !! i = Some a → Blocks sinfo !! j = Some b →
  ToUpper (Hash a) = ToUpper (Hash b) → ToUpper (Hash a) ∈ knownBlocks →
  mMissingBlocks s0 =
    Z.of_nat (length (Blocks sinfo)) - Z.of_nat (size knownBlocks) ∧
  mRequests s0 = build_requests knownBlocks sinfo ∧
  Z.of_nat (length (mRequests s0)) - 1 < mMissingBlocks s0 ∧
  ∀ ls s, run ls s0 = Some s →
    mDownloadedBlocks s < mMissingBlocks s ∧
    Forall (fun r => success r = false) (reports s).
Proof.
  intros knownBlocks s0 Hlen Hij Hi Hj Hab Hin.
  assert (Hsub := CalculateKnownBlocks_subseteq cloud0 snap pinfo sinfo).
  fold knownBlocks in Hsub.
  assert (Htwice : (size knownBlocks <
                    length (filter (is_known knownBlocks) (Blocks sinfo)))%nat).
  { destruct (decide (i < j)%nat).
    - by eapply (known_entries_length_twice _ _ i j a b).
    - eapply (known_entries_length_twice _ _ j i b a); eauto; [lia|].
      by rewrite <- Hab. }
  pose proof (filter_split_length (is_known knownBlocks) (Blocks sinfo)) as Hsplit.
  destruct (missing_blocks_exact cloud0 snap pinfo sinfo Hlen) as [Hex _].
  fold knownBlocks in Hex.
  destruct (construct_cases cloud0 snap pinfo sinfo path now)
    as [(Hsize & _)|(_ & Hreq & Hmiss & Hthread & Hrep)];
    [fold knownBlocks in Hsize; lia|].
  fold s0 in Hreq, Hmiss, Hthread, Hrep. fold knownBlocks in Hreq, Hmiss.
  assert (Hcount : Z.of_nat (length (mRequests s0)) - 1
                   = total request_blocks (mRequests s0)).
  { rewrite Hreq, total_block_requests, build_requests_spec. simpl.
    rewrite length_fmap. lia. }
  assert (Hstrict : total request_blocks (mRequests s0) < mMissingBlocks s0).
  { rewrite Hreq, total_block_requests, Hmiss, Hex. lia. }
  split; [by rewrite Hmiss|]. split; [done|]. split; [lia|].
  intros ls s Hrun.
  assert (H0 : initial s0) by (by exists cloud0, snap, pinfo, sinfo, path, now).
  assert (Hinv : (progress_inv s ∧ config_inv s ∧
                  total request_blocks (mRequests s) < mMissingBlocks s) ∧
                 Forall (fun r => success r = false) (reports s)).
  { apply (run_invariant
             (fun s => (progress_inv s ∧ config_inv s ∧
                        total request_blocks (mRequests s) < mMissingBlocks s) ∧
                       Forall (fun r => success r = false) (reports s)))
      with (ls := ls) (s := s0); [| |done].
    - intros l s1 s2 [(Hp1 & Hc1 & Hlt1) Hrep1] HS.
      split; [split; [|split]|].
      + by eapply progress_inv_step.
      + by eapply config_inv_step.
      + destruct (Step_same_config _ _ _ HS) as [-> -> _ _ _ _]. done.
      + rewrite (Step_reports _ _ _ HS). apply Forall_app. split; [done|].
        by eapply no_success_step.
    - split; [split; [|split]|].
      + by apply progress_inv_initial.
      + by apply config_inv_initial.
      + done.
      + rewrite Hrep. constructor. }
  destruct Hinv as [(Hp & _ & Hlt) Hrep'].
  destruct (reachable_bounds s Hp) as [Hb _]. destruct Hp as [Hblocks _ _ _ _].
  split; [lia|done].
Qed.

Lemma C10_witness :
  mMissingBlocks Demo.session_twice = 1 ∧
  length (mRequests Demo.session_twice) = 1%nat ∧
  ∀ ls s, run ls Demo.session_twice = Some s →
    mDownloadedBlocks s < mMissingBlocks s ∧
    Forall (fun r => success r = false) (reports s).
Proof.
  destruct (C10_repeated_known_hash Demo.cloud_synced Demo.snap Demo.pinfo
              Demo.sinfo_twice "p.aup3" 0 0%nat 1%nat
              {| Hash := "aa"; Url := "https://host/aa" |}
              {| Hash := "AA"; Url := "https://host/aa" |})
    as (_ & _ & _ & H).
  - vm_compute. reflexivity.
  - discriminate.
  - reflexivity.
  - reflexivity.
  - reflexivity.
  - assert (Hk : CalculateKnownBlocks Demo.cloud_synced Demo.snap Demo.pinfo
                   Demo.sinfo_twice = {[ "AA" ]}) by (vm_compute; reflexivity).
    rewrite Hk. apply elem_of_singleton. reflexivity.
  - split; [vm_compute; reflexivity|]. split; [vm_compute; reflexivity|]. exact H.
Defined.

(** With the block listed twice, the project blob is answered with 404:
    the report of [OnFailure] is marked completed. *)
Lemma C10_counterexample :
  Blocks Demo.sinfo_twice !! 0%nat = Some {| Hash := "aa"; Url := "https://host/aa" |} ∧
  Blocks Demo.sinfo_twice !! 1%nat = Some {| Hash := "AA"; Url := "https://host/aa" |} ∧
  ToUpper "aa" = ToUpper "AA" ∧
  elements (CalculateKnownBlocks Demo.cloud_synced Demo.snap Demo.pinfo
              Demo.sinfo_twice) = ["AA"] ∧
  ∃ s r,
    run [LSched; LIssue 0; LFinished 0 (Demo.http 404);
         LRun 0; LRun 0; LRun 0; LRun 0; LRun 0] Demo.session_twice = Some s ∧
    reports s = [r] ∧ completed r = true.
Proof.
  split; [reflexivity|]. split; [reflexivity|]. split; [reflexivity|].
  split; [vm_compute; reflexivity|].
  eexists _, _. split; [vm_compute; reflexivity|]. split; reflexivity.
Qed.

(** ** Behaviour the amended statements leave open *)

(** A length prefix of 2^64 - 1: the 64-bit sum wraps to 7 and the second
    framing check lets the payload through, although no dictionary
    follows. *)
Example framing_check_wraps :
  le_u64 Demo_huge_prefix = 18446744073709551615 ∧
  (8 + le_u64 Demo_huge_prefix) mod 2 ^ 64 = 7 ∧
  is_Some (split_project_blob Demo_huge_prefix).
Proof.
  assert (H1 : (Z.of_nat (length Demo_huge_prefix) <? 8) = false)
    by (vm_compute; reflexivity).
  assert (H2 : (Z.of_nat (length Demo_huge_prefix)
                <? (8 + le_u64 Demo_huge_prefix) mod 2 ^ 64) = false)
    by (vm_compute; reflexivity).
  split; [vm_compute; reflexivity|]. split; [vm_compute; reflexivity|].
  unfold split_project_blob. rewrite H1, H2. by eexists.
Qed.

(** A handler that fails releases its slot twice: once in [OnFailure] and
    once when the callback of [DownloadBlob] ends. *)
Example slot_released_twice :
  mRequestsInProgress <$>
    run [LSched; LIssue 0; LFinished 0 (Demo.ok []); LHandle 0 Demo.env_ok;
         LRun 0; LRun 0; LRun 0; LRun 0; LRun 0; LRun 0] Demo.session
  = Some (-1).
Proof. vm_compute. reflexivity. Qed.

(** The three downloads finish together: each callback stores its result
    before any of them loads the members in [ReportProgress], and each one
    reports completion. *)
Example completion_reported_by_each :
  (fun s => success <$> reports s) <$>
    run [LSched; LIssue 0; LSched; LIssue 1; LSched; LIssue 2;
         LFinished 0 (Demo.ok Demo_empty_blob);
         LFinished 1 (Demo.ok []); LFinished 2 (Demo.ok []);
         LHandle 0 Demo.env_ok; LHandle 1 (Demo_block 2); LHandle 2 (Demo_block 3);
         LRun 0; LRun 1; LRun 2;
         LRun 0; LRun 0; LRun 0; LMark 0 1; LRun 0;
         LRun 1; LRun 1; LRun 1; LMark 1 1; LRun 1;
         LRun 2; LRun 2; LRun 2; LMark 2 1; LRun 2] Demo.session
  = Some [true; true; true].
Proof. vm_compute. reflexivity. Qed.

(** [Cancel] runs between the load of [mCancelled] in [ReportProgress] and
    its callback: the report of completion follows the report of
    cancellation. *)
Example completion_reported_after_cancel :
  (fun s => (fun r => (cancelled r, success r)) <$> reports s) <$>
    run [LSched; LIssue 0; LSched; LIssue 1; LSched; LIssue 2;
         LFinished 0 (Demo.ok Demo_empty_blob);
         LFinished 1 (Demo.ok []); LFinished 2 (Demo.ok []);
         LHandle 0 Demo.env_ok; LHandle 1 (Demo_block 2); LHandle 2 (Demo_block 3);
         LRun 0; LRun 1; LRun 2;
         LRun 0; LCancel; LRun 0; LRun 0; LMark 0 1; LRun 0] Demo.session
  = Some [(true, false); (false, true)].
Proof. vm_compute. reflexivity. Qed.

(** * Further properties of the code *)

(** ** CalculateKnownBlocks, row by row *)

Lemma elem_of_remoteBlocks sinfo h :
  h ∈ remoteBlocks sinfo ↔ ∃ block, block ∈ Blocks sinfo ∧ h = ToUpper (Hash block).
Proof.
  rewrite remoteBlocks_spec, elem_of_list_to_set, list_elem_of_fmap.
  split; intros (b & ? & ?); exists b; done.
Qed.

(** The three conditions of the [WHERE] clause. *)
Lemma elem_of_CalculateKnownBlocks cloud0 snap pinfo sinfo h :
  h ∈ CalculateKnownBlocks cloud0 snap pinfo sinfo ↔
  has_sampleblocks snap = true ∧
  (∃ block, block ∈ Blocks sinfo ∧ h = ToUpper (Hash block)) ∧
  ∃ block_id, block_hashes cloud0 !! (ProjectInfo_Id pinfo, block_id) = Some h ∧
              block_id ∈ dom (sampleblocks snap).
Proof.
  rewrite <- elem_of_remoteBlocks. unfold CalculateKnownBlocks.
  destruct (has_sampleblocks snap).
  - rewrite (foldl_union_singleton snd), elem_of_union, elem_of_list_to_set,
      list_elem_of_fmap.
    split.
    + intros [Hin|(row & -> & Hrow)]; [set_solver|].
      apply list_elem_of_filter in Hrow as [Hk Hrow].
      destruct row as [[pid bid] hash]. simpl in *.
      apply andb_prop in Hk as [Hk Hdom]. apply andb_prop in Hk as [Hpid Hrem].
      apply bool_decide_eq_true in Hpid, Hrem, Hdom. subst pid.
      apply elem_of_map_to_list in Hrow.
      split; [done|]. split; [done|]. by exists bid.
    + intros (_ & Hrem & bid & Hrow & Hdom). right.
      exists (ProjectInfo_Id pinfo, bid, h). split; [done|].
      apply list_elem_of_filter. split; [|by apply elem_of_map_to_list].
      simpl. by rewrite !bool_decide_eq_true_2.
  - split; [set_solver|]. by intros [? _].
Qed.


(** X1: the known blocks are exactly the hashes recorded for this project
    that are an upper-case hash of a block of the snapshot and whose block
    id has a row in the sample blocks of the attached file; when the
    statement cannot be created there is none, and there are never more
    known blocks than blocks in the snapshot. *)
Theorem X1_known_blocks_exact cloud0 snap pinfo sinfo :
  (∀ h, h ∈ CalculateKnownBlocks cloud0 snap pinfo sinfo ↔
        has_sampleblocks snap = true ∧
        (∃ block, block ∈ Blocks sinfo ∧ h = ToUpper (Hash block)) ∧
        ∃ block_id,
          block_hashes cloud0 !! (ProjectInfo_Id pinfo, block_id) = Some h ∧
          block_id ∈ dom (sampleblocks snap)) ∧
  (size (CalculateKnownBlocks cloud0 snap pinfo sinfo) ≤ length (Blocks sinfo))%nat.
Proof.
  split; [intros h; apply elem_of_CalculateKnownBlocks|].
  pose proof (CalculateKnownBlocks_subseteq cloud0 snap pinfo sinfo) as Hsub.
  pose proof (known_entries_length _ _ Hsub) as Hle.
  pose proof (filter_split_length
    (is_known (CalculateKnownBlocks cloud0 snap pinfo sinfo)) (Blocks sinfo)).
  lia.
Qed.

(** ** Sync and the constructor *)

(** X2: [Sync] hands out a session exactly when the file could be attached.
    Without it there is one report, {0, 0, "Failed to attach ...", false,
    false, false, false}; with it the reports so far are those of the
    constructor: none, and the thread runs, or the one of the short cut, and
    no thread was started. *)
Theorem X2_Sync_outcomes cloud0 attach pinfo sinfo path now :
  match Sync cloud0 attach pinfo sinfo path now with
  | (None, log) =>
      attach = None ∧
      log = [ {| downloadedBlocks := 0; missingBlocks := 0;
                 error := msg_attach_failed; projectBlobDownloaded := false;
                 completed := false; success := false; cancelled := false |} ]
  | (Some s, log) =>
      ∃ snap, attach = Some snap ∧
              s = construct cloud0 (Some snap) pinfo sinfo path now ∧
              snapshot_db s = snap ∧ log = reports s ∧
              ((log = [] ∧ mRequestsThread s = Running) ∨
               (log = [short_cut_report] ∧ mRequestsThread s = NotStarted ∧
                mRequests s = []))
  end.
Proof.
  unfold Sync. cbv zeta. destruct attach as [snap|]; [|done].
  pose proof (construct_fresh cloud0 snap pinfo sinfo path now) as Hfresh.
  cbv zeta in Hfresh.
  destruct Hfresh as (_ & _ & _ & _ & _ & _ & _ & _ & _ & Hatt).
  rewrite Hatt. exists snap. split; [done|]. split; [done|].
  unfold construct.
  destruct (bool_decide _ && already_synced cloud0 pinfo sinfo); simpl.
  - split; [done|]. split; [done|]. by right.
  - split; [done|]. split; [done|]. by left.
Qed.

(** X3: unless the short cut is taken, the constructor writes the record
    {project, snapshot, Downloading, now, path} for this project and
    nothing else: the records of other projects, the block hashes and the
    attached file are as before.  On the short cut nothing is written. *)
Theorem X3_constructor_marks_downloading cloud0 snap pinfo sinfo path now :
  let s0 := construct cloud0 (Some snap) pinfo sinfo path now in
  snapshot_db s0 = snap ∧
  block_hashes (cloud s0) = block_hashes cloud0 ∧
  (∀ other, other ≠ ProjectInfo_Id pinfo →
            GetProjectData (cloud s0) other = GetProjectData cloud0 other) ∧
  ((mRequestsThread s0 = NotStarted ∧ cloud s0 = cloud0 ∧
    record_of cloud0 pinfo sinfo SyncStatusSynced) ∨
   (mRequestsThread s0 = Running ∧
    GetProjectData (cloud s0) (ProjectInfo_Id pinfo) =
      Some {| ProjectId := ProjectInfo_Id pinfo;
              SnapshotId := SnapshotInfo_Id sinfo;
              SyncStatus := SyncStatusDownloading;
              LastRead := now; LocalPath := path |})).
Proof.
  intros s0. unfold s0, construct.
  destruct (bool_decide _) eqn:Hsize;
    [destruct (already_synced cloud0 pinfo sinfo) eqn:Hsync|]; simpl.
  - split; [done|]. split; [done|]. split; [done|]. left.
    split; [done|]. split; [done|].
    unfold already_synced in Hsync. unfold record_of.
    destruct (GetProjectData cloud0 (ProjectInfo_Id pinfo)) as [d|]; [|done].
    apply andb_prop in Hsync as [H1 H2].
    apply bool_decide_eq_true in H1, H2. by exists d.
  - split; [done|]. split; [done|]. split.
    + intros other Hne. unfold GetProjectData. simpl.
      by rewrite lookup_insert_ne.
    + right. split; [done|]. unfold GetProjectData. simpl.
      by rewrite lookup_insert_eq.
  - split; [done|]. split; [done|]. split.
    + intros other Hne. unfold GetProjectData. simpl.
      by rewrite lookup_insert_ne.
    + right. split; [done|]. unfold GetProjectData. simpl.
      by rewrite lookup_insert_eq.
Qed.

Lemma filter_none_known (blocks : list BlockDescriptor) :
  filter (fun b => ¬ is_known ∅ b) blocks = blocks.
Proof.
  induction blocks as [|b blocks IH]; [done|].
  rewrite filter_cons, decide_True, IH; [done|].
  unfold is_known. set_solver.
Qed.

(** X4: when the statement of [CalculateKnownBlocks] cannot be created no
    block counts as known: every block of a non-empty snapshot is requested
    after the project blob, in order, and all of them are missing. *)
Theorem X4_statement_failure_requests_all cloud0 snap pinfo sinfo path now :
  let s0 := construct cloud0 (Some snap) pinfo sinfo path now in
  has_sampleblocks snap = false →
  Blocks sinfo ≠ [] →
  Z.of_nat (length (Blocks sinfo)) < 2 ^ 64 →
  CalculateKnownBlocks cloud0 snap pinfo sinfo = ∅ ∧
  mRequestsThread s0 = Running ∧
  mRequests s0 =
    (FileUrl sinfo, ProjectBlob) ::
    ((fun block => (Url block, Block (ToUpper (Hash block)))) <$> Blocks sinfo) ∧
  mMissingBlocks s0 = Z.of_nat (length (Blocks sinfo)).
Proof.
  intros s0 Hstmt Hne Hlen.
  assert (Hk : CalculateKnownBlocks cloud0 snap pinfo sinfo = ∅).
  { unfold CalculateKnownBlocks. by rewrite Hstmt. }
  split; [done|].
  destruct (construct_cases cloud0 snap pinfo sinfo path now)
    as [(Hsize & _)|(_ & Hreq & Hmiss & Hthread & _)].
  - rewrite Hk, size_empty in Hsize. by destruct (Blocks sinfo).
  - fold s0 in Hreq, Hmiss, Hthread. rewrite Hk in Hreq, Hmiss.
    split; [done|]. split.
    + rewrite Hreq, build_requests_spec, filter_none_known. done.
    + rewrite Hmiss, size_empty, size_sub_exact by (lia || done). lia.
Qed.

Lemma X4_witness :
  mMissingBlocks
    (construct Demo.cloud0
       (Some {| project := None; autosave := None; has_sampleblocks := false;
                sampleblocks := {[ 1 := Demo.block1 ]} |})
       Demo.pinfo Demo.sinfo "p.aup3" 0) = 3.
Proof.
  apply (X4_statement_failure_requests_all Demo.cloud0 _ Demo.pinfo Demo.sinfo
           "p.aup3" 0).
  - reflexivity.
  - discriminate.
  - vm_compute. reflexivity.
Defined.

Lemma known_entries_le (knownBlocks : gset string) (blocks : list BlockDescriptor) :
  NoDup ((fun b => ToUpper (Hash b)) <$> blocks) →
  (length (filter (is_known knownBlocks) blocks) ≤ size knownBlocks)%nat.
Proof.
  intros Hnd.
  assert (Hsub : ((fun b => ToUpper (Hash b)) <$> filter (is_known knownBlocks) blocks)
                 ⊆+ elements knownBlocks).
  { apply NoDup_submseteq.
    - eapply sublist_NoDup; [exact Hnd|]. apply fmap_sublist, sublist_filter.
    - intros h Hh. apply list_elem_of_fmap in Hh as (b & -> & Hb).
      apply list_elem_of_filter in Hb as [Hb _]. by apply elem_of_elements. }
  apply submseteq_length in Hsub. by rewrite length_fmap in Hsub.
Qed.

Lemma missing_requests cloud0 snap pinfo sinfo path now :
  let s0 := construct cloud0 (Some snap) pinfo sinfo path now in
  Z.of_nat (length (Blocks sinfo)) < 2 ^ 64 →
  total request_blocks (mRequests s0) ≤ mMissingBlocks s0 ∧
  mMissingBlocks s0 ≤ Z.of_nat (length (Blocks sinfo)) ∧
  (NoDup ((fun block => ToUpper (Hash block)) <$> Blocks sinfo) →
   mMissingBlocks s0 = total request_blocks (mRequests s0)).
Proof.
  intros s0 Hlen.
  destruct (construct_cases cloud0 snap pinfo sinfo path now)
    as [(_ & _ & Hreq & Hmiss & _)|(_ & Hreq & Hmiss & _)];
    fold s0 in Hreq, Hmiss; rewrite Hreq, Hmiss.
  { simpl. split; [lia|]. split; [lia|]. done. }
  destruct (missing_blocks_exact cloud0 snap pinfo sinfo Hlen) as [Hex Hle].
  pose proof (filter_split_length
    (is_known (CalculateKnownBlocks cloud0 snap pinfo sinfo)) (Blocks sinfo)) as Hsplit.
  rewrite total_block_requests, Hex. split; [lia|]. split; [lia|].
  intros Hnd.
  pose proof (known_entries_le (CalculateKnownBlocks cloud0 snap pinfo sinfo)
                _ Hnd) as Hge.
  lia.
Qed.

(** X5: unless the short cut is taken, the number of block requests is at
    most [mMissingBlocks], which is at most the number of blocks of the
    snapshot; when no two blocks share an upper-case hash the two are
    equal, so that every missing block has its request. *)
Theorem X5_missing_blocks_bounds cloud0 snap pinfo sinfo path now :
  let s0 := construct cloud0 (Some snap) pinfo sinfo path now in
  Z.of_nat (length (Blocks sinfo)) < 2 ^ 64 →
  mRequestsThread s0 = Running →
  0 ≤ Z.of_nat (length (mRequests s0)) - 1 ≤ mMissingBlocks s0 ∧
  mMissingBlocks s0 ≤ Z.of_nat (length (Blocks sinfo)) ∧
  (NoDup ((fun block => ToUpper (Hash block)) <$> Blocks sinfo) →
   mMissingBlocks s0 = Z.of_nat (length (mRequests s0)) - 1).
Proof.
  intros s0 Hlen Hrun.
  destruct (construct_cases cloud0 snap pinfo sinfo path now)
    as [(_ & _ & _ & _ & Hthread & _)|(_ & Hreq & Hmiss & _)].
  { fold s0 in Hthread. congruence. }
  fold s0 in Hreq, Hmiss.
  destruct (missing_blocks_exact cloud0 snap pinfo sinfo Hlen) as [Hex Hle].
  pose proof (filter_split_length
    (is_known (CalculateKnownBlocks cloud0 snap pinfo sinfo)) (Blocks sinfo)) as Hsplit.
  assert (Hcount : Z.of_nat (length (mRequests s0)) - 1 =
            Z.of_nat (length (filter
              (fun b => ¬ is_known (CalculateKnownBlocks cloud0 snap pinfo sinfo) b)
              (Blocks sinfo)))).
  { rewrite Hreq, build_requests_spec. simpl. rewrite length_fmap. lia. }
  rewrite Hcount, Hmiss, Hex. split; [lia|]. split; [lia|].
  intros Hnd.
  pose proof (known_entries_le (CalculateKnownBlocks cloud0 snap pinfo sinfo)
                _ Hnd) as Hge.
  lia.
Qed.

Lemma X5_witness :
  mMissingBlocks Demo.session = Z.of_nat (length (mRequests Demo.session)) - 1.
Proof.
  apply (X5_missing_blocks_bounds Demo.cloud0 Demo.snap Demo.pinfo Demo.sinfo
           "p.aup3" 0).
  - vm_compute. reflexivity.
  - vm_compute. reflexivity.
  - repeat constructor; vm_compute; intros H;
      repeat (apply elem_of_cons in H as [H|H]; [discriminate|]);
      by apply elem_of_nil in H.
Defined.

(** ** The framing of the project blob *)

Lemma le_u64_bounds data : 0 ≤ le_u64 data < 2 ^ 64.
Proof.
  unfold le_u64.
  assert (Hgen : ∀ (n : nat) (l : list byte), (length l ≤ n)%nat →
            0 ≤ foldr (fun b acc => Z.of_N (Byte.to_N b) + 256 * acc) 0 l
              < 256 ^ Z.of_nat n).
  { induction n as [|n IH]; intros [|b l] Hl.
    - simpl. lia.
    - simpl in Hl. lia.
    - pose proof (Z.pow_pos_nonneg 256 (Z.of_nat (S n))). simpl foldr. lia.
    - simpl in Hl. specialize (IH l ltac:(lia)).
      pose proof (Byte.to_N_bounded b).
      rewrite Nat2Z.inj_succ, Z.pow_succ_r by lia. simpl foldr. lia. }
  specialize (Hgen 8%nat (take 8 data)).
  change (256 ^ Z.of_nat 8) with (2 ^ 64) in Hgen.
  apply Hgen. rewrite length_take. lia.
Qed.

Lemma le_u64_prefix (prefix rest : list byte) :
  length prefix = 8%nat → le_u64 (prefix ++ rest) = le_u64 prefix.
Proof.
  intros Hlen. unfold le_u64. rewrite take_app_length' by done.
  by rewrite <- Hlen, firstn_all.
Qed.

(** X6: a payload that passes both checks of [OnProjectBlobDownloaded]
    holds the eight-byte length field, read as a number below 2^64; and
    when the sum of the second check does not wrap (the field is below
    2^64 - 8), what the two [Bind] calls take tiles the payload behind the
    field: the payload is the field, the dictionary and the document, in
    this order, and the dictionary has exactly the announced length.
    (When the sum wraps, the pointer and the size of the second [Bind]
    wrap as well, and nothing is stated.) *)
Theorem X6_project_blob_frames data dict doc :
  split_project_blob data = Some (dict, doc) →
  (8 ≤ length data)%nat ∧
  0 ≤ le_u64 data < 2 ^ 64 ∧
  (8 + le_u64 data < 2 ^ 64 →
   data = take 8 data ++ dict ++ doc ∧
   Z.of_nat (length dict) = le_u64 data ∧
   Z.of_nat (length doc) = Z.of_nat (length data) - 8 - le_u64 data).
Proof.
  unfold split_project_blob. intros Hsplit.
  destruct (Z.ltb_spec (Z.of_nat (length data)) 8) as [|Hlen]; [done|].
  cbv zeta in Hsplit.
  destruct (Z.ltb_spec (Z.of_nat (length data)) ((8 + le_u64 data) mod 2 ^ 64))
    as [|Hfit]; [done|].
  simplify_eq. pose proof (le_u64_bounds data) as Hb.
  split; [lia|]. split; [exact Hb|].
  intros Hwrap. rewrite Z.mod_small in Hfit by lia.
  split; [by rewrite <- drop_drop, !take_drop|].
  rewrite length_take, !length_drop. lia.
Qed.

Lemma X6_witness :
  Demo_empty_blob = take 8 Demo_empty_blob ++ [] ++ [] ∧
  Z.of_nat (length (@nil byte)) = le_u64 Demo_empty_blob ∧
  Z.of_nat (length (@nil byte)) =
    Z.of_nat (length Demo_empty_blob) - 8 - le_u64 Demo_empty_blob.
Proof.
  apply (X6_project_blob_frames Demo_empty_blob [] []).
  - vm_compute. reflexivity.
  - vm_compute. reflexivity.
Defined.

(** X7: a payload made of an eight-byte field, a dictionary of the length
    the field announces and any document passes both checks of
    [OnProjectBlobDownloaded], and the dictionary and the document are
    what is bound to the two columns. *)
Theorem X7_project_blob_accepted (prefix dict doc : list byte) :
  length prefix = 8%nat →
  le_u64 prefix = Z.of_nat (length dict) →
  8 + Z.of_nat (length dict) < 2 ^ 64 →
  split_project_blob (prefix ++ dict ++ doc) = Some (dict, doc).
Proof.
  intros Hlen Hsize Hfit. unfold split_project_blob.
  rewrite le_u64_prefix, Hsize by done.
  rewrite !length_app, Hlen.
  destruct (Z.ltb_spec (Z.of_nat (8 + (length dict + length doc))) 8); [lia|].
  cbv zeta. rewrite Z.mod_small by lia.
  destruct (Z.ltb_spec (Z.of_nat (8 + (length dict + length doc)))
              (8 + Z.of_nat (length dict))); [lia|].
  rewrite Nat2Z.id. f_equal. f_equal.
  - rewrite <- Hlen, drop_app_length. by rewrite take_app_length.
  - rewrite <- Hlen at 1. rewrite <- drop_drop, drop_app_length.
    by rewrite drop_app_length.
Qed.

Lemma X7_witness :
  split_project_blob
    ([x02; x00; x00; x00; x00; x00; x00; x00] ++ [x0a; x0b] ++ [x0c]) =
  Some ([x0a; x0b], [x0c]).
Proof.
  apply X7_project_blob_accepted.
  - reflexivity.
  - vm_compute. reflexivity.
  - vm_compute. reflexivity.
Defined.

(** ** Induction over the steps themselves *)

Lemma reachable_step s l s' : reachable s → step l s = Some s' → reachable s'.
Proof.
  intros Hr Hs. apply (reachable_run [l] s); [done|].
  simpl. by rewrite Hs.
Qed.

Lemma reachable_step_invariant (P : Session → Prop) :
  (∀ s, initial s → P s) →
  (∀ l s s', reachable s → P s → step l s = Some s' → P s') →
  ∀ s, reachable s → P s.
Proof.
  intros Hinit Hstep s (s0 & ls & H0 & Hrun). revert s Hrun.
  induction ls as [|l ls IH] using rev_ind; intros s Hrun.
  - simpl in Hrun. simplify_eq. by apply Hinit.
  - rewrite run_app in Hrun.
    destruct (run ls s0) as [s1|] eqn:Hs1; simpl in Hrun; [|done].
    destruct (step l s1) as [s2|] eqn:Hs2; simpl in Hrun; [|done].
    simplify_eq. eapply Hstep; [|by apply IH|exact Hs2].
    by exists s0, ls.
Qed.

(** What a step writes to the two stores, and where it leaves the callback
    of a success handler. *)
Lemma step_stores l s s' :
  step l s = Some s' →
  (cloud s' = cloud s ∧ snapshot_db s' = snapshot_db s ∧
   ∀ i env, l ≠ LHandle i env) ∨
  (∃ i env c data msg,
     l = LHandle i env ∧ chains s !! i = Some c ∧ chain_pc c = Handling data ∧
     msg ≠ "" ∧ s' = goto i c (Failing msg true) s) ∨
  (∃ i now c pd bd,
     l = LMark i now ∧ chains s !! i = Some c ∧ chain_pc c = RPMark pd bd ∧
     cloud s' = MarkProjectInDB (mProjectInfo s) (mSnapshotInfo s) (mPath s)
                  now true (cloud s) ∧
     snapshot_db s' = snapshot_db s) ∨
  (∃ i env c data dict doc,
     l = LHandle i env ∧ chains s !! i = Some c ∧ chain_pc c = Handling data ∧
     chain_handler c = ProjectBlob ∧
     split_project_blob data = Some (dict, doc) ∧ db_result env = DbOk ∧
     s' = goto i c Storing
            (set_snapshot_db
               {| project := Some (dict, doc); autosave := None;
                  has_sampleblocks := has_sampleblocks (snapshot_db s);
                  sampleblocks := sampleblocks (snapshot_db s) |} s)) ∨
  (∃ i env c data blockHash blockData,
     l = LHandle i env ∧ chains s !! i = Some c ∧ chain_pc c = Handling data ∧
     chain_handler c = Block blockHash ∧
     decoded env = Some blockData ∧ db_result env = DbOk ∧
     s' = goto i c Storing
            (set_snapshot_db
               {| project := project (snapshot_db s);
                  autosave := autosave (snapshot_db s);
                  has_sampleblocks := has_sampleblocks (snapshot_db s);
                  sampleblocks :=
                    <[BlockId blockData := blockData]> (sampleblocks (snapshot_db s)) |}
               (set_cloud
                  {| projects := projects (cloud s);
                     block_hashes :=
                       <[(ProjectInfo_Id (mProjectInfo s), BlockId blockData) := blockHash]>
                         (block_hashes (cloud s)) |} s))).
Proof.
  intros Hstep. destruct l as [|i|i response|i env|i now|i|]; simpl in Hstep.
  - left. unfold RequestsThread_step in Hstep.
    destruct (mRequestsThread s); try done.
    destruct (negb (WantsNextRequest s)); [by simplify_eq|].
    destruct (MAX_CONCURRENT_REQUESTS <=? mRequestsInProgress s); [done|].
    destruct (mRequests s !! mNextRequestIndex s); by simplify_eq.
  - left. destruct (chains s !! i) as [c|]; simpl in Hstep; [|done].
    destruct (chain_pc c); by simplify_eq.
  - left. destruct (chains s !! i) as [c|]; simpl in Hstep; [|done].
    destruct (chain_pc c); simplify_eq.
    unfold finished. by destruct (classify response retries).
  - right. destruct (chains s !! i) as [c|] eqn:Hc; simpl in Hstep; [|done].
    destruct (chain_pc c) eqn:Hpc; try done.
    destruct (chain_handler c) eqn:Hh; simplify_eq.
    + unfold OnProjectBlobDownloaded_commit.
      destruct (split_project_blob data) as [[dict doc]|] eqn:Hsplit;
        [|left; by exists i, env, c, data, msg_download_failed].
      destruct (db_result env) eqn:Hdb;
        try (left; by exists i, env, c, data, msg_update_failed).
      right. right. left. by exists i, env, c, data, dict, doc.
    + unfold OnBlockDownloaded_commit.
      destruct (decoded env) as [blockData|] eqn:Hdec;
        [|left; by exists i, env, c, data, msg_decompress_failed].
      destruct (db_result env) eqn:Hdb.
      * right. right. right. by exists i, env, c, data, hash, blockData.
      * left. by exists i, env, c, data, msg_hashes_failed.
      * left. by exists i, env, c, data, msg_block_failed.
      * left. by exists i, env, c, data, msg_update_failed.
  - destruct (chains s !! i) as [c|] eqn:Hc; simpl in Hstep; [|done].
    destruct (chain_pc c) eqn:Hpc; simplify_eq.
    right. right. left. by exists i, now, c, pd, bd.
  - left. destruct (chains s !! i) as [c|]; simpl in Hstep; [|done].
    unfold run_chain in Hstep.
    destruct (chain_pc c); try done; simplify_eq; try done.
    + by destruct (chain_handler c); simplify_eq.
    + by destruct (mCancelled s); simplify_eq.
    + by destruct (bool_decide _ && pd); simplify_eq.
  - left. by destruct (mAttached s); simplify_eq.
Qed.

Lemma MarkProjectInDB_record pinfo sinfo path now ok db :
  GetProjectData (MarkProjectInDB pinfo sinfo path now ok db) (ProjectInfo_Id pinfo) =
  Some {| ProjectId := ProjectInfo_Id pinfo; SnapshotId := SnapshotInfo_Id sinfo;
          SyncStatus := if ok then SyncStatusSynced else SyncStatusDownloading;
          LastRead := now; LocalPath := path |}.
Proof.
  unfold MarkProjectInDB, GetProjectData, UpdateProjectData. simpl.
  by rewrite lookup_insert_eq.
Qed.

Lemma already_synced_record cloud0 pinfo sinfo :
  already_synced cloud0 pinfo sinfo = true ↔
  record_of cloud0 pinfo sinfo SyncStatusSynced.
Proof.
  unfold already_synced, record_of. split.
  - destruct (GetProjectData cloud0 (ProjectInfo_Id pinfo)) as [d|]; [|done].
    intros H. apply andb_prop in H as [H1 H2].
    apply bool_decide_eq_true in H1, H2. by exists d.
  - intros (d & -> & H1 & H2).
    apply andb_true_intro. split; by apply bool_decide_eq_true.
Qed.

Lemma record_of_step l s s' :
  step l s = Some s' →
  record_of (cloud s) (mProjectInfo s) (mSnapshotInfo s) SyncStatusSynced →
  record_of (cloud s') (mProjectInfo s') (mSnapshotInfo s') SyncStatusSynced.
Proof.
  intros Hstep Hrec.
  destruct (Step_same_config _ _ _ (step_Step _ _ _ Hstep))
    as [_ _ _ Hpi Hsi _].
  rewrite Hpi, Hsi.
  destruct (step_stores _ _ _ Hstep)
    as [(Hc & _)|[(i & env & c & data & msg & _ & _ & _ & _ & ->)
       |[(i & now & c & pd & bd & _ & _ & _ & Hc & _)
       |[(i & env & c & data & dict & doc & _ & _ & _ & _ & _ & _ & ->)
       |(i & env & c & data & h & b & _ & _ & _ & _ & _ & _ & ->)]]]].
  - by rewrite Hc.
  - done.
  - rewrite Hc. unfold record_of. rewrite MarkProjectInDB_record. eauto.
  - done.
  - done.
Qed.

Lemma project_row_step l s s' :
  step l s = Some s' →
  is_Some (project (snapshot_db s)) → is_Some (project (snapshot_db s')).
Proof.
  intros Hstep Hrow.
  destruct (step_stores _ _ _ Hstep)
    as [(_ & Hc & _)|[(i & env & c & data & msg & _ & _ & _ & _ & ->)
       |[(i & now & c & pd & bd & _ & _ & _ & _ & Hc)
       |[(i & env & c & data & dict & doc & _ & _ & _ & _ & _ & _ & ->)
       |(i & env & c & data & h & b & _ & _ & _ & _ & _ & _ & ->)]]]].
  - by rewrite Hc.
  - done.
  - by rewrite Hc.
  - simpl. eauto.
  - done.
Qed.

Lemma Step_project_downloaded l s s' :
  Step l s s' → mProjectDownloaded s = true → mProjectDownloaded s' = true.
Proof. destruct 1; simpl; done. Qed.

Lemma Step_thread l s s' :
  Step l s s' → mRequestsThread s' ≠ NotStarted → mRequestsThread s ≠ NotStarted.
Proof. destruct 1; simpl; try done; congruence. Qed.

Lemma Step_downloaded_le l s s' :
  Step l s s' → mDownloadedBlocks s ≤ mDownloadedBlocks s'.
Proof. destruct 1; simpl; lia. Qed.

Lemma downloaded_le_missing s :
  progress_inv s → config_inv s → mDownloadedBlocks s ≤ mMissingBlocks s.
Proof.
  intros Hp [Hb _ _]. destruct (reachable_bounds s Hp) as [Hle _].
  pose proof (pi_blocks s Hp). lia.
Qed.

Lemma complete_step l s s' :
  reachable s → step l s = Some s' → complete s → complete s'.
Proof.
  intros Hr Hstep [Hpd Hbd].
  pose proof (step_Step _ _ _ Hstep) as HS.
  destruct (reachable_progress s' (reachable_step _ _ _ Hr Hstep)) as [Hp Hc].
  pose proof (downloaded_le_missing s' Hp Hc).
  pose proof (Step_downloaded_le _ _ _ HS).
  destruct (Step_same_config _ _ _ HS) as [_ Hm _ _ _ _].
  split; [by eapply Step_project_downloaded|lia].
Qed.

Lemma marked_mono s s' c :
  mMissingBlocks s' = mMissingBlocks s →
  (record_of (cloud s) (mProjectInfo s) (mSnapshotInfo s) SyncStatusSynced →
   record_of (cloud s') (mProjectInfo s') (mSnapshotInfo s') SyncStatusSynced) →
  marked s c → marked s' c.
Proof.
  unfold marked. intros Hm Hrec. destruct (chain_pc c); try done.
  - by rewrite Hm.
  - rewrite Hm. auto.
Qed.

Lemma blob_stored_mono s s' c :
  (is_Some (project (snapshot_db s)) → is_Some (project (snapshot_db s'))) →
  blob_stored s c → blob_stored s' c.
Proof.
  unfold blob_stored. intros Hrow.
  destruct (chain_handler c); [|done]. destruct (chain_pc c); auto.
Qed.

Lemma record_inv_initial s : initial s → record_inv s.
Proof.
  intros (cloud0 & snap & pinfo & sinfo & path & now & Hlen & ->).
  unfold construct.
  destruct (bool_decide _) eqn:Hsize;
    [destruct (already_synced cloud0 pinfo sinfo) eqn:Hsync|]; simpl.
  - constructor; simpl; try done.
    intros r Hr _. by apply already_synced_record.
  - constructor; simpl; try done.
    + intros r Hr. by apply elem_of_nil in Hr.
    + intros _. eexists. split; [apply MarkProjectInDB_record|]. done.
  - constructor; simpl; try done.
    + intros r Hr. by apply elem_of_nil in Hr.
    + intros _. eexists. split; [apply MarkProjectInDB_record|]. done.
Qed.

Lemma Forall_insert_lookup {A} (P Q : A → Prop) (l : list A) i x y :
  l !! i = Some x → (∀ z, P z → Q z) → Forall P l → (P x → Q y) →
  Forall Q (<[i := y]> l).
Proof.
  intros Hi Himp Hall Hy. apply Forall_insert.
  - eapply Forall_impl; [exact Hall|exact Himp].
  - apply Hy. by eapply Forall_lookup_1.
Qed.

(** The chains after a step: one is replaced or one is added. *)
Lemma Step_chains l s s' :
  Step l s s' →
  chains s' = chains s ∨
  (∃ request, l = LSched ∧ chains s' = chains s ++ [new_chain request]) ∨
  (∃ i c c', chains s !! i = Some c ∧ chains s' = <[i := c']> (chains s) ∧
             chain_handler c' = chain_handler c ∧ chain_url c' = chain_url c).
Proof.
  destruct 1; simpl; eauto; right; right; eauto 10.
Qed.

Lemma marked_step l s s' :
  reachable s → record_inv s → step l s = Some s' →
  Forall (marked s') (chains s').
Proof.
  intros Hr Hinv Hstep.
  pose proof (ri_marked s Hinv) as Hm.
  pose proof (record_of_step _ _ _ Hstep) as Hrec.
  pose proof (step_Step _ _ _ Hstep) as HS.
  destruct (Step_same_config _ _ _ HS) as [_ Hmiss _ _ _ _].
  assert (Hold : ∀ c, marked s c → marked s' c).
  { intros c. by apply marked_mono. }
  clear Hstep.
  destruct HS; simpl chains.
  all: try (eapply Forall_impl; [exact Hm|exact Hold]).
  all: try (eapply Forall_insert_lookup; [eassumption|exact Hold|exact Hm|];
            unfold marked at 2; simpl; split_ifs; try done).
  - apply Forall_app. split; [eapply Forall_impl; [exact Hm|exact Hold]|].
    by repeat constructor.
  - intros _ _. unfold record_of. simpl. rewrite MarkProjectInDB_record.
    eauto.
  - intros _.
    match goal with
    | Ht : _ && _ = true |- _ =>
        apply andb_prop in Ht as [H1 H2]; apply bool_decide_eq_true in H1
    end.
    done.
  - intros _ Ht. congruence.
Qed.

Lemma handle_blob_row i env s s' c c' :
  step (LHandle i env) s = Some s' →
  chains s !! i = Some c → chain_handler c = ProjectBlob →
  chains s' !! i = Some c' → chain_pc c' = Storing →
  is_Some (project (snapshot_db s')).
Proof.
  intros Hstep Hc Hh Hc' Hpc'.
  destruct (step_stores _ _ _ Hstep)
    as [(_ & _ & Hne)|[(i1 & env1 & c1 & data & msg & Hl & Hc1 & _ & _ & ->)
       |[(i1 & now & c1 & pd & bd & Hl & _)
       |[(i1 & env1 & c1 & data & dict & doc & Hl & _ & _ & _ & _ & _ & ->)
       |(i1 & env1 & c1 & data & h & b & Hl & Hc1 & _ & Hh1 & _)]]]].
  - by destruct (Hne i env).
  - simplify_eq. rewrite (lookup_goto _ _ _ _ _ Hc) in Hc'.
    by simplify_eq.
  - done.
  - simpl. eauto.
  - simplify_eq. congruence.
Qed.

Lemma stored_step l s s' :
  record_inv s → step l s = Some s' →
  Forall (blob_stored s') (chains s') ∧
  (mProjectDownloaded s' = true → is_Some (project (snapshot_db s'))).
Proof.
  intros Hinv Hstep.
  pose proof (ri_stored s Hinv) as Hst.
  pose proof (ri_project s Hinv) as Hpd.
  pose proof (project_row_step _ _ _ Hstep) as Hrow.
  pose proof (step_Step _ _ _ Hstep) as HS.
  assert (Hold : ∀ c, blob_stored s c → blob_stored s' c).
  { intros c. by apply blob_stored_mono. }
  destruct HS; simpl chains; simpl mProjectDownloaded.
  all: split; [|try (intros Ht; apply Hrow, Hpd, Ht)].
  all: try (eapply Forall_impl; [exact Hst|exact Hold]).
  all: try (eapply Forall_insert_lookup; [eassumption|exact Hold|exact Hst|];
            unfold blob_stored at 2; simpl; split_ifs;
            try (by destruct (chain_handler c))).
  - apply Forall_app. split; [eapply Forall_impl; [exact Hst|exact Hold]|].
    repeat constructor. unfold blob_stored, new_chain. simpl.
    by destruct request.2.
  - intros _. destruct (chain_handler c) eqn:Hh; [|done].
    change (is_Some (project (snapshot_db
              (goto i c Storing (set_snapshot_db snap' (set_cloud cloud' s)))))).
    apply (handle_blob_row i env s _ c (with_pc c Storing) Hstep H Hh);
      [|done].
    by eapply lookup_goto.
  - intros _. apply Hrow.
    pose proof (Forall_lookup_1 _ _ _ _ Hst H) as Hb.
    unfold blob_stored in Hb. by rewrite H0, H1 in Hb.
Qed.

Lemma reports_step l s s' :
  record_inv s → step l s = Some s' →
  ∀ r, r ∈ reports s' → success r = true →
       record_of (cloud s') (mProjectInfo s') (mSnapshotInfo s') SyncStatusSynced.
Proof.
  intros Hinv Hstep r Hr Hsucc.
  apply (record_of_step _ _ _ Hstep).
  rewrite (Step_reports _ _ _ (step_Step _ _ _ Hstep)) in Hr.
  apply elem_of_app in Hr as [Hr|Hr]; [by eapply ri_reports|].
  destruct l as [|i|i response|i env|i now|i|]; simpl in Hr;
    try (by apply elem_of_nil in Hr).
  - destruct (chains s !! i) as [c|] eqn:Hc; [|by apply elem_of_nil in Hr].
    pose proof (Forall_lookup_1 _ _ _ _ (ri_marked s Hinv) Hc) as Hm.
    unfold marked in Hm.
    destruct (chain_pc c); try (by apply elem_of_nil in Hr).
    + apply list_elem_of_singleton in Hr as ->. by apply Hm.
    + by apply list_elem_of_singleton in Hr as ->.
  - by apply list_elem_of_singleton in Hr as ->.
Qed.

Lemma record_step l s s' :
  reachable s → record_inv s → step l s = Some s' →
  mRequestsThread s' ≠ NotStarted →
  ∃ d, GetProjectData (cloud s') (ProjectInfo_Id (mProjectInfo s')) = Some d ∧
       SnapshotId d = SnapshotInfo_Id (mSnapshotInfo s') ∧
       LocalPath d = mPath s' ∧
       (SyncStatus d = SyncStatusSynced → complete s').
Proof.
  intros Hr Hinv Hstep Hthread.
  pose proof (step_Step _ _ _ Hstep) as HS.
  destruct (ri_record s Hinv (Step_thread _ _ _ HS Hthread))
    as (d & Hd & Hsid & Hpath & Hsync).
  destruct (Step_same_config _ _ _ HS) as [_ _ _ Hpi Hsi Hp].
  rewrite Hpi, Hsi, Hp.
  pose proof (complete_step _ _ _ Hr Hstep) as Hcomp.
  assert (Hsync' : SyncStatus d = SyncStatusSynced → complete s') by auto.
  clear Hpi Hsi Hp HS Hthread.
  destruct (step_stores _ _ _ Hstep)
    as [(Hc & _)|[(i & env & c & data & msg & _ & _ & _ & _ & Hs')
       |[(i & now & c & pd & bd & _ & Hci & Hpc & Hc & _)
       |[(i & env & c & data & dict & doc & _ & _ & _ & _ & _ & _ & Hs')
       |(i & env & c & data & h & b & _ & _ & _ & _ & _ & _ & Hs')]]]].
  - rewrite Hc. exists d. auto.
  - exists d. rewrite Hs' in *. simpl. auto.
  - rewrite Hc, MarkProjectInDB_record. eexists. split; [done|]. simpl.
    split; [done|]. split; [done|]. intros _. apply Hcomp.
    pose proof (Forall_lookup_1 _ _ _ _ (ri_marked s Hinv) Hci) as Hm.
    unfold marked in Hm. rewrite Hpc in Hm. destruct Hm as [-> ->].
    destruct (reachable_progress s Hr) as [Hp' Hc'].
    pose proof (Forall_lookup_1 _ _ _ _ (pi_locals s Hp') Hci) as Hl.
    unfold locals_ok in Hl. rewrite Hpc in Hl. destruct Hl as [Hl1 Hl2].
    pose proof (downloaded_le_missing s Hp' Hc').
    split; [auto|lia].
  - exists d. rewrite Hs' in *. simpl. auto.
  - exists d. rewrite Hs' in *. unfold GetProjectData. simpl. auto.
Qed.

Lemma record_inv_step l s s' :
  reachable s → record_inv s → step l s = Some s' → record_inv s'.
Proof.
  intros Hr Hinv Hstep.
  destruct (stored_step _ _ _ Hinv Hstep) as [Hst Hpd].
  constructor; [by eapply marked_step|done|done|by eapply reports_step|].
  by eapply record_step.
Qed.

Lemma reachable_record s : reachable s → record_inv s.
Proof.
  apply (reachable_step_invariant record_inv).
  - apply record_inv_initial.
  - intros l s1 s2. apply record_inv_step.
Qed.

(** X8: whenever the callback has been given a report with [success], the
    record of the project names this snapshot and says Synced: the mark in
    the database is never behind the report, whatever the interleaving. *)
Theorem X8_success_report_synced s r :
  reachable s → r ∈ reports s → success r = true →
  record_of (cloud s) (mProjectInfo s) (mSnapshotInfo s) SyncStatusSynced.
Proof. intros Hr. apply ri_reports. by apply reachable_record. Qed.

Lemma Demo_complete_run :
  run Demo_complete_labels Demo.session = Some Demo_complete.
Proof. vm_compute. reflexivity. Qed.

Lemma Demo_complete_reachable : reachable Demo_complete.
Proof. eapply Demo_reachable. exact Demo_complete_run. Qed.

Lemma Demo_complete_success :
  {| downloadedBlocks := 2; missingBlocks := 2; error := "";
     projectBlobDownloaded := true; completed := true;
     success := true; cancelled := false |} ∈ reports Demo_complete.
Proof.
  assert (Hrep : reports Demo_complete =
            [ {| downloadedBlocks := 0; missingBlocks := 2; error := "";
                 projectBlobDownloaded := true; completed := false;
                 success := false; cancelled := false |};
              {| downloadedBlocks := 1; missingBlocks := 2; error := "";
                 projectBlobDownloaded := true; completed := false;
                 success := false; cancelled := false |};
              {| downloadedBlocks := 2; missingBlocks := 2; error := "";
                 projectBlobDownloaded := true; completed := true;
                 success := true; cancelled := false |} ])
    by (vm_compute; reflexivity).
  rewrite Hrep. do 2 constructor 2. constructor 1.
Qed.

Lemma X8_witness :
  record_of (cloud Demo_complete) (mProjectInfo Demo_complete)
    (mSnapshotInfo Demo_complete) SyncStatusSynced.
Proof.
  apply (X8_success_report_synced Demo_complete
           {| downloadedBlocks := 2; missingBlocks := 2; error := "";
              projectBlobDownloaded := true; completed := true;
              success := true; cancelled := false |}).
  - exact Demo_complete_reachable.
  - exact Demo_complete_success.
  - reflexivity.
Defined.

(** X9: in a session that started its thread, the record of the project
    always exists, names this snapshot and this path, and says Synced only
    when the project blob has been committed and stored and every missing
    block has been counted: the project is never marked as synced early. *)
Theorem X9_synced_only_when_complete s :
  reachable s → mRequestsThread s ≠ NotStarted →
  ∃ d, GetProjectData (cloud s) (ProjectInfo_Id (mProjectInfo s)) = Some d ∧
       SnapshotId d = SnapshotInfo_Id (mSnapshotInfo s) ∧
       LocalPath d = mPath s ∧
       (SyncStatus d = SyncStatusSynced →
        mProjectDownloaded s = true ∧
        mDownloadedBlocks s = mMissingBlocks s ∧
        is_Some (project (snapshot_db s))).
Proof.
  intros Hr Hthread. pose proof (reachable_record s Hr) as Hinv.
  destruct (ri_record s Hinv Hthread) as (d & Hd & Hsid & Hpath & Hsync).
  exists d. repeat (split; [done|]). intros Hs.
  destruct (Hsync Hs) as [Hpd Hbd].
  split; [done|]. split; [done|]. by apply (ri_project s Hinv).
Qed.

Lemma X9_witness :
  ∃ d, GetProjectData (cloud Demo_complete)
         (ProjectInfo_Id (mProjectInfo Demo_complete)) = Some d ∧
       SnapshotId d = SnapshotInfo_Id (mSnapshotInfo Demo_complete) ∧
       LocalPath d = mPath Demo_complete ∧
       (SyncStatus d = SyncStatusSynced →
        mProjectDownloaded Demo_complete = true ∧
        mDownloadedBlocks Demo_complete = mMissingBlocks Demo_complete ∧
        is_Some (project (snapshot_db Demo_complete))).
Proof.
  apply (X9_synced_only_when_complete Demo_complete).
  - exact Demo_complete_reachable.
  - vm_compute. discriminate.
Defined.

Lemma complete_not_failed s :
  progress_inv s → config_inv s → complete s → mFailed s = false.
Proof.
  intros Hp [Hcb Hcp _] [Hpd Hbd].
  destruct (reachable_bounds s Hp) as [Hb1 Hb2].
  destruct (mFailed s) eqn:Hf; [exfalso|done].
  pose proof (pi_failed s Hp) as Hlt. rewrite Hf in Hlt. simpl in Hlt.
  pose proof (total_nonneg failing (chains s) failing_nonneg).
  rewrite Hpd in Hb2. simpl in Hb2. lia.
Qed.

Lemma after_failure_failed s i c :
  slots_inv s → chains s !! i = Some c → after_failure c = 1 → mFailed s = true.
Proof.
  intros Hs Hc Ha. destruct (mFailed s) eqn:Hf; [done|exfalso].
  destruct (si_exact s Hs) as [_ H0]; [by rewrite Hf|].
  pose proof (total_lookup_le after_failure _ _ _ after_failure_nonneg Hc). lia.
Qed.

Lemma Step_failed l s s' : Step l s s' → mFailed s = true → mFailed s' = true.
Proof. destruct 1; simpl; done. Qed.

Lemma complete_Step l s s' :
  progress_inv s → config_inv s → Step l s s' → complete s → complete s'.
Proof.
  intros Hp Hc HS [Hpd Hbd].
  pose proof (downloaded_le_missing s'
                (progress_inv_step _ _ _ Hp HS) (config_inv_step _ _ _ Hc HS)).
  pose proof (Step_downloaded_le _ _ _ HS).
  destruct (Step_same_config _ _ _ HS) as [_ Hm _ _ _ _].
  split; [by eapply Step_project_downloaded|lia].
Qed.

Lemma outcome_inv_initial s : initial s → outcome_inv s.
Proof.
  intros (cloud0 & snap & pinfo & sinfo & path & now & Hlen & ->).
  unfold construct.
  destruct (bool_decide _ && already_synced cloud0 pinfo sinfo); simpl.
  - constructor; simpl; [by left| |done].
    intros r Hr. apply list_elem_of_singleton in Hr as ->. done.
  - constructor; simpl; try done; intros r Hr; by apply elem_of_nil in Hr.
Qed.

Lemma outcome_inv_step l s s' :
  progress_inv s → config_inv s → slots_inv s →
  outcome_inv s → Step l s s' → outcome_inv s'.
Proof.
  intros Hp Hc Hsl [Hsucc Herr Hidle] HS.
  pose proof (complete_Step _ _ _ Hp Hc HS) as Hcomp.
  pose proof (Step_failed _ _ _ HS) as Hfail.
  pose proof (Step_reports _ _ _ HS) as Hrep.
  constructor.
  - intros r Hr Hs. rewrite Hrep in Hr. apply elem_of_app in Hr as [Hr|Hr].
    + destruct (Hsucc r Hr Hs) as [Ht|Hcm]; [|right; by apply Hcomp].
      destruct (Hidle Ht) as [_ Hch]. left.
      destruct HS; simpl; try done; try congruence;
        rewrite Hch in *; by try done.
    + right. apply Hcomp. clear Hcomp Hfail Hrep.
      destruct HS; simpl in Hr; rewrite ?H, ?H0 in Hr; simpl in Hr;
        try (by apply elem_of_nil in Hr);
        apply list_elem_of_singleton in Hr as ->; simpl in Hs; try done.
      apply andb_prop in Hs as [Hbd Hpd].
      apply bool_decide_eq_true in Hbd.
      pose proof (Forall_lookup_1 _ _ _ _ (pi_locals s Hp) H) as Hl.
      unfold locals_ok in Hl. rewrite H0 in Hl. destruct Hl as [Hl1 Hl2].
      pose proof (downloaded_le_missing s Hp Hc).
      split; [auto|lia].
  - intros r Hr He. rewrite Hrep in Hr. apply elem_of_app in Hr as [Hr|Hr].
    + apply Hfail. by eapply Herr.
    + apply Hfail. clear Hcomp Hfail Hrep.
      destruct HS; simpl in Hr; rewrite ?H, ?H0 in Hr; simpl in Hr;
        try (by apply elem_of_nil in Hr);
        apply list_elem_of_singleton in Hr as ->; simpl in He; try done.
      eapply after_failure_failed; [done|exact H|].
      unfold after_failure. by rewrite H0.
  - intros Ht.
    assert (Ht0 : mRequestsThread s = NotStarted).
    { destruct HS; simpl in Ht; try done; congruence. }
    destruct (Hidle Ht0) as [Hf Hch].
    destruct HS; simpl; try done; try congruence;
      rewrite Hch in *; by try done.
Qed.

Lemma reachable_outcome s : reachable s → outcome_inv s.
Proof.
  intros Hr.
  assert (H : (progress_inv s ∧ config_inv s ∧ slots_inv s) ∧ outcome_inv s).
  { revert s Hr. apply (reachable_invariant
      (fun s => (progress_inv s ∧ config_inv s ∧ slots_inv s) ∧ outcome_inv s)).
    - intros s Hi. split; [split; [|split]|].
      + by apply progress_inv_initial.
      + by apply config_inv_initial.
      + by apply slots_inv_initial.
      + by apply outcome_inv_initial.
    - intros l s s' [(Hp & Hc & Hs) Ho] HS. split; [split; [|split]|].
      + by eapply progress_inv_step.
      + by eapply config_inv_step.
      + by eapply slots_inv_step.
      + by eapply outcome_inv_step. }
  apply H.
Qed.

(** X10: a session never reports both outcomes.  Once a report with
    [success] has been emitted, [mFailed] is false and stays false, and no
    report carries an error, before or after it, whatever the
    interleaving. *)
Theorem X10_success_excludes_failure s r :
  reachable s → r ∈ reports s → success r = true →
  mFailed s = false ∧ ∀ r', r' ∈ reports s → error r' = "".
Proof.
  intros Hr Hin Hs. destruct (reachable_outcome s Hr) as [Hsucc Herr Hidle].
  destruct (reachable_progress s Hr) as [Hp Hc].
  assert (Hf : mFailed s = false).
  { destruct (Hsucc r Hin Hs) as [Ht|Hcm]; [by apply Hidle|].
    by apply complete_not_failed. }
  split; [done|]. intros r' Hin'.
  destruct (decide (error r' = "")) as [|Hne]; [done|].
  pose proof (Herr r' Hin' Hne). congruence.
Qed.

Lemma X10_witness :
  mFailed Demo_complete = false ∧
  ∀ r', r' ∈ reports Demo_complete → error r' = "".
Proof.
  apply (X10_success_excludes_failure Demo_complete
           {| downloadedBlocks := 2; missingBlocks := 2; error := "";
              projectBlobDownloaded := true; completed := true;
              success := true; cancelled := false |}).
  - exact Demo_complete_reachable.
  - exact Demo_complete_success.
  - reflexivity.
Defined.

Lemma dispatch_inv_initial s : initial s → dispatch_inv s.
Proof.
  intros (cloud0 & snap & pinfo & sinfo & path & now & Hlen & ->).
  destruct (construct_fresh cloud0 snap pinfo sinfo path now)
    as (_ & _ & _ & _ & _ & _ & _ & Hch & Hiss & _).
  cbv zeta in Hch, Hiss.
  constructor.
  - intros i c. by rewrite Hch.
  - intros i url. rewrite Hiss. intros Hin. by apply elem_of_nil in Hin.
Qed.

Lemma dispatch_inv_step l s s' :
  cursor_inv s → dispatch_inv s → Step l s s' → dispatch_inv s'.
Proof.
  intros [Hcur _] [Hch Hiss] HS.
  destruct (Step_same_config _ _ _ HS) as [Hreq _ _ _ _ _].
  assert (Hupd : ∀ i c c', chains s !! i = Some c →
            chain_url c' = chain_url c → chain_handler c' = chain_handler c →
            (∀ j cj, <[i := c']> (chains s) !! j = Some cj →
                     mRequests s !! j = Some (chain_url cj, chain_handler cj)) ∧
            (∀ j url, (j, url) ∈ issued s →
                      ∃ cj, <[i := c']> (chains s) !! j = Some cj ∧
                            chain_url cj = url)).
  { intros i c c' Hc Hu Hh. split.
    - intros j cj Hj. destruct (decide (i = j)) as [->|Hne].
      + rewrite list_lookup_insert_eq in Hj by (by eapply lookup_lt_Some).
        simplify_eq. rewrite Hu, Hh. by apply Hch.
      + rewrite list_lookup_insert_ne in Hj by done. by apply Hch.
    - intros j url Hin. destruct (Hiss j url Hin) as (cj & Hj & Hurl).
      destruct (decide (i = j)) as [->|Hne].
      + exists c'. rewrite list_lookup_insert_eq by (by eapply lookup_lt_Some).
        split; [done|]. simplify_eq. done.
      + exists cj. by rewrite list_lookup_insert_ne. }
  constructor; rewrite ?Hreq.
  - destruct HS; simpl chains; try exact Hch;
      try (by eapply (Hupd i c)).
    intros j cj Hj. apply lookup_app_Some in Hj as [Hj|[Hlen Hj]];
      [by apply Hch|].
    apply list_lookup_singleton_Some in Hj as [Hj <-].
    assert (j = mNextRequestIndex s) as -> by lia.
    etrans; [exact H2|]. by destruct request.
  - destruct HS; simpl chains; simpl issued; try exact Hiss;
      try (by eapply (Hupd i c)).
    + intros j url Hin. destruct (Hiss j url Hin) as (cj & Hj & Hurl).
      exists cj. split; [|done]. by apply lookup_app_l_Some.
    + intros j url Hin. apply elem_of_app in Hin as [Hin|Hin].
      * by eapply (Hupd i c).
      * apply list_elem_of_singleton in Hin. simplify_eq.
        eexists. rewrite list_lookup_insert_eq by (by eapply lookup_lt_Some).
        done.
Qed.

Lemma reachable_dispatch s : reachable s → dispatch_inv s.
Proof.
  intros Hr.
  assert (H : cursor_inv s ∧ dispatch_inv s).
  { revert s Hr. apply (reachable_invariant
      (fun s => cursor_inv s ∧ dispatch_inv s)).
    - intros s Hi. split; [by apply cursor_inv_initial|by apply dispatch_inv_initial].
    - intros l s s' [Hc Hd] HS. split.
      + by eapply cursor_inv_step.
      + by eapply dispatch_inv_step. }
  apply H.
Qed.

(** X11: requests are dispatched in the order of [mRequests], without gaps:
    the callbacks that exist are exactly those of the first
    [mNextRequestIndex] requests, each with the URL and the handler of its
    request, and every [doGet], retries included, was made for the URL of
    the request it belongs to. *)
Theorem X11_dispatch_in_order s :
  reachable s →
  length (chains s) = mNextRequestIndex s ∧
  (mNextRequestIndex s ≤ length (mRequests s))%nat ∧
  (∀ i c, chains s !! i = Some c →
          mRequests s !! i = Some (chain_url c, chain_handler c)) ∧
  (∀ i url, (i, url) ∈ issued s →
            (i < mNextRequestIndex s)%nat ∧
            ∃ handler, mRequests s !! i = Some (url, handler)).
Proof.
  intros Hr. destruct (reachable_cursor s Hr) as [Hlen Hle].
  destruct (reachable_dispatch s Hr) as [Hch Hiss].
  split; [done|]. split; [done|]. split; [done|].
  intros i url Hin. destruct (Hiss i url Hin) as (c & Hc & <-).
  split; [rewrite <- Hlen; by eapply lookup_lt_Some|].
  exists (chain_handler c). by apply Hch.
Qed.

Lemma Demo_retrying_run :
  run [LSched; LIssue 0; LSched; LIssue 1; LFinished 1 (Demo.http 503);
       LIssue 1] Demo.session = Some Demo_retrying.
Proof. vm_compute. reflexivity. Qed.

Lemma X11_witness :
  length (chains Demo_retrying) = mNextRequestIndex Demo_retrying.
Proof.
  apply (X11_dispatch_in_order Demo_retrying).
  eapply Demo_reachable. exact Demo_retrying_run.
Defined.

(** X12: the session fetches nothing it does not need.  Every [doGet] of a
    session made by the constructor is for the URL of the project blob, as
    request 0, or for the URL of a block of the snapshot whose upper-case
    hash is not among the known blocks. *)
Theorem X12_fetched_urls cloud0 snap pinfo sinfo path now ls s i url :
  run ls (construct cloud0 (Some snap) pinfo sinfo path now) = Some s →
  Z.of_nat (length (Blocks sinfo)) < 2 ^ 64 →
  (i, url) ∈ issued s →
  (i = 0%nat ∧ url = FileUrl sinfo) ∨
  (∃ block, block ∈ Blocks sinfo ∧ url = Url block ∧
            ToUpper (Hash block) ∉ CalculateKnownBlocks cloud0 snap pinfo sinfo).
Proof.
  intros Hrun Hlen Hin.
  set (s0 := construct cloud0 (Some snap) pinfo sinfo path now) in *.
  assert (Hr : reachable s).
  { exists s0, ls. split; [|done]. by exists cloud0, snap, pinfo, sinfo, path, now. }
  destruct (reachable_dispatch s Hr) as [Hch Hiss].
  destruct (Hiss i url Hin) as (c & Hc & <-).
  apply Hch in Hc.
  destruct (run_same_config _ _ _ Hrun) as [Hreq _ _ _ _ _].
  rewrite Hreq in Hc.
  destruct (construct_cases cloud0 snap pinfo sinfo path now)
    as [(_ & _ & Hnil & _)|(_ & Hbuild & _)]; fold s0 in Hnil || fold s0 in Hbuild.
  - by rewrite Hnil in Hc.
  - rewrite Hbuild, build_requests_spec in Hc.
    destruct i as [|i]; simpl in Hc.
    + left. by simplify_eq.
    + right. apply list_lookup_fmap_Some in Hc as (block & Heq & Hb).
      apply list_elem_of_lookup_2 in Hb.
      apply list_elem_of_filter in Hb as [Hnk Hb].
      exists block. unfold block_request in Heq. by simplify_eq.
Qed.

Lemma X12_witness :
  (1%nat = 0%nat ∧ "https://host/bb" = FileUrl Demo.sinfo) ∨
  (∃ block, block ∈ Blocks Demo.sinfo ∧ "https://host/bb" = Url block ∧
            ToUpper (Hash block) ∉
              CalculateKnownBlocks Demo.cloud0 Demo.snap Demo.pinfo Demo.sinfo).
Proof.
  apply (X12_fetched_urls Demo.cloud0 Demo.snap Demo.pinfo Demo.sinfo "p.aup3" 0
           [LSched; LIssue 0; LSched; LIssue 1; LFinished 1 (Demo.http 503);
            LIssue 1] Demo_retrying).
  - exact Demo_retrying_run.
  - vm_compute. reflexivity.
  - assert (Hiss : issued Demo_retrying =
              [(0%nat, "https://host/blob"); (1%nat, "https://host/bb");
               (1%nat, "https://host/bb")]) by (vm_compute; reflexivity).
    rewrite Hiss. constructor 2. constructor 1.
Defined.

(** ** After a failure or a cancellation *)

Lemma Step_flags l s s' :
  Step l s s' → WantsNextRequest s = false →
  WantsNextRequest s' = false ∧
  mNextRequestIndex s' = mNextRequestIndex s ∧
  length (chains s') = length (chains s).
Proof.
  unfold WantsNextRequest.
  destruct 1; simpl; rewrite ?length_insert; try done.
  - unfold WantsNextRequest in *. congruence.
  - intros _. by rewrite andb_false_r.
Qed.

Lemma RequestsThread_step_dispatch s request :
  mRequestsThread s = Running → WantsNextRequest s = true →
  mRequestsInProgress s < MAX_CONCURRENT_REQUESTS →
  mRequests s !! mNextRequestIndex s = Some request →
  RequestsThread_step s = Some (dispatch request s).
Proof.
  intros Ht Hw Hlt Hreq. unfold RequestsThread_step. rewrite Ht, Hw, Hreq. simpl.
  destruct (Z.leb_spec MAX_CONCURRENT_REQUESTS (mRequestsInProgress s)); [lia|done].
Qed.

(** A turn that has passed its test dispatches its request whatever is
    stored to the flags meanwhile, and the session is the one in which the
    store follows the turn. *)
Lemma Cancel_inside_turn request s :
  dispatch request (Cancel s) = Cancel (dispatch request s).
Proof. reflexivity. Qed.

Lemma OnFailure_inside_turn request s :
  dispatch request (set_mFailed true s) = set_mFailed true (dispatch request s).
Proof. reflexivity. Qed.

(** X13: [mCancelled] and [mFailed] are never cleared.  Once one of them
    is set, it stays set and [WantsNextRequest] is false in every
    continuation, and every turn of the thread that tests it from then on
    ends the thread and dispatches nothing: the cursor into [mRequests],
    the requests in progress and the callbacks are as before the turn.
    (A turn that is already past its test when the flag is stored is not
    among them: it dispatches the request it has taken, see
    [Cancel_inside_turn].) *)
Theorem X13_flags_final ls s s' :
  WantsNextRequest s = false → run ls s = Some s' →
  (mCancelled s = true → mCancelled s' = true) ∧
  (mFailed s = true → mFailed s' = true) ∧
  WantsNextRequest s' = false ∧
  ∀ s'', step LSched s' = Some s'' → s'' = set_mRequestsThread Exited s'.
Proof.
  intros Hw Hrun.
  assert (Hinv : (mCancelled s = true → mCancelled s' = true) ∧
                 (mFailed s = true → mFailed s' = true) ∧
                 WantsNextRequest s' = false).
  { apply (run_invariant
      (fun t => (mCancelled s = true → mCancelled t = true) ∧
                (mFailed s = true → mFailed t = true) ∧
                WantsNextRequest t = false)) with (ls := ls) (s := s);
      [|done|done].
    intros l t t' (Hc & Hf & Hwt) HS.
    destruct (Step_flags _ _ _ HS Hwt) as (Hwt' & _ & _).
    split; [|split; [|exact Hwt']].
    - intros H. specialize (Hc H). destruct HS; simpl; done.
    - intros H. eapply Step_failed; [exact HS|]. by apply Hf. }
  destruct Hinv as (Hc & Hf & Hw').
  split; [exact Hc|]. split; [exact Hf|]. split; [exact Hw'|].
  intros s'' Hs. simpl in Hs. unfold RequestsThread_step in Hs.
  destruct (mRequestsThread s'); try done.
  rewrite Hw' in Hs. simpl in Hs. by simplify_eq.
Qed.

Lemma X13_witness :
  mCancelled Demo_cancelled_twice = true ∧
  WantsNextRequest Demo_cancelled_twice = false.
Proof.
  destruct (X13_flags_final [LCancel]
              (default Demo.session (run [LSched; LIssue 0; LCancel] Demo.session))
              Demo_cancelled_twice) as (Hc & _ & Hw & _).
  - vm_compute. reflexivity.
  - vm_compute. reflexivity.
  - split; [|exact Hw]. apply Hc. vm_compute. reflexivity.
Defined.

(** ** One callback, run without interruption *)

Lemma run_step_ex l ls s s1 s2 :
  step l s = Some s1 → run ls s1 = Some s2 → run (l :: ls) s = Some s2.
Proof. intros H1 H2. by rewrite (run_cons _ _ _ _ H1). Qed.

Lemma chains_RemoveRequest r t : chains (RemoveRequest r t) = chains t.
Proof. reflexivity. Qed.
Lemma chains_mCallback r t : chains (mCallback r t) = chains t.
Proof. reflexivity. Qed.
Lemma chains_set_mFailed v t : chains (set_mFailed v t) = chains t.
Proof. reflexivity. Qed.
Lemma chains_set_mProjectDownloaded v t :
  chains (set_mProjectDownloaded v t) = chains t.
Proof. reflexivity. Qed.
Lemma chains_set_mDownloadedBlocks v t :
  chains (set_mDownloadedBlocks v t) = chains t.
Proof. reflexivity. Qed.
Lemma chains_set_cloud v t : chains (set_cloud v t) = chains t.
Proof. reflexivity. Qed.
Lemma chains_set_snapshot_db v t : chains (set_snapshot_db v t) = chains t.
Proof. reflexivity. Qed.

(** The callback of request [i] in a state written as the steps built
    it; every rule applies to the term as it stands. *)
Ltac find_chain :=
  lazymatch goal with
  | H : chains ?t !! ?i = Some _ |- chains ?t !! ?i = Some _ => exact H
  | |- chains (goto _ _ _ _) !! _ = Some _ => eapply lookup_goto; find_chain
  | |- chains (RemoveRequest _ _) !! _ = Some _ =>
      rewrite chains_RemoveRequest; find_chain
  | |- chains (mCallback _ _) !! _ = Some _ =>
      rewrite chains_mCallback; find_chain
  | |- chains (set_mFailed _ _) !! _ = Some _ =>
      rewrite chains_set_mFailed; find_chain
  | |- chains (set_mProjectDownloaded _ _) !! _ = Some _ =>
      rewrite chains_set_mProjectDownloaded; find_chain
  | |- chains (set_mDownloadedBlocks _ _) !! _ = Some _ =>
      rewrite chains_set_mDownloadedBlocks; find_chain
  | |- chains (set_cloud _ _) !! _ = Some _ =>
      rewrite chains_set_cloud; find_chain
  | |- chains (set_snapshot_db _ _) !! _ = Some _ =>
      rewrite chains_set_snapshot_db; find_chain
  end.

Lemma lookup_goto_eq i c pc t c0 c' :
  chains t !! i = Some c0 → with_pc c pc = c' →
  chains (goto i c pc t) !! i = Some c'.
Proof. intros Hc <-. by eapply lookup_goto. Qed.

Lemma with_pc_with_pc c pc pc' : with_pc (with_pc c pc) pc' = with_pc c pc'.
Proof. reflexivity. Qed.

Ltac end_chain :=
  eapply lookup_goto_eq; [find_chain|by rewrite ?with_pc_with_pc].

Ltac chain_run i :=
  eapply run_step_ex;
  [ erewrite (step_LRun i) by find_chain;
    unfold run_chain; cbn [chain_pc chain_handler with_pc];
    repeat match goal with
           | H : chain_pc _ = _ |- _ => rewrite H
           | H : chain_handler _ = _ |- _ => rewrite H
           end;
    reflexivity
  | ].

(** X14: a request the transport reports as cancelled is dropped in
    silence, whatever retries it has left: its callback ends after one
    [RemoveRequest], which erases the response and releases the slot;
    nothing is reported, [mFailed] is not set, no further [doGet] is made
    and the stores are untouched. *)
Theorem X14_cancelled_response_dropped s i c retries response :
  chains s !! i = Some c → chain_pc c = Fetching retries →
  getError response = OperationCancelled →
  ∃ s', run [LFinished i response; LRun i] s = Some s' ∧
        chains s' !! i = Some (with_pc c Finished) ∧
        reports s' = reports s ∧ mFailed s' = mFailed s ∧
        issued s' = issued s ∧
        mRequestsInProgress s' = mRequestsInProgress s - 1 ∧
        mResponses s' =
          filter (fun r => Some r ≠ chain_response c) (mResponses s) ∧
        cloud s' = cloud s ∧ snapshot_db s' = snapshot_db s.
Proof.
  intros Hc Hpc Herr. eexists. split.
  - eapply run_step_ex.
    { simpl. rewrite Hc. simpl. rewrite Hpc. unfold finished, classify.
      rewrite Herr. rewrite bool_decide_eq_true_2 by done. reflexivity. }
    chain_run i. reflexivity.
  - split; [end_chain|]. done.
Qed.

Lemma filter_filter_same {A} (P : A → Prop) `{∀ x, Decision (P x)} (l : list A) :
  filter P (filter P l) = filter P l.
Proof.
  induction l as [|x l IH]; [done|].
  rewrite (filter_cons P x l). destruct (decide (P x)) as [HP|HP]; [|done].
  rewrite (filter_cons P x (filter P l)), decide_True by done. by rewrite IH.
Qed.

(** [OnFailure], and the [RemoveRequest] that follows it when it was
    called from a success handler. *)
Lemma OnFailure_path s i c err again :
  chains s !! i = Some c → chain_pc c = Failing err again →
  ∃ s', run (replicate (if again then 6 else 5)%nat (LRun i)) s = Some s' ∧
        chains s' !! i = Some (with_pc c Finished) ∧
        mFailed s' = true ∧
        reports s' =
          reports s ++ [failure_report err (mDownloadedBlocks s)
                          (mProjectDownloaded s) s] ∧
        mRequestsInProgress s' =
          mRequestsInProgress s - (if again then 2 else 1) ∧
        mResponses s' =
          filter (fun r => Some r ≠ chain_response c) (mResponses s) ∧
        mDownloadedBlocks s' = mDownloadedBlocks s ∧
        mProjectDownloaded s' = mProjectDownloaded s ∧
        mCancelled s' = mCancelled s ∧ issued s' = issued s ∧
        cloud s' = cloud s ∧ snapshot_db s' = snapshot_db s.
Proof.
  intros Hc Hpc. destruct again; simpl replicate.
  - eexists. split.
    + do 6 chain_run i. reflexivity.
    + split; [end_chain|]. simpl.
      rewrite filter_filter_same. repeat split; try done. lia.
  - eexists. split.
    + do 5 chain_run i. reflexivity.
    + split; [end_chain|]. simpl. repeat split; done.
Qed.

Lemma Demo_fetching_chain :
  chains Demo_fetching !! 0%nat = Some (Demo_blob_chain (Fetching 3)).
Proof. vm_compute. reflexivity. Qed.

Lemma X14_witness :
  ∃ s', run [LFinished 0 {| getError := OperationCancelled; getHTTPCode := 0;
                            readAll := []; getErrorString := "" |}; LRun 0]
          Demo_fetching = Some s' ∧
        reports s' = reports Demo_fetching.
Proof.
  destruct (X14_cancelled_response_dropped Demo_fetching 0 _ 3
              {| getError := OperationCancelled; getHTTPCode := 0;
                 readAll := []; getErrorString := "" |}
              Demo_fetching_chain eq_refl eq_refl)
    as (s' & Hrun & _ & Hrep & _).
  exists s'. split; [exact Hrun|exact Hrep].
Defined.

Lemma step_handle_block s i c data blockHash env :
  chains s !! i = Some c → chain_pc c = Handling data →
  chain_handler c = Block blockHash →
  step (LHandle i env) s = Some (OnBlockDownloaded_commit i c blockHash env s).
Proof. intros Hc Hpc Hh. simpl. rewrite Hc. simpl. by rewrite Hpc, Hh. Qed.

Lemma step_handle_blob s i c data env :
  chains s !! i = Some c → chain_pc c = Handling data →
  chain_handler c = ProjectBlob →
  step (LHandle i env) s = Some (OnProjectBlobDownloaded_commit i c data env s).
Proof. intros Hc Hpc Hh. simpl. rewrite Hc. simpl. by rewrite Hpc, Hh. Qed.

(** X15: when [OnBlockDownloaded] fails, whether in [DecompressBlock], in
    one of its statements or in the commit, nothing is written to either
    store and [mDownloadedBlocks] is not incremented; [mFailed] is set and
    exactly one report is made, carrying the message of the first thing
    that failed.  The slot of the request is released twice: by
    [OnFailure] and again when the callback of [DownloadBlob] ends. *)
Theorem X15_block_handler_failure s i c data blockHash env msg :
  chains s !! i = Some c → chain_pc c = Handling data →
  chain_handler c = Block blockHash →
  block_failure_message env = Some msg →
  ∃ s', run (LHandle i env :: replicate 6 (LRun i)) s = Some s' ∧
        chains s' !! i = Some (with_pc c Finished) ∧
        reports s' =
          reports s ++
          [ {| downloadedBlocks := mDownloadedBlocks s;
               missingBlocks := mMissingBlocks s; error := msg;
               projectBlobDownloaded := mProjectDownloaded s;
               completed := true; success := false; cancelled := false |} ] ∧
        mFailed s' = true ∧
        mDownloadedBlocks s' = mDownloadedBlocks s ∧
        cloud s' = cloud s ∧ snapshot_db s' = snapshot_db s ∧
        mRequestsInProgress s' = mRequestsInProgress s - 2.
Proof.
  intros Hc Hpc Hh Hmsg.
  assert (Hstep : step (LHandle i env) s = Some (goto i c (Failing msg true) s)).
  { rewrite (step_handle_block _ _ _ _ _ _ Hc Hpc Hh).
    unfold OnBlockDownloaded_commit, block_failure_message in *.
    destruct (decoded env); [destruct (db_result env)|]; by simplify_eq. }
  destruct (OnFailure_path (goto i c (Failing msg true) s) i
              (with_pc c (Failing msg true)) msg true)
    as (s' & Hrun & Hch & Hf & Hrep & Hip & _ & Hbd & _ & _ & _ & Hcl & Hsn);
    [by eapply lookup_goto|done|].
  exists s'. split; [by rewrite (run_cons _ _ _ _ Hstep)|].
  split; [exact Hch|]. by repeat split.
Qed.

Lemma Demo_block_arrived_chain :
  chains Demo_block_arrived !! 1%nat =
  Some {| chain_url := "https://host/bb"; chain_handler := Block "BB";
          chain_response := Some 1%nat; chain_pc := Handling [] |}.
Proof. vm_compute. reflexivity. Qed.

Lemma X15_witness :
  ∃ s', run (LHandle 1 {| decoded := None; db_result := DbOk |}
               :: replicate 6 (LRun 1)) Demo_block_arrived = Some s' ∧
        mFailed s' = true ∧
        mRequestsInProgress s' = mRequestsInProgress Demo_block_arrived - 2.
Proof.
  destruct (X15_block_handler_failure Demo_block_arrived 1 _ [] "BB"
              {| decoded := None; db_result := DbOk |} msg_decompress_failed
              Demo_block_arrived_chain eq_refl eq_refl eq_refl)
    as (s' & Hrun & _ & _ & Hf & _ & _ & _ & Hip).
  exists s'. split; [exact Hrun|]. split; [exact Hf|exact Hip].
Defined.

(** X16: a download that fails for good, by an HTTP error below 500 or
    with no retry left, makes exactly one report with the message of the
    response, sets [mFailed], erases the response and releases the slot
    of the request once; the counters and the stores are as before. *)
Theorem X16_download_failure s i c retries response msg :
  chains s !! i = Some c → chain_pc c = Fetching retries →
  classify response retries = OutFailure msg →
  ∃ s', run (LFinished i response :: replicate 5 (LRun i)) s = Some s' ∧
        chains s' !! i = Some (with_pc c Finished) ∧
        reports s' =
          reports s ++
          [ {| downloadedBlocks := mDownloadedBlocks s;
               missingBlocks := mMissingBlocks s; error := msg;
               projectBlobDownloaded := mProjectDownloaded s;
               completed := true; success := false; cancelled := false |} ] ∧
        mFailed s' = true ∧
        mRequestsInProgress s' = mRequestsInProgress s - 1 ∧
        mResponses s' =
          filter (fun r => Some r ≠ chain_response c) (mResponses s) ∧
        issued s' = issued s ∧
        mDownloadedBlocks s' = mDownloadedBlocks s ∧
        mProjectDownloaded s' = mProjectDownloaded s ∧
        cloud s' = cloud s ∧ snapshot_db s' = snapshot_db s.
Proof.
  intros Hc Hpc Hcl.
  assert (Hstep : step (LFinished i response) s =
                  Some (goto i c (Failing msg false) s)).
  { simpl. rewrite Hc. simpl. rewrite Hpc. unfold finished. by rewrite Hcl. }
  destruct (OnFailure_path (goto i c (Failing msg false) s) i
              (with_pc c (Failing msg false)) msg false)
    as (s' & Hrun & Hch & Hf & Hrep & Hip & Hresp & Hbd & Hpd & _ & Hiss & Hcd & Hsn);
    [by eapply lookup_goto|done|].
  exists s'. split; [by rewrite (run_cons _ _ _ _ Hstep)|].
  split; [exact Hch|]. by repeat split.
Qed.

Lemma X16_witness :
  ∃ s', run (LFinished 0 (Demo.http 404) :: replicate 5 (LRun 0)) Demo_fetching
          = Some s' ∧
        mFailed s' = true ∧
        mRequestsInProgress s' = mRequestsInProgress Demo_fetching - 1.
Proof.
  destruct (X16_download_failure Demo_fetching 0 (Demo_blob_chain (Fetching 3)) 3
              (Demo.http 404) (msg_download_failed_fmt ""))
    as (s' & Hrun & _ & _ & Hf & Hip & _);
    [vm_compute; reflexivity..|].
  exists s'. split; [exact Hrun|]. split; [exact Hf|exact Hip].
Defined.

(** X17: when [OnProjectBlobDownloaded] fails, by the framing of the
    payload, a statement or the commit, the project row and the autosave
    row are as before and [mProjectDownloaded] is not set; [mFailed] is
    set and exactly one report is made, with "Failed to download the
    cloud project" for the framing and "Failed to update the cloud
    project" otherwise.  The slot of the request is released twice. *)
Theorem X17_blob_handler_failure s i c data env msg :
  chains s !! i = Some c → chain_pc c = Handling data →
  chain_handler c = ProjectBlob →
  blob_failure_message data env = Some msg →
  ∃ s', run (LHandle i env :: replicate 6 (LRun i)) s = Some s' ∧
        chains s' !! i = Some (with_pc c Finished) ∧
        reports s' =
          reports s ++
          [ {| downloadedBlocks := mDownloadedBlocks s;
               missingBlocks := mMissingBlocks s; error := msg;
               projectBlobDownloaded := mProjectDownloaded s;
               completed := true; success := false; cancelled := false |} ] ∧
        mFailed s' = true ∧
        mProjectDownloaded s' = mProjectDownloaded s ∧
        cloud s' = cloud s ∧ snapshot_db s' = snapshot_db s ∧
        mRequestsInProgress s' = mRequestsInProgress s - 2.
Proof.
  intros Hc Hpc Hh Hmsg.
  assert (Hstep : step (LHandle i env) s = Some (goto i c (Failing msg true) s)).
  { rewrite (step_handle_blob _ _ _ _ _ Hc Hpc Hh).
    unfold OnProjectBlobDownloaded_commit, blob_failure_message in *.
    destruct (split_project_blob data) as [[dict doc]|];
      [destruct (db_result env)|]; by simplify_eq. }
  destruct (OnFailure_path (goto i c (Failing msg true) s) i
              (with_pc c (Failing msg true)) msg true)
    as (s' & Hrun & Hch & Hf & Hrep & Hip & _ & _ & Hpd & _ & _ & Hcl & Hsn);
    [by eapply lookup_goto|done|].
  exists s'. split; [by rewrite (run_cons _ _ _ _ Hstep)|].
  split; [exact Hch|]. by repeat split.
Qed.

Lemma Demo_blob_arrived_chain :
  chains Demo_blob_arrived !! 0%nat = Some (Demo_blob_chain (Handling Demo_empty_blob)).
Proof. vm_compute. reflexivity. Qed.

Lemma X17_witness :
  ∃ s', run (LHandle 0 {| decoded := None; db_result := DbCommitFailed |}
               :: replicate 6 (LRun 0)) Demo_blob_arrived = Some s' ∧
        snapshot_db s' = snapshot_db Demo_blob_arrived.
Proof.
  destruct (X17_blob_handler_failure Demo_blob_arrived 0 _ Demo_empty_blob
              {| decoded := None; db_result := DbCommitFailed |} msg_update_failed
              Demo_blob_arrived_chain eq_refl eq_refl)
    as (s' & Hrun & _ & _ & _ & _ & _ & Hsn & _).
  { vm_compute. reflexivity. }
  exists s'. split; [exact Hrun|exact Hsn].
Defined.

Ltac chain_run_with i tac :=
  eapply run_step_ex;
  [ erewrite (step_LRun i) by find_chain;
    unfold run_chain; cbn [chain_pc chain_handler with_pc];
    repeat match goal with
           | H : chain_pc _ = _ |- _ => rewrite H
           | H : chain_handler _ = _ |- _ => rewrite H
           end;
    tac; reflexivity
  | ].

Ltac session_fields :=
  cbn [mCancelled mFailed mProjectDownloaded mDownloadedBlocks mMissingBlocks
       mProjectInfo mSnapshotInfo mPath cloud snapshot_db reports
       goto RemoveRequest mCallback set_chains set_mCancelled set_mFailed
       set_mProjectDownloaded set_mDownloadedBlocks set_mNextRequestIndex
       set_mRequestsInProgress set_mResponses set_mRequestsThread
       set_aborted set_issued set_reports set_cloud set_snapshot_db].

(** [ReportProgress] and the [RemoveRequest] that ends the callback. *)
Lemma ReportProgress_path s i c now :
  chains s !! i = Some c → chain_pc c = RPCheck → mCancelled s = false →
  ∃ s', run ([LRun i; LRun i; LRun i] ++
             (if bool_decide (mDownloadedBlocks s = mMissingBlocks s) &&
                 mProjectDownloaded s
              then [LMark i now] else []) ++ [LRun i; LRun i]) s = Some s' ∧
        chains s' !! i = Some (with_pc c Finished) ∧
        reports s' =
          reports s ++ [progress_report (mProjectDownloaded s)
                          (mDownloadedBlocks s) s] ∧
        cloud s' =
          (if bool_decide (mDownloadedBlocks s = mMissingBlocks s) &&
              mProjectDownloaded s
           then MarkProjectInDB (mProjectInfo s) (mSnapshotInfo s) (mPath s)
                  now true (cloud s)
           else cloud s) ∧
        snapshot_db s' = snapshot_db s ∧
        mRequestsInProgress s' = mRequestsInProgress s - 1 ∧
        mResponses s' =
          filter (fun r => Some r ≠ chain_response c) (mResponses s) ∧
        mDownloadedBlocks s' = mDownloadedBlocks s ∧
        mProjectDownloaded s' = mProjectDownloaded s ∧
        mFailed s' = mFailed s ∧ mCancelled s' = false.
Proof.
  intros Hc Hpc Hcan.
  destruct (bool_decide (mDownloadedBlocks s = mMissingBlocks s) &&
            mProjectDownloaded s) eqn:Hdone; simpl app.
  - eexists. split.
    + chain_run_with i ltac:(rewrite Hcan).
      chain_run i.
      chain_run_with i ltac:(session_fields; rewrite Hdone).
      eapply run_step_ex.
      { cbn [step]. erewrite (lookup_goto i) by find_chain.
        cbn [mbind option_bind chain_pc with_pc]. reflexivity. }
      do 2 chain_run i. reflexivity.
    + split; [end_chain|]. simpl. by repeat split.
  - eexists. split.
    + chain_run_with i ltac:(rewrite Hcan).
      chain_run i.
      chain_run_with i ltac:(session_fields; rewrite Hdone).
      do 2 chain_run i. reflexivity.
    + split; [end_chain|]. simpl. by repeat split.
Qed.

(** [ReportProgress] after [Cancel]: it returns at its first test. *)
Lemma ReportProgress_cancelled s i c :
  chains s !! i = Some c → chain_pc c = RPCheck → mCancelled s = true →
  ∃ s', run [LRun i; LRun i] s = Some s' ∧
        chains s' !! i = Some (with_pc c Finished) ∧
        reports s' = reports s ∧ cloud s' = cloud s ∧
        snapshot_db s' = snapshot_db s ∧
        mRequestsInProgress s' = mRequestsInProgress s - 1 ∧
        mDownloadedBlocks s' = mDownloadedBlocks s ∧
        mProjectDownloaded s' = mProjectDownloaded s.
Proof.
  intros Hc Hpc Hcan. eexists. split.
  - chain_run_with i ltac:(rewrite Hcan). chain_run i. reflexivity.
  - split; [end_chain|]. simpl. by repeat split.
Qed.

(** X18: the callback of a block whose payload decodes and whose statements
    succeed, run without interruption in a session that is not cancelled:
    the block is upserted under its block id, its hash is recorded for the
    project, [mDownloadedBlocks] grows by one and exactly one report is
    made, with the new count.  The report has [completed] and [success]
    exactly when this was the last missing block and the project blob is
    stored, and then the record of the project has been marked Synced
    before the report; the slot is released once. *)
Theorem X18_block_success_path s i c data blockHash env blockData now :
  chains s !! i = Some c → chain_pc c = Handling data →
  chain_handler c = Block blockHash →
  decoded env = Some blockData → db_result env = DbOk →
  mCancelled s = false →
  let last := bool_decide (mDownloadedBlocks s + 1 = mMissingBlocks s) &&
              mProjectDownloaded s in
  ∃ s', run ([LHandle i env; LRun i; LRun i; LRun i; LRun i] ++
             (if last then [LMark i now] else []) ++ [LRun i; LRun i]) s
          = Some s' ∧
        chains s' !! i = Some (with_pc c Finished) ∧
        sampleblocks (snapshot_db s') !! BlockId blockData = Some blockData ∧
        block_hashes (cloud s')
          !! (ProjectInfo_Id (mProjectInfo s), BlockId blockData)
          = Some blockHash ∧
        mDownloadedBlocks s' = mDownloadedBlocks s + 1 ∧
        reports s' =
          reports s ++
          [ {| downloadedBlocks := mDownloadedBlocks s + 1;
               missingBlocks := mMissingBlocks s; error := "";
               projectBlobDownloaded := mProjectDownloaded s;
               completed := last; success := last; cancelled := false |} ] ∧
        (last = true →
         GetProjectData (cloud s') (ProjectInfo_Id (mProjectInfo s)) =
         Some {| ProjectId := ProjectInfo_Id (mProjectInfo s);
                 SnapshotId := SnapshotInfo_Id (mSnapshotInfo s);
                 SyncStatus := SyncStatusSynced; LastRead := now;
                 LocalPath := mPath s |}) ∧
        (last = false → projects (cloud s') = projects (cloud s)) ∧
        project (snapshot_db s') = project (snapshot_db s) ∧
        mFailed s' = mFailed s ∧
        mRequestsInProgress s' = mRequestsInProgress s - 1.
Proof.
  intros Hc Hpc Hh Hdec Hdb Hcan last.
  pose (s1 := OnBlockDownloaded_commit i c blockHash env s).
  assert (Hs1 : s1 = goto i c Storing
            (set_snapshot_db
               {| project := project (snapshot_db s);
                  autosave := autosave (snapshot_db s);
                  has_sampleblocks := has_sampleblocks (snapshot_db s);
                  sampleblocks :=
                    <[BlockId blockData := blockData]> (sampleblocks (snapshot_db s)) |}
               (set_cloud
                  {| projects := projects (cloud s);
                     block_hashes :=
                       <[(ProjectInfo_Id (mProjectInfo s), BlockId blockData) := blockHash]>
                         (block_hashes (cloud s)) |} s))).
  { unfold s1, OnBlockDownloaded_commit. by rewrite Hdec, Hdb. }
  pose (s2 := goto i (with_pc c Storing) RPCheck
                (set_mDownloadedBlocks (mDownloadedBlocks s1 + 1) s1)).
  assert (Hc1 : chains s1 !! i = Some (with_pc c Storing)).
  { rewrite Hs1. by eapply lookup_goto. }
  assert (Hstep1 : step (LHandle i env) s = Some s1)
    by (by eapply step_handle_block).
  assert (Hstep2 : step (LRun i) s1 = Some s2).
  { rewrite (step_LRun _ _ _ Hc1). unfold run_chain. simpl. by rewrite Hh. }
  destruct (ReportProgress_path s2 i (with_pc (with_pc c Storing) RPCheck) now)
    as (s' & Hrun & Hch & Hrep & Hcl & Hsn & Hip & _ & Hbd & Hpd & Hf & _).
  { by eapply lookup_goto. }
  { done. }
  { unfold s2. rewrite Hs1. exact Hcan. }
  assert (Hlast : bool_decide (mDownloadedBlocks s2 = mMissingBlocks s2) &&
                  mProjectDownloaded s2 = last).
  { unfold s2. rewrite Hs1. reflexivity. }
  rewrite Hlast in Hrun, Hcl.
  exists s'. split.
  { simpl app. rewrite (run_cons _ _ _ _ Hstep1), (run_cons _ _ _ _ Hstep2).
    exact Hrun. }
  split; [exact Hch|].
  rewrite Hsn, Hcl, Hrep, Hbd, Hf, Hip. unfold s2. rewrite Hs1. simpl.
  split; [by rewrite lookup_insert_eq|].
  split.
  { destruct last; simpl; by rewrite lookup_insert_eq. }
  split; [done|]. split.
  { unfold progress_report. simpl. fold last. done. }
  split.
  { intros ->. by rewrite MarkProjectInDB_record. }
  split; [by intros ->|]. done.
Qed.

Lemma Demo_last_block_chain :
  chains Demo_last_block !! 2%nat =
  Some {| chain_url := "https://host/cc"; chain_handler := Block "CC";
          chain_response := Some 2%nat; chain_pc := Handling [] |}.
Proof. vm_compute. reflexivity. Qed.

Lemma X18_witness :
  ∃ s', run [LHandle 2 (Demo_block 3); LRun 2; LRun 2; LRun 2; LRun 2;
             LMark 2 7; LRun 2; LRun 2] Demo_last_block = Some s' ∧
        mDownloadedBlocks s' = 2.
Proof.
  destruct (X18_block_success_path Demo_last_block 2 _ [] "CC" (Demo_block 3) _ 7
              Demo_last_block_chain eq_refl eq_refl eq_refl eq_refl)
    as (s' & Hrun & _ & _ & _ & Hbd & _).
  { vm_compute. reflexivity. }
  exists s'. split; [exact Hrun|]. rewrite Hbd. vm_compute. reflexivity.
Defined.

(** X19: the callback of the project blob whose framing is accepted, with
    a length field below 2^64 - 8 (the sum of the second check does not
    wrap, so the two [Bind] calls stay inside the payload), and whose
    statements succeed, run without interruption in a session that is not
    cancelled: the row of the project holds the dictionary and the
    document of the payload, the autosave row is deleted, the sample
    blocks and the block hashes are untouched, [mProjectDownloaded] is
    set, and exactly one report is made.  It has [success] exactly when
    no block is missing any more, and then the record is marked Synced. *)
Theorem X19_blob_success_path s i c data dict doc env now :
  chains s !! i = Some c → chain_pc c = Handling data →
  chain_handler c = ProjectBlob →
  8 + le_u64 data < 2 ^ 64 →
  split_project_blob data = Some (dict, doc) → db_result env = DbOk →
  mCancelled s = false →
  let last := bool_decide (mDownloadedBlocks s = mMissingBlocks s) in
  ∃ s', run ([LHandle i env; LRun i; LRun i; LRun i; LRun i] ++
             (if last then [LMark i now] else []) ++ [LRun i; LRun i]) s
          = Some s' ∧
        chains s' !! i = Some (with_pc c Finished) ∧
        project (snapshot_db s') = Some (dict, doc) ∧
        autosave (snapshot_db s') = None ∧
        sampleblocks (snapshot_db s') = sampleblocks (snapshot_db s) ∧
        block_hashes (cloud s') = block_hashes (cloud s) ∧
        mProjectDownloaded s' = true ∧
        mDownloadedBlocks s' = mDownloadedBlocks s ∧
        reports s' =
          reports s ++
          [ {| downloadedBlocks := mDownloadedBlocks s;
               missingBlocks := mMissingBlocks s; error := "";
               projectBlobDownloaded := true;
               completed := last; success := last; cancelled := false |} ] ∧
        (last = true →
         record_of (cloud s') (mProjectInfo s) (mSnapshotInfo s) SyncStatusSynced) ∧
        (last = false → cloud s' = cloud s) ∧
        mFailed s' = mFailed s ∧
        mRequestsInProgress s' = mRequestsInProgress s - 1.
Proof.
  intros Hc Hpc Hh _ Hsplit Hdb Hcan last.
  pose (s1 := OnProjectBlobDownloaded_commit i c data env s).
  assert (Hs1 : s1 = goto i c Storing
            (set_snapshot_db
               {| project := Some (dict, doc); autosave := None;
                  has_sampleblocks := has_sampleblocks (snapshot_db s);
                  sampleblocks := sampleblocks (snapshot_db s) |} s)).
  { unfold s1, OnProjectBlobDownloaded_commit. by rewrite Hsplit, Hdb. }
  pose (s2 := goto i (with_pc c Storing) RPCheck (set_mProjectDownloaded true s1)).
  assert (Hc1 : chains s1 !! i = Some (with_pc c Storing)).
  { rewrite Hs1. by eapply lookup_goto. }
  assert (Hstep1 : step (LHandle i env) s = Some s1)
    by (by eapply step_handle_blob).
  assert (Hstep2 : step (LRun i) s1 = Some s2).
  { rewrite (step_LRun _ _ _ Hc1). unfold run_chain. simpl. by rewrite Hh. }
  destruct (ReportProgress_path s2 i (with_pc (with_pc c Storing) RPCheck) now)
    as (s' & Hrun & Hch & Hrep & Hcl & Hsn & Hip & _ & Hbd & Hpd & Hf & _).
  { by eapply lookup_goto. }
  { done. }
  { unfold s2. rewrite Hs1. exact Hcan. }
  assert (Hlast : bool_decide (mDownloadedBlocks s2 = mMissingBlocks s2) &&
                  mProjectDownloaded s2 = last).
  { unfold s2. rewrite Hs1. simpl. by rewrite andb_true_r. }
  rewrite Hlast in Hrun, Hcl.
  exists s'. split.
  { simpl app. rewrite (run_cons _ _ _ _ Hstep1), (run_cons _ _ _ _ Hstep2).
    exact Hrun. }
  split; [exact Hch|].
  rewrite Hsn, Hcl, Hrep, Hbd, Hpd, Hf, Hip. unfold s2. rewrite Hs1. simpl.
  do 3 (split; [done|]). split; [by destruct last|].
  do 2 (split; [done|]). split.
  { unfold progress_report. simpl. rewrite andb_true_r. done. }
  split.
  { intros ->. unfold record_of. rewrite MarkProjectInDB_record. eauto. }
  split; [by intros ->|]. done.
Qed.

Lemma X19_witness :
  ∃ s', run [LHandle 0 Demo.env_ok; LRun 0; LRun 0; LRun 0; LRun 0; LRun 0; LRun 0]
          Demo_blob_arrived = Some s' ∧
        project (snapshot_db s') = Some ([], []).
Proof.
  destruct (X19_blob_success_path Demo_blob_arrived 0 _ Demo_empty_blob [] []
              Demo.env_ok 7 Demo_blob_arrived_chain eq_refl eq_refl)
    as (s' & Hrun & _ & Hrow & _).
  { vm_compute. reflexivity. }
  { vm_compute. reflexivity. }
  { reflexivity. }
  { vm_compute. reflexivity. }
  exists s'. split; [exact Hrun|exact Hrow].
Defined.

(** X20: [Cancel] does not stop a success handler that is already
    running.  In a cancelled session the block is still written and
    counted, but [ReportProgress] returns at its first test: nothing is
    reported, the record of the project is not touched, and the slot is
    released once. *)
Theorem X20_block_commit_after_cancel s i c data blockHash env blockData :
  chains s !! i = Some c → chain_pc c = Handling data →
  chain_handler c = Block blockHash →
  decoded env = Some blockData → db_result env = DbOk →
  mCancelled s = true →
  ∃ s', run [LHandle i env; LRun i; LRun i; LRun i] s = Some s' ∧
        chains s' !! i = Some (with_pc c Finished) ∧
        sampleblocks (snapshot_db s') !! BlockId blockData = Some blockData ∧
        block_hashes (cloud s')
          !! (ProjectInfo_Id (mProjectInfo s), BlockId blockData)
          = Some blockHash ∧
        mDownloadedBlocks s' = mDownloadedBlocks s + 1 ∧
        reports s' = reports s ∧
        projects (cloud s') = projects (cloud s) ∧
        mRequestsInProgress s' = mRequestsInProgress s - 1.
Proof.
  intros Hc Hpc Hh Hdec Hdb Hcan.
  pose (s1 := OnBlockDownloaded_commit i c blockHash env s).
  assert (Hs1 : s1 = goto i c Storing
            (set_snapshot_db
               {| project := project (snapshot_db s);
                  autosave := autosave (snapshot_db s);
                  has_sampleblocks := has_sampleblocks (snapshot_db s);
                  sampleblocks :=
                    <[BlockId blockData := blockData]> (sampleblocks (snapshot_db s)) |}
               (set_cloud
                  {| projects := projects (cloud s);
                     block_hashes :=
                       <[(ProjectInfo_Id (mProjectInfo s), BlockId blockData) := blockHash]>
                         (block_hashes (cloud s)) |} s))).
  { unfold s1, OnBlockDownloaded_commit. by rewrite Hdec, Hdb. }
  pose (s2 := goto i (with_pc c Storing) RPCheck
                (set_mDownloadedBlocks (mDownloadedBlocks s1 + 1) s1)).
  assert (Hc1 : chains s1 !! i = Some (with_pc c Storing)).
  { rewrite Hs1. by eapply lookup_goto. }
  assert (Hstep1 : step (LHandle i env) s = Some s1)
    by (by eapply step_handle_block).
  assert (Hstep2 : step (LRun i) s1 = Some s2).
  { rewrite (step_LRun _ _ _ Hc1). unfold run_chain. simpl. by rewrite Hh. }
  destruct (ReportProgress_cancelled s2 i (with_pc (with_pc c Storing) RPCheck))
    as (s' & Hrun & Hch & Hrep & Hcl & Hsn & Hip & Hbd & _).
  { by eapply lookup_goto. }
  { done. }
  { unfold s2. rewrite Hs1. exact Hcan. }
  exists s'. split.
  { rewrite (run_cons _ _ _ _ Hstep1), (run_cons _ _ _ _ Hstep2). exact Hrun. }
  split; [exact Hch|].
  rewrite Hsn, Hcl, Hrep, Hbd, Hip. unfold s2. rewrite Hs1. simpl.
  split; [by rewrite lookup_insert_eq|].
  split; [by rewrite lookup_insert_eq|]. done.
Qed.

Lemma Demo_cancelled_block_chain :
  chains Demo_cancelled_block !! 1%nat =
  Some {| chain_url := "https://host/bb"; chain_handler := Block "BB";
          chain_response := Some 1%nat; chain_pc := Handling [] |}.
Proof. vm_compute. reflexivity. Qed.

Lemma X20_witness :
  ∃ s', run [LHandle 1 (Demo_block 2); LRun 1; LRun 1; LRun 1]
          Demo_cancelled_block = Some s' ∧
        reports s' = reports Demo_cancelled_block.
Proof.
  destruct (X20_block_commit_after_cancel Demo_cancelled_block 1 _ [] "BB"
              (Demo_block 2) _ Demo_cancelled_block_chain eq_refl eq_refl
              eq_refl eq_refl)
    as (s' & Hrun & _ & _ & _ & _ & Hrep & _).
  { vm_compute. reflexivity. }
  exists s'. split; [exact Hrun|exact Hrep].
Defined.

(** ** Resuming *)

Lemma construct_infos cloud0 snap pinfo sinfo path now :
  let s0 := construct cloud0 (Some snap) pinfo sinfo path now in
  mProjectInfo s0 = pinfo ∧ mSnapshotInfo s0 = sinfo ∧ mPath s0 = path.
Proof.
  simpl. unfold construct.
  by destruct (bool_decide _ && already_synced cloud0 pinfo sinfo).
Qed.

Lemma not_requested_known knownBlocks sinfo url h :
  h ∈ knownBlocks → (url, Block h) ∉ build_requests knownBlocks sinfo.
Proof.
  intros Hk Hin. rewrite build_requests_spec in Hin.
  apply elem_of_cons in Hin as [Hin|Hin]; [done|].
  apply list_elem_of_fmap in Hin as (block & Heq & Hb).
  apply list_elem_of_filter in Hb as [Hnk _].
  unfold block_request in Heq. simplify_eq. by apply Hnk.
Qed.

Lemma reachable_block_handlers s i c h :
  reachable s → chains s !! i = Some c → chain_handler c = Block h →
  ∃ block, block ∈ Blocks (mSnapshotInfo s) ∧ h = ToUpper (Hash block) ∧
           chain_url c = Url block.
Proof.
  intros Hr Hc Hh.
  pose proof (di_chains s (reachable_dispatch s Hr) i c Hc) as Hreq.
  rewrite Hh in Hreq.
  destruct Hr as (s0 & ls & (cloud0 & snap & pinfo & sinfo & path & now & _ & ->) & Hrun).
  destruct (run_same_config _ _ _ Hrun) as [Hrq _ _ _ Hsi _].
  rewrite Hrq in Hreq. rewrite Hsi.
  destruct (construct_infos cloud0 snap pinfo sinfo path now) as (_ & -> & _).
  destruct (construct_cases cloud0 snap pinfo sinfo path now)
    as [(_ & _ & Hnil & _)|(_ & Hbuild & _)]; cbv zeta in *.
  - by rewrite Hnil in Hreq.
  - rewrite Hbuild, build_requests_spec in Hreq.
    destruct i as [|i]; simpl in Hreq; [done|].
    apply list_lookup_fmap_Some in Hreq as (block & Heq & Hb).
    apply list_elem_of_lookup_2 in Hb.
    apply list_elem_of_filter in Hb as [_ Hb].
    exists block. unfold block_request in Heq. by simplify_eq.
Qed.

(** X21: a block that has been committed is not fetched again.  After the
    commit of [OnBlockDownloaded], when the attached file has its sample
    blocks, the hash of the block is among the known blocks of the same
    snapshot, so a session constructed then for this snapshot has no
    request for it. *)
Theorem X21_committed_block_known s i c data blockHash env blockData :
  reachable s →
  chains s !! i = Some c → chain_pc c = Handling data →
  chain_handler c = Block blockHash →
  decoded env = Some blockData → db_result env = DbOk →
  has_sampleblocks (snapshot_db s) = true →
  ∃ s', step (LHandle i env) s = Some s' ∧
        blockHash ∈ CalculateKnownBlocks (cloud s') (snapshot_db s')
                      (mProjectInfo s) (mSnapshotInfo s) ∧
        ∀ path now url,
          (url, Block blockHash) ∉
            mRequests (construct (cloud s') (Some (snapshot_db s'))
                         (mProjectInfo s) (mSnapshotInfo s) path now).
Proof.
  intros Hr Hc Hpc Hh Hdec Hdb Hstmt.
  destruct (reachable_block_handlers s i c blockHash Hr Hc Hh)
    as (block & Hb & Hhash & _).
  set (cloud' := {| projects := projects (cloud s);
                    block_hashes :=
                      <[(ProjectInfo_Id (mProjectInfo s), BlockId blockData) := blockHash]>
                        (block_hashes (cloud s)) |}).
  set (snap' := {| project := project (snapshot_db s);
                   autosave := autosave (snapshot_db s);
                   has_sampleblocks := has_sampleblocks (snapshot_db s);
                   sampleblocks :=
                     <[BlockId blockData := blockData]> (sampleblocks (snapshot_db s)) |}).
  exists (goto i c Storing (set_snapshot_db snap' (set_cloud cloud' s))).
  split.
  { rewrite (step_handle_block _ _ _ _ _ _ Hc Hpc Hh).
    unfold OnBlockDownloaded_commit. by rewrite Hdec, Hdb. }
  change (cloud (goto i c Storing (set_snapshot_db snap' (set_cloud cloud' s))))
    with cloud'.
  change (snapshot_db (goto i c Storing (set_snapshot_db snap' (set_cloud cloud' s))))
    with snap'.
  assert (Hk : blockHash ∈ CalculateKnownBlocks cloud' snap'
                 (mProjectInfo s) (mSnapshotInfo s)).
  { apply elem_of_CalculateKnownBlocks. split; [exact Hstmt|].
    split; [by exists block|]. exists (BlockId blockData).
    split; [apply lookup_insert_eq|].
    apply elem_of_dom. unfold snap'. cbn [sampleblocks].
    rewrite lookup_insert_eq. eauto. }
  split; [exact Hk|]. intros path now url.
  destruct (construct_cases cloud' snap' (mProjectInfo s) (mSnapshotInfo s) path now)
    as [(_ & _ & Hnil & _)|(_ & Hbuild & _)]; cbv zeta in *.
  - rewrite Hnil. apply not_elem_of_nil.
  - rewrite Hbuild. by apply not_requested_known.
Qed.

Lemma Demo_block_arrived_run :
  run [LSched; LIssue 0; LSched; LIssue 1; LFinished 1 (Demo.ok [])] Demo.session
  = Some Demo_block_arrived.
Proof. vm_compute. reflexivity. Qed.

Lemma Demo_block_arrived_reachable : reachable Demo_block_arrived.
Proof. eapply Demo_reachable. exact Demo_block_arrived_run. Qed.

Lemma X21_witness :
  ∃ s', step (LHandle 1 (Demo_block 2)) Demo_block_arrived = Some s' ∧
        "BB" ∈ CalculateKnownBlocks (cloud s') (snapshot_db s')
                 (mProjectInfo Demo_block_arrived)
                 (mSnapshotInfo Demo_block_arrived).
Proof.
  destruct (X21_committed_block_known Demo_block_arrived 1 _ [] "BB" (Demo_block 2) _
              Demo_block_arrived_reachable Demo_block_arrived_chain
              eq_refl eq_refl eq_refl eq_refl)
    as (s' & Hstep & Hk & _).
  { vm_compute. reflexivity. }
  exists s'. split; [exact Hstep|exact Hk].
Defined.

Lemma classify_cancelled response retries :
  classify response retries = OutCancelled → getError response = OperationCancelled.
Proof.
  unfold classify. destruct (bool_decide_reflect (getError response = OperationCancelled));
    [done|].
  destruct (bool_decide (getError response = HTTPError) && _); [done|].
  destruct (bool_decide (getError response ≠ NoError)); [|done].
  by destruct (retries <=? 0).
Qed.

Lemma classify_failure response retries msg :
  classify response retries = OutFailure msg → msg ≠ "".
Proof.
  unfold classify, msg_download_failed_fmt.
  destruct (bool_decide (getError response = OperationCancelled)); [done|].
  destruct (bool_decide (getError response = HTTPError) && _);
    [intros; by simplify_eq|].
  destruct (bool_decide (getError response ≠ NoError)); [|done].
  destruct (retries <=? 0); [intros; by simplify_eq|done].
Qed.

Lemma pending_error_nonneg c : 0 ≤ pending_error c.
Proof. unfold pending_error. destruct (chain_pc c); lia. Qed.

Lemma total_zero {A} (f : A → Z) (l : list A) :
  Forall (fun x => f x = 0) l → total f l = 0.
Proof. induction 1 as [|x l Hx _ IH]; simpl; [done|]. lia. Qed.

Lemma handle_failure_msg i env s s' c' msg again :
  step (LHandle i env) s = Some s' →
  chains s' !! i = Some c' → chain_pc c' = Failing msg again → msg ≠ "".
Proof.
  intros Hstep Hc' Hpc'.
  destruct (step_stores _ _ _ Hstep)
    as [(_ & _ & Hne)|[(i1 & env1 & c1 & data & msg1 & Hl & Hc1 & _ & Hmsg & ->)
       |[(i1 & now & c1 & pd & bd & Hl & _)
       |[(i1 & env1 & c1 & data & dict & doc & Hl & Hc1 & _ & _ & _ & _ & ->)
       |(i1 & env1 & c1 & data & h & b & Hl & Hc1 & _ & _ & _ & _ & ->)]]]].
  - by destruct (Hne i env).
  - simplify_eq. rewrite (lookup_goto _ _ _ _ _ Hc1) in Hc'.
    injection Hc' as <-. simpl in Hpc'. by simplify_eq.
  - done.
  - simplify_eq.
    match type of Hc' with
    | chains (goto _ _ _ ?t) !! _ = _ =>
        rewrite (lookup_goto _ _ _ t c1) in Hc' by exact Hc1
    end.
    injection Hc' as <-. simpl in Hpc'. done.
  - simplify_eq.
    match type of Hc' with
    | chains (goto _ _ _ ?t) !! _ = _ =>
        rewrite (lookup_goto _ _ _ t c1) in Hc' by exact Hc1
    end.
    injection Hc' as <-. simpl in Hpc'. done.
Qed.

Lemma failure_inv_initial s : initial s → failure_inv s.
Proof.
  intros (cloud0 & snap & pinfo & sinfo & path & now & Hlen & ->).
  destruct (construct_fresh cloud0 snap pinfo sinfo path now)
    as (_ & Hf & _ & _ & _ & _ & _ & Hch & _).
  cbv zeta in Hf, Hch. constructor.
  - rewrite Hch. constructor.
  - by rewrite Hf.
Qed.

Lemma errors_step l s s' :
  Forall err_ok (chains s) → step l s = Some s' → Forall err_ok (chains s').
Proof.
  intros He Hstep. pose proof (step_Step _ _ _ Hstep) as HS.
  destruct HS; simpl chains; try exact He.
  all: try (eapply Forall_insert_lookup; [eassumption|by intros|exact He|];
            unfold err_ok at 1 2; simpl; rewrite ?H0; split_ifs; try done).
  - apply Forall_app. split; [exact He|]. by repeat constructor.
  - intros _. by eapply classify_failure.
  - intros _. eapply (handle_failure_msg i env s _ (with_pc c (Failing msg true)));
      [exact Hstep|by eapply lookup_goto|done].
Qed.

Lemma reported_step l s s' :
  failure_inv s → Step l s s' → mFailed s' = true →
  (∃ r, r ∈ reports s' ∧ error r ≠ "") ∨ 0 < total pending_error (chains s').
Proof.
  intros [He Hrep] HS Hf'.
  pose proof (total_nonneg pending_error (chains s) pending_error_nonneg) as Hnn.
  assert (Hkeep : (∃ r, r ∈ reports s ∧ error r ≠ "") →
                  ∃ r, r ∈ reports s' ∧ error r ≠ "").
  { intros (r & Hr & Hne). exists r. split; [|done].
    rewrite (Step_reports _ _ _ HS). apply elem_of_app. by left. }
  destruct HS; simpl in Hf'.
  all: try (destruct (Hrep Hf') as [Hr|Hp]; [left; by apply Hkeep|right];
            simpl chains;
            try match goal with
                | Hc : chains _ !! _ = Some _ |- _ =>
                    rewrite (total_insert _ _ _ _ _ Hc);
                    unfold pending_error at 2 3; simpl;
                    match goal with Hpc : chain_pc _ = _ |- _ => rewrite Hpc end
                end;
            rewrite ?total_app; simpl; split_ifs; simpl; lia).
  - exfalso. unfold WantsNextRequest in H0.
    rewrite Hf', andb_false_r in H0. done.
  - right. simpl chains. rewrite (total_insert _ _ _ _ _ H).
    unfold pending_error at 2 3. simpl. rewrite H0. lia.
  - left. exists (failure_report err bd pd s). split.
    + simpl. apply elem_of_app. right. by apply list_elem_of_singleton.
    + simpl. pose proof (Forall_lookup_1 _ _ _ _ He H) as Hc.
      unfold err_ok in Hc. by rewrite H0 in Hc.
Qed.

Lemma failure_inv_step l s s' :
  failure_inv s → step l s = Some s' → failure_inv s'.
Proof.
  intros Hinv Hstep. constructor.
  - eapply errors_step; [apply Hinv|done].
  - eapply reported_step; [done|]. by apply step_Step.
Qed.

Lemma reachable_failure s : reachable s → failure_inv s.
Proof.
  apply (reachable_step_invariant failure_inv).
  - apply failure_inv_initial.
  - intros l s1 s2 _. apply failure_inv_step.
Qed.

Lemma alone_inv_initial s : initial s → alone_inv s.
Proof.
  intros (cloud0 & snap & pinfo & sinfo & path & now & Hlen & ->).
  destruct (construct_fresh cloud0 snap pinfo sinfo path now)
    as (Hc & Hf & Hpd & Hbd & Hidx & _ & _ & Hch & _).
  remember (construct cloud0 (Some snap) pinfo sinfo path now) as s eqn:Hs.
  clear Hs.
  constructor; unfold blocks_reachable, blob_reachable, undispatched, complete;
    rewrite ?Hch, ?Hf, ?Hpd, ?Hbd, ?Hidx, ?drop_0; simpl; try done; try lia.
Qed.

Lemma alone_counts_step l s s' :
  progress_inv s → config_inv s →
  alone_inv s → undisturbed l → Step l s s' →
  mCancelled s' = false ∧
  (Z.b2z (mFailed s') + total failing (chains s') = 0 →
   blocks_reachable s' = total request_blocks (mRequests s')) ∧
  (Z.b2z (mFailed s') + total failing (chains s') = 0 →
   blob_reachable s' = total request_blob (mRequests s')).
Proof.
  intros Hpi Hci [Hcan Hb Hp] Hund HS.
  pose proof (total_nonneg failing (chains s) failing_nonneg) as Hnn.
  pose proof (pi_blob s Hpi) as Hpb. pose proof (ci_blob s Hci) as Hcb.
  destruct HS; simpl in Hund;
    try (exfalso; by eauto using classify_cancelled);
    (split; [exact Hcan|]);
    unfold blocks_reachable, blob_reachable, undispatched in *; simpl.
  all: try done.
  all: split_ifs.
  all: try (by chain_arith s).
  - rewrite !total_app; simpl;
      rewrite !(total_drop_lookup _ _ _ _ H2) in *;
      unfold chain_blocks, chain_blob, failing, request_blocks, request_blob,
        new_chain in *; simpl;
      destruct request as [u [|h]]; simpl in *; lia.
  - pose proof (total_lookup_le chain_blob _ _ _ chain_blob_nonneg H) as Hge.
    unfold chain_blob in Hge at 1 2. rewrite H0, H1 in Hge. simpl in Hge.
    pose proof (total_nonneg request_blob
                  (drop (mNextRequestIndex s) (mRequests s))
                  request_blob_nonneg) as Hun.
    chain_arith s. all: done.
Qed.

Lemma alone_inv_step l s s' :
  progress_inv s → config_inv s →
  alone_inv s → undisturbed l → Step l s s' → alone_inv s'.
Proof.
  intros Hp Hc Ha Hund HS.
  destruct (alone_counts_step _ _ _ Hp Hc Ha Hund HS) as (H1 & H2 & H3).
  constructor; [exact H1|exact H2|exact H3].
Qed.

Lemma alone_run ls s0 s :
  initial s0 → Forall undisturbed ls → run ls s0 = Some s → alone_inv s.
Proof.
  intros Hi Hund Hrun.
  assert (H : (progress_inv s ∧ config_inv s) ∧ alone_inv s); [|apply H].
  revert s Hrun. induction ls as [|l ls IH] using rev_ind; intros s Hrun.
  - simpl in Hrun. simplify_eq. split; [split|].
    + by apply progress_inv_initial.
    + by apply config_inv_initial.
    + by apply alone_inv_initial.
  - apply Forall_app in Hund as [Hund Hl].
    apply Forall_inv in Hl.
    rewrite run_app in Hrun.
    destruct (run ls s0) as [s1|] eqn:Hs1; simpl in Hrun; [|done].
    destruct (step l s1) as [s2|] eqn:Hs2; simpl in Hrun; [|done].
    simplify_eq. destruct (IH Hund s1 eq_refl) as [[Hp Hc] Ha].
    apply step_Step in Hs2. split; [split|].
    + by eapply progress_inv_step.
    + by eapply config_inv_step.
    + exact (alone_inv_step _ _ _ Hp Hc Ha Hl Hs2).
Qed.

Lemma Step_thread_idle l s s' :
  Step l s s' → mRequestsThread s' = NotStarted → mRequestsThread s = NotStarted.
Proof. destruct 1; simpl; done. Qed.

Lemma thread_inv_initial s : initial s → thread_inv s.
Proof.
  intros (cloud0 & snap & pinfo & sinfo & path & now & Hlen & ->).
  unfold construct.
  destruct (bool_decide _ && already_synced cloud0 pinfo sinfo); simpl.
  - constructor; simpl; try done.
    intros _. eexists. split; [by apply list_elem_of_singleton|done].
  - constructor; simpl; try done.
    intros _. apply total_blob_requests.
Qed.

Lemma thread_inv_step l s s' : thread_inv s → Step l s s' → thread_inv s'.
Proof.
  intros [Hex Hidle Hblob] HS.
  destruct (Step_same_config _ _ _ HS) as [Hreq _ _ _ _ _].
  constructor.
  - rewrite Hreq. intros Ht.
    destruct HS; simpl in Ht; try congruence; simpl;
      try (destruct (Hex Ht) as [Hw|Hle]; [left|right; exact Hle];
           unfold WantsNextRequest in *; simpl; exact Hw).
    + destruct H0 as [Hw|[_ Hle]]; [by left|by right].
    + left. unfold WantsNextRequest. simpl. by rewrite andb_false_r.
    + left. done.
  - intros Ht. destruct (Hidle (Step_thread_idle _ _ _ HS Ht)) as (r & Hr & Hs).
    exists r. split; [|done]. rewrite (Step_reports _ _ _ HS).
    apply elem_of_app. by left.
  - intros Ht. rewrite Hreq. apply Hblob. by eapply Step_thread.
Qed.

Lemma reachable_thread s : reachable s → thread_inv s.
Proof.
  apply (reachable_invariant thread_inv).
  - apply thread_inv_initial.
  - intros l s1 s2. apply thread_inv_step.
Qed.

Lemma quiescent_finished s :
  quiescent s → Forall (fun c => chain_pc c = Finished) (chains s).
Proof.
  intros Hq. apply Forall_lookup. intros i c Hc.
  destruct (chain_pc c) eqn:Hpc; try done; exfalso.
  all: try (specialize (Hq (LRun i) ltac:(done)); simpl in Hq;
            rewrite Hc in Hq; simpl in Hq; unfold run_chain in Hq;
            rewrite Hpc in Hq;
            try destruct (chain_handler c); try destruct (mCancelled s);
            try destruct (bool_decide _ && _); done).
  - specialize (Hq (LIssue i) ltac:(done)). simpl in Hq.
    rewrite Hc in Hq. simpl in Hq. by rewrite Hpc in Hq.
  - specialize (Hq (LFinished i {| getError := NoError; getHTTPCode := 200;
                                   readAll := []; getErrorString := "" |})
                  ltac:(done)).
    simpl in Hq. rewrite Hc in Hq. simpl in Hq. by rewrite Hpc in Hq.
  - specialize (Hq (LHandle i {| decoded := None; db_result := DbOk |})
                  ltac:(done)).
    simpl in Hq. rewrite Hc in Hq. simpl in Hq. rewrite Hpc in Hq.
    by destruct (chain_handler c).
  - specialize (Hq (LMark i 0) ltac:(done)). simpl in Hq.
    rewrite Hc in Hq. simpl in Hq. by rewrite Hpc in Hq.
Qed.

Lemma quiescent_thread s :
  slots_inv s → quiescent s → mRequestsThread s ≠ Running.
Proof.
  intros Hsl Hq Hrun. pose proof (quiescent_finished s Hq) as Hfin.
  assert (H0 : total in_flight (chains s) = 0).
  { apply total_zero. eapply Forall_impl; [exact Hfin|].
    intros c Hc. unfold in_flight. by rewrite Hc. }
  pose proof (si_le s Hsl) as Hle.
  specialize (Hq LSched ltac:(done)). simpl in Hq.
  unfold RequestsThread_step in Hq. rewrite Hrun in Hq.
  destruct (negb (WantsNextRequest s)); [done|].
  destruct (Z.leb_spec MAX_CONCURRENT_REQUESTS (mRequestsInProgress s)) as [Hge|_].
  - unfold MAX_CONCURRENT_REQUESTS in Hge. lia.
  - by destruct (mRequests s !! mNextRequestIndex s).
Qed.

Lemma quiescent_intro s :
  mRequestsThread s ≠ Running →
  Forall (fun c => chain_pc c = Finished) (chains s) → quiescent s.
Proof.
  intros Ht Hfin l Hl.
  assert (Hpc : ∀ i c, chains s !! i = Some c → chain_pc c = Finished).
  { intros i c Hc. by eapply (Forall_lookup_1 _ _ _ _ Hfin). }
  destruct l as [|i|i response|i env|i now|i|]; simpl; try done.
  - unfold RequestsThread_step. by destruct (mRequestsThread s).
  - destruct (chains s !! i) as [c|] eqn:Hc; [|done]. simpl.
    by rewrite (Hpc i c Hc).
  - destruct (chains s !! i) as [c|] eqn:Hc; [|done]. simpl.
    by rewrite (Hpc i c Hc).
  - destruct (chains s !! i) as [c|] eqn:Hc; [|done]. simpl.
    by rewrite (Hpc i c Hc).
  - destruct (chains s !! i) as [c|] eqn:Hc; [|done]. simpl.
    by rewrite (Hpc i c Hc).
  - destruct (chains s !! i) as [c|] eqn:Hc; [|done]. simpl.
    unfold run_chain. by rewrite (Hpc i c Hc).
Qed.

(** X22: what a session has to show once the thread and every callback
    have ended.  If [mFailed] is set, the callback has been given a report
    with an error message, [completed] and no [success].  If it is not
    set, the thread was started, no two blocks of the snapshot share an
    upper-case hash, [Cancel] was never called and no response was
    reported as cancelled, then nothing is missing: [mProjectDownloaded]
    is set and [mDownloadedBlocks] has reached [mMissingBlocks].  (Whether
    a call of [ReportProgress] has then seen both, and reported
    [success], depends on what its loads read; nothing is said of it.) *)
Theorem X22_quiescent_outcome cloud0 snap pinfo sinfo path now ls s :
  Z.of_nat (length (Blocks sinfo)) < 2 ^ 64 →
  run ls (construct cloud0 (Some snap) pinfo sinfo path now) = Some s →
  quiescent s →
  (mFailed s = true →
   ∃ r, r ∈ reports s ∧ error r ≠ "" ∧ completed r = true ∧ success r = false) ∧
  (mFailed s = false → mRequestsThread s ≠ NotStarted →
   NoDup ((fun block => ToUpper (Hash block)) <$> Blocks sinfo) →
   Forall undisturbed ls →
   mProjectDownloaded s = true ∧ mDownloadedBlocks s = mMissingBlocks s).
Proof.
  intros Hlen Hrun Hq.
  set (s0 := construct cloud0 (Some snap) pinfo sinfo path now) in *.
  assert (Hi : initial s0) by (by exists cloud0, snap, pinfo, sinfo, path, now).
  assert (Hr : reachable s) by (by exists s0, ls).
  pose proof (reports_ok s Hr) as Hok.
  pose proof (quiescent_finished s Hq) as Hfin.
  assert (Hzero : ∀ f : Chain → Z,
            (∀ c, chain_pc c = Finished → f c = 0) → total f (chains s) = 0).
  { intros f Hf. apply total_zero. eapply Forall_impl; [exact Hfin|]. exact Hf. }
  split.
  - intros Hfail.
    destruct (fi_reported s (reachable_failure s Hr) Hfail)
      as [(r & Hin & Hne)|Hpend].
    + exists r. split; [done|]. split; [done|].
      destruct (proj1 (Forall_forall _ _) Hok r Hin) as (_ & _ & Herr).
      destruct (Herr Hne) as (? & ? & _). done.
    + rewrite (Hzero pending_error) in Hpend; [lia|].
      intros c Hc. unfold pending_error. by rewrite Hc.
  - intros Hfail Hstarted Hnd Hund.
    destruct (reachable_thread s Hr) as [Hex Hidle Hblob].
    destruct (alone_run ls s0 s Hi Hund Hrun) as [Hcan Hb Hp].
    destruct (mRequestsThread s) eqn:Ht.
    + done.
    + by destruct (quiescent_thread s (reachable_slots s Hr) Hq).
    + destruct (Hex eq_refl) as [Hw|Hle].
      { unfold WantsNextRequest in Hw. by rewrite Hcan, Hfail in Hw. }
      assert (Hund0 : undispatched s = []).
      { unfold undispatched. by apply drop_ge. }
      assert (Hf0 : Z.b2z (mFailed s) + total failing (chains s) = 0).
      { rewrite Hfail, (Hzero failing); [done|].
        intros c Hc. unfold failing. by rewrite Hc. }
      specialize (Hb Hf0). specialize (Hp Hf0).
      unfold blocks_reachable in Hb. unfold blob_reachable in Hp.
      rewrite Hund0 in Hb, Hp. simpl in Hb, Hp.
      rewrite (Hzero chain_blocks) in Hb
        by (intros c Hc; unfold chain_blocks; by rewrite Hc).
      rewrite (Hzero chain_blob) in Hp
        by (intros c Hc; unfold chain_blob; by rewrite Hc).
      rewrite Hblob in Hp by done.
      destruct (run_same_config _ _ _ Hrun) as [Hreq Hmiss _ _ _ _].
      destruct (missing_requests cloud0 snap pinfo sinfo path now Hlen)
        as (_ & _ & Heq).
      specialize (Heq Hnd). fold s0 in Heq. rewrite <- Hreq, <- Hmiss in Heq.
      split; [by destruct (mProjectDownloaded s)|lia].
Qed.

Lemma Demo_hashes_NoDup :
  NoDup ((fun block => ToUpper (Hash block)) <$> Blocks Demo.sinfo).
Proof.
  repeat constructor; vm_compute; intros H;
    repeat (apply elem_of_cons in H as [H|H]; [discriminate|]);
    by apply elem_of_nil in H.
Qed.

Lemma Demo_complete_quiescent : quiescent Demo_complete.
Proof.
  apply quiescent_intro.
  - assert (Ht : mRequestsThread Demo_complete = Exited)
      by (vm_compute; reflexivity).
    rewrite Ht. discriminate.
  - assert (Hpcs : chain_pc <$> chains Demo_complete = [Finished; Finished; Finished])
      by (vm_compute; reflexivity).
    apply (Forall_fmap chain_pc (fun pc => pc = Finished)).
    rewrite Hpcs. by repeat constructor.
Qed.

Lemma X22_witness :
  mProjectDownloaded Demo_complete = true ∧
  mDownloadedBlocks Demo_complete = mMissingBlocks Demo_complete.
Proof.
  destruct (X22_quiescent_outcome Demo.cloud0 Demo.snap Demo.pinfo Demo.sinfo
              "p.aup3" 0 Demo_complete_labels Demo_complete) as [_ H].
  - vm_compute. reflexivity.
  - exact Demo_complete_run.
  - exact Demo_complete_quiescent.
  - apply H.
    + vm_compute. reflexivity.
    + assert (Ht : mRequestsThread Demo_complete = Exited)
        by (vm_compute; reflexivity).
      rewrite Ht. discriminate.
    + exact Demo_hashes_NoDup.
    + repeat constructor; discriminate.
Defined.

Lemma steps_left_nonneg c : 0 ≤ steps_left c.
Proof. unfold steps_left. destruct (chain_pc c); lia. Qed.

Lemma work_left_step l s s' :
  Step l s s' →
  work_left s' = work_left s ∧ l = LCancel ∨ work_left s' < work_left s.
Proof.
  unfold work_left.
  destruct 1; simpl;
    try (right; rewrite (total_insert _ _ _ _ _ H);
         unfold steps_left at 2 3; simpl; rewrite H0; split_ifs; lia).
  - right. rewrite H. lia.
  - right. rewrite total_app, H. simpl. unfold steps_left at 2. simpl.
    apply lookup_lt_Some in H2. lia.
  - right. rewrite (total_insert _ _ _ _ _ H).
    unfold steps_left at 2 3. simpl. rewrite H0.
    apply classify_retry in H1. lia.
  - by left.
Qed.

Lemma work_left_run ls s s' :
  run ls s = Some s' →
  work_left s' + (Z.of_nat (length ls) - cancels ls) ≤ work_left s.
Proof.
  revert s. induction ls as [|l ls IH]; intros s Hrun; simpl in Hrun.
  - simplify_eq. unfold cancels. simpl. lia.
  - destruct (step l s) as [s1|] eqn:Hs; simpl in Hrun; [|done].
    specialize (IH s1 Hrun). apply step_Step in Hs.
    unfold cancels in *. simpl length. simpl total.
    destruct (work_left_step _ _ _ Hs) as [[Heq ->]|Hlt]; [lia|].
    destruct l; lia.
Qed.

(** X23: the session always comes to an end.  Calls of [Cancel] apart, no
    execution of a session made by the constructor takes more than 17
    steps (accesses to the shared members) for each of its requests and
    one more for the thread to end: the thread never spins and no callback
    runs for ever.  There is at most one request per block, and the one
    of the project blob. *)
Theorem X23_run_bounded cloud0 snap pinfo sinfo path now ls s :
  run ls (construct cloud0 (Some snap) pinfo sinfo path now) = Some s →
  Z.of_nat (length (Blocks sinfo)) < 2 ^ 64 →
  Z.of_nat (length ls) - cancels ls ≤
    17 * Z.of_nat (length (mRequests s)) + 1 ∧
  (length (mRequests s) ≤ 1 + length (Blocks sinfo))%nat.
Proof.
  intros Hrun Hlen.
  set (s0 := construct cloud0 (Some snap) pinfo sinfo path now) in *.
  assert (Hi : initial s0) by (by exists cloud0, snap, pinfo, sinfo, path, now).
  assert (Hr : reachable s) by (by exists s0, ls).
  destruct (reachable_cursor s Hr) as [_ Hle].
  pose proof (total_nonneg steps_left (chains s) steps_left_nonneg) as Hnn.
  pose proof (work_left_run _ _ _ Hrun) as Hwork.
  destruct (run_same_config _ _ _ Hrun) as [Hreq _ _ _ _ _].
  destruct (construct_fresh cloud0 snap pinfo sinfo path now)
    as (_ & _ & _ & _ & Hidx & _ & _ & Hch & _).
  fold s0 in Hidx, Hch.
  assert (H0 : work_left s0 ≤ 17 * Z.of_nat (length (mRequests s)) + 1).
  { unfold work_left. rewrite Hch, Hidx, Hreq. simpl.
    destruct (mRequestsThread s0); lia. }
  assert (Hs : 0 ≤ work_left s).
  { unfold work_left. destruct (mRequestsThread s); lia. }
  split; [lia|]. rewrite Hreq.
  destruct (construct_cases cloud0 snap pinfo sinfo path now)
    as [(_ & _ & Hnil & _)|(_ & Hbuild & _)]; fold s0 in Hnil || fold s0 in Hbuild.
  - rewrite Hnil. simpl. lia.
  - rewrite Hbuild, build_requests_spec. simpl. rewrite length_fmap.
    pose proof (length_filter
      (fun b => ¬ is_known (CalculateKnownBlocks cloud0 snap pinfo sinfo) b)
      (Blocks sinfo)). lia.
Qed.

Lemma X23_witness :
  Z.of_nat (length Demo_complete_labels) - cancels Demo_complete_labels ≤
  17 * Z.of_nat (length (mRequests Demo_complete)) + 1.
Proof.
  apply (X23_run_bounded Demo.cloud0 Demo.snap Demo.pinfo Demo.sinfo "p.aup3" 0
           Demo_complete_labels Demo_complete).
  - exact Demo_complete_run.
  - vm_compute. reflexivity.
Defined.

Lemma kept_inv_initial s : initial s → kept_inv s.
Proof.
  intros (cloud0 & snap & pinfo & sinfo & path & now & Hlen & ->).
  destruct (construct_fresh cloud0 snap pinfo sinfo path now)
    as (_ & _ & _ & _ & _ & _ & _ & Hch & Hiss & _).
  cbv zeta in Hch, Hiss. constructor.
  - intros response. rewrite Hiss. simpl. lia.
  - intros i c retries response. by rewrite Hch.
Qed.

Lemma current_goto s t i c pc response :
  chains s !! i = Some c → chains t = chains s →
  current (goto i c pc t) response ↔ current s response.
Proof.
  intros Hc Ht. unfold current. simpl. rewrite Ht. split.
  - intros (j & cj & Hj & Hr). destruct (decide (j = i)) as [->|Hne].
    + rewrite list_lookup_insert_eq in Hj by (by eapply lookup_lt_Some).
      simplify_eq. by exists i, c.
    + rewrite list_lookup_insert_ne in Hj by done. by exists j, cj.
  - intros (j & cj & Hj & Hr). destruct (decide (j = i)) as [->|Hne].
    + simplify_eq. exists i, (with_pc c pc).
      by rewrite list_lookup_insert_eq by (by eapply lookup_lt_Some).
    + exists j, cj. by rewrite list_lookup_insert_ne.
Qed.

Lemma kept_goto_same s t i c pc :
  kept_inv s → responses_inv s → chains s !! i = Some c →
  chains t = chains s → issued t = issued s → mResponses t = mResponses s →
  (∀ retries, pc = Queued retries → live c = 1) →
  kept_inv (goto i c pc t).
Proof.
  intros [Hk Hq] Hresp Hc Hch Hiss Hmr Hpc. constructor.
  - intros response Hlt Hcur. simpl in Hlt. rewrite Hiss in Hlt.
    rewrite (current_goto s t) in Hcur by done.
    simpl. rewrite Hmr. by apply Hk.
  - intros j cj retries response Hj Hpcj Hr. simpl in Hj. rewrite Hch in Hj.
    simpl. rewrite Hmr. destruct (decide (j = i)) as [->|Hne].
    + rewrite list_lookup_insert_eq in Hj by (by eapply lookup_lt_Some).
      simplify_eq. simpl in *.
      pose proof (Hresp i c Hc) as Ht. unfold tracked in Ht. rewrite Hr in Ht.
      destruct Ht as [_ Hlive]. apply Hlive. by eapply Hpc.
    + rewrite list_lookup_insert_ne in Hj by done. by eapply Hq.
Qed.

Lemma kept_goto_remove s i c pc :
  kept_inv s → responses_inv s → chains s !! i = Some c →
  (∀ retries, pc ≠ Queued retries) →
  kept_inv (goto i c pc (RemoveRequest (chain_response c) s)).
Proof.
  intros [Hk Hq] Hresp Hc Hpc. constructor.
  - intros response Hlt Hcur. simpl in Hlt.
    rewrite (current_goto s) in Hcur by done.
    apply elem_of_RemoveRequest; [by apply Hk|].
    intros Heq. apply Hcur. by exists i, c.
  - intros j cj retries response Hj Hpcj Hr.
    change (chains (goto i c pc (RemoveRequest (chain_response c) s)))
      with (<[i := with_pc c pc]> (chains s)) in Hj.
    destruct (decide (j = i)) as [->|Hne].
    + rewrite list_lookup_insert_eq in Hj by (by eapply lookup_lt_Some).
      simplify_eq. simpl in Hpcj. by destruct (Hpc retries).
    + rewrite list_lookup_insert_ne in Hj by done.
      apply elem_of_RemoveRequest; [by eapply Hq|].
      destruct (chain_response c) as [ri|] eqn:Hri; [|done].
      intros [= ->]. by eapply (tracked_other s j i cj c ri ri).
Qed.

Lemma kept_inv_step l s s' :
  responses_inv s → kept_inv s → Step l s s' → kept_inv s'.
Proof.
  intros Hresp Hinv HS.
  destruct HS; split_ifs;
    try (apply (kept_goto_remove s); [done|done|done|done]);
    try (apply (kept_goto_same s); [done|done|done|done|done|done|];
         intros retries' Heq; try done; unfold live; by rewrite ?H0).
  - destruct Hinv as [Hk Hq]. constructor; [exact Hk|exact Hq].
  - destruct Hinv as [Hk Hq]. constructor.
    + intros response Hlt Hcur. simpl. apply Hk; [exact Hlt|].
      intros (j & cj & Hj & Hr). apply Hcur. exists j, cj. split; [|done].
      simpl. by apply lookup_app_l_Some.
    + intros j cj retries response Hj Hpcj Hr. simpl in Hj. simpl.
      apply lookup_app_Some in Hj as [Hj|[_ Hj]]; [by eapply Hq|].
      apply list_lookup_singleton_Some in Hj as [_ <-]. done.
  - destruct Hinv as [Hk Hq]. constructor.
    + intros response Hlt Hcur. simpl in Hlt. rewrite length_app in Hlt.
      simpl in Hlt. simpl. apply elem_of_app.
      destruct (decide (response = length (issued s))) as [->|Hne].
      { right. by apply list_elem_of_singleton. }
      left. destruct (decide (chain_response c = Some response)) as [Hold|Hold].
      { by eapply Hq. }
      apply Hk; [lia|]. intros (j & cj & Hj & Hr). apply Hcur.
      destruct (decide (j = i)) as [->|Hji]; [simplify_eq|].
      exists j, cj. split; [|done]. simpl. by rewrite list_lookup_insert_ne.
    + intros j cj retries' response Hj Hpcj Hr. simpl in Hj. simpl.
      apply elem_of_app. left. destruct (decide (j = i)) as [->|Hji].
      * rewrite list_lookup_insert_eq in Hj by (by eapply lookup_lt_Some).
        by simplify_eq.
      * rewrite list_lookup_insert_ne in Hj by done. by eapply Hq.
  - destruct Hinv as [Hk Hq]. constructor; [exact Hk|exact Hq].
Qed.

Lemma reachable_kept s : reachable s → kept_inv s.
Proof.
  intros Hr.
  assert (H : responses_inv s ∧ kept_inv s); [|apply H].
  revert s Hr. apply (reachable_invariant
    (fun s => responses_inv s ∧ kept_inv s)).
  - intros s Hi. split; [by apply responses_inv_initial|by apply kept_inv_initial].
  - intros l s s' [Hresp Hk] HS. split.
    + by eapply responses_inv_step.
    + by eapply kept_inv_step.
Qed.

(** X24: the response of an attempt that a retry has replaced is never
    erased.  [RemoveRequest] is only called with the response of the last
    attempt, so every response that was issued and is no longer the one a
    callback works on is still in [mResponses], in every reachable
    state. *)
Theorem X24_superseded_responses_kept s response :
  reachable s →
  (response < length (issued s))%nat →
  (∀ i c, chains s !! i = Some c → chain_response c ≠ Some response) →
  response ∈ mResponses s.
Proof.
  intros Hr Hlt Hcur. apply (ki_kept s (reachable_kept s Hr)); [done|].
  intros (i & c & Hc & Hresp). by apply (Hcur i c).
Qed.

Lemma Demo_retried_end :
  run [LSched; LIssue 0; LFinished 0 (Demo.http 503); LIssue 0;
       LFinished 0 (Demo.http 404); LRun 0; LRun 0; LRun 0; LRun 0; LRun 0]
    Demo.session = Some Demo_retried.
Proof. vm_compute. reflexivity. Qed.

Lemma X24_witness : 0%nat ∈ mResponses Demo_retried.
Proof.
  apply (X24_superseded_responses_kept Demo_retried 0).
  - eapply Demo_reachable. exact Demo_retried_end.
  - assert (Hiss : length (issued Demo_retried) = 2%nat)
      by (vm_compute; reflexivity).
    rewrite Hiss. lia.
  - assert (Hch : chain_response <$> chains Demo_retried = [Some 1%nat])
      by (vm_compute; reflexivity).
    intros i c Hc Hr.
    assert (Hin : Some 0%nat ∈ chain_response <$> chains Demo_retried).
    { apply list_elem_of_fmap. exists c. split; [done|].
      by eapply list_elem_of_lookup_2. }
    rewrite Hch in Hin. apply list_elem_of_singleton in Hin. discriminate.
Defined.
